(** * Gauge: tag filter, step cache, API dispatch, result aggregation, console reporter

    A shallow embedding of the parts of Gauge that select scenarios by tag
    expression ([package filter]), keep the step index ([package
    infoGatherer]), answer API messages ([package api]), merge the results of
    parallel streams ([package execution]) and track the indentation of the
    coloured console ([package reporter]), with theorems about them. *)

From Stdlib Require Import ZArith Ascii String List Bool Lia.
From stdpp Require Import base decidable option list gmap strings sorting.

Local Open Scope Z_scope.

(** ** Go integers

    A Go [int] has 64 bits and wraps around. *)

Module GoInt.

Definition wrap (z : Z) : Z := (z + 2 ^ 63) mod 2 ^ 64 - 2 ^ 63.

Definition isInt (z : Z) : Prop := - 2 ^ 63 <= z < 2 ^ 63.

End GoInt.

(** ** Go strings

    A Go string is a sequence of bytes.  The functions of package [strings]
    that the filter uses are written on [list ascii]. *)

Module GoStrings.

Abbreviation gostring := (list ascii).

(** A string literal of the source. *)
Definition str (s : string) : gostring := list_ascii_of_string s.
Arguments str : simpl never.

Definition byte_eqb (a b : ascii) : bool := Ascii.eqb a b.

Fixpoint eqb (s t : gostring) : bool :=
  match s, t with
  | [], [] => true
  | a :: s', b :: t' => byte_eqb a b && eqb s' t'
  | _, _ => false
  end.

(** [strings.HasPrefix s prefix]. *)
Fixpoint HasPrefix (s prefix : gostring) {struct prefix} : bool :=
  match prefix, s with
  | [], _ => true
  | p :: prefix', c :: s' => byte_eqb p c && HasPrefix s' prefix'
  | _ :: _, [] => false
  end.

(** [strings.Index s sep]: the byte offset of the first occurrence of
    [sep] in [s], or -1. *)
Fixpoint Index (s sep : gostring) : Z :=
  if HasPrefix s sep then 0
  else match s with
       | [] => -1
       | _ :: s' => let i := Index s' sep in if i <? 0 then -1 else i + 1
       end.

(** [strings.Contains s substr]. *)
Definition Contains (s substr : gostring) : bool := 0 <=? Index s substr.

(** [strings.Replace s old new (-1)] for a non-empty [old]: the
    occurrences of [old] are found from left to right and do not overlap.
    [skip] counts the bytes of the occurrence just replaced that are still
    to be passed over. *)
Fixpoint replace_from (old new : gostring) (skip : nat) (s : gostring) : gostring :=
  match s with
  | [] => []
  | c :: s' =>
      match skip with
      | S k => replace_from old new k s'
      | O => if HasPrefix s old
             then new ++ replace_from old new (length old - 1) s'
             else c :: replace_from old new 0 s'
      end
  end.

(** With an empty [old], [strings.Replace] puts [new] in front of every
    rune and at the end of the string.  Runes are taken to be single
    bytes here, which is what they are in ASCII text. *)
Fixpoint replace_empty (new s : gostring) : gostring :=
  match s with
  | [] => new
  | c :: s' => new ++ c :: replace_empty new s'
  end.

Definition Replace (s old new : gostring) : gostring :=
  match old with
  | [] => replace_empty new s
  | _ :: _ => replace_from old new 0 s
  end.

(** [unicode.IsSpace], as the byte sequences that encode a white space
    rune in UTF-8: the six ASCII ones, U+0085, U+00A0, U+1680,
    U+2000..U+200A, U+2028, U+2029, U+202F, U+205F and U+3000. *)
Definition bytes (l : list N) : gostring := map ascii_of_N l.

Definition spaceRunes : list gostring :=
  map bytes
    [ [9]; [10]; [11]; [12]; [13]; [32]; [194; 133]; [194; 160]; [225; 154; 128];
      [226; 128; 128]; [226; 128; 129]; [226; 128; 130]; [226; 128; 131];
      [226; 128; 132]; [226; 128; 133]; [226; 128; 134]; [226; 128; 135];
      [226; 128; 136]; [226; 128; 137]; [226; 128; 138]; [226; 128; 168];
      [226; 128; 169]; [226; 128; 175]; [226; 129; 159]; [227; 128; 128] ]%N.

(** The length of the white space rune that [s] starts with, 0 if none. *)
Definition leadingSpace (s : gostring) : nat :=
  match List.find (HasPrefix s) spaceRunes with
  | Some r => length r
  | None => O
  end.

Fixpoint trimLeft_from (skip : nat) (s : gostring) : gostring :=
  match s with
  | [] => []
  | _ :: s' =>
      match skip with
      | S k => trimLeft_from k s'
      | O => match leadingSpace s with
             | O => s
             | S k => trimLeft_from k s'
             end
      end
  end.

Definition TrimLeftSpace (s : gostring) : gostring := trimLeft_from 0 s.

(** The same from the right end: a rune that ends the string is read
    backwards, so the reversed string is matched against the reversed
    encodings. *)
Definition trailingSpace (r : gostring) : nat :=
  match List.find (fun w => HasPrefix r (rev w)) spaceRunes with
  | Some w => length w
  | None => O
  end.

Fixpoint trimRight_from (skip : nat) (r : gostring) : gostring :=
  match r with
  | [] => []
  | _ :: r' =>
      match skip with
      | S k => trimRight_from k r'
      | O => match trailingSpace r with
             | O => r
             | S k => trimRight_from k r'
             end
      end
  end.

(** [strings.TrimSpace s]. *)
Definition TrimSpace (s : gostring) : gostring :=
  rev (trimRight_from 0 (rev (TrimLeftSpace s))).

(** [strings.FieldsFunc s f]: the maximal non-empty runs of bytes that do
    not satisfy [f].  [cur] is the run being read, reversed. *)
Fixpoint fields_from (f : ascii -> bool) (cur : gostring) (s : gostring) : list gostring :=
  match s with
  | [] => match cur with [] => [] | _ :: _ => [rev cur] end
  | c :: s' =>
      if f c
      then match cur with
           | [] => fields_from f [] s'
           | _ :: _ => rev cur :: fields_from f [] s'
           end
      else fields_from f (c :: cur) s'
  end.

Definition FieldsFunc (s : gostring) (f : ascii -> bool) : list gostring :=
  fields_from f [] s.

(** [strconv.FormatBool]. *)
Definition FormatBool (b : bool) : gostring :=
  if b then str "true" else str "false".

(** [s[lo:hi]] for [lo <= hi <= len(s)]. *)
Definition slice (s : gostring) (lo hi : nat) : gostring :=
  take (hi - lo) (drop lo s).

End GoStrings.

Import GoStrings.

(** ** Constant expressions

    [evaluateExp] hands the reduced expression to [types.Eval] of
    golang.org/x/tools/go/types, which parses a Go expression and computes
    its constant value.  The evaluator is written here for what substitution
    leaves of a tag expression: the digits that [true] and [false] have
    become, the operators [&], [|], [&&], [||] and [!], parentheses and white
    space.  Another byte reaches it only in a tag name that was not replaced
    or in a replacement that a later one has damaged; the evaluator answers
    it with the error, as Go does for a name that is not declared (Go itself
    knows more constant expressions, such as [1+0]). *)

Module GoConst.

Inductive token :=
| INT (digits : gostring)
| AND | OR | LAND | LOR | NOT
| LPAREN | RPAREN
| SEMICOLON.

Definition isDigit (c : ascii) : bool :=
  let n := N_of_ascii c in ((48 <=? n) && (n <=? 57))%N.

Definition flush (cur : gostring) (k : list token) : list token :=
  match cur with [] => k | _ :: _ => INT (rev cur) :: k end.

(** The scanner.  [cur] holds the digits of the literal being read,
    reversed; [skip] is set on the second byte of [&&] and [||];
    [insertSemi] says whether a line end closes the expression, which it
    does after a literal and after a closing parenthesis. *)
Fixpoint scan (skip : bool) (cur : gostring) (insertSemi : bool) (s : gostring)
  : option (list token) :=
  match s with
  | [] => Some (flush cur [])
  | c :: s' =>
      if skip then scan false [] insertSemi s'
      else if isDigit c then scan false (c :: cur) true s'
      else
        let emit t semi sk := flush cur <$> (cons t <$> scan sk [] semi s') in
        let blank semi := flush cur <$> scan false [] semi s' in
        let double := match s' with d :: _ => byte_eqb c d | [] => false end in
        let semi := match cur with [] => insertSemi | _ :: _ => true end in
        match N_of_ascii c with
        | 32%N | 9%N | 13%N => blank semi
        | 10%N => if semi then emit SEMICOLON false false else blank false
        | 38%N => if double then emit LAND false true else emit AND false false
        | 124%N => if double then emit LOR false true else emit OR false false
        | 33%N => emit NOT false false
        | 40%N => emit LPAREN false false
        | 41%N => emit RPAREN true false
        | _ => None
        end
  end.

(** The value of an integer literal: octal when it has a leading zero. *)
Definition digitVal (c : ascii) : Z := Z.of_N (N_of_ascii c) - 48.

Definition litValue (digits : gostring) : option Z :=
  match digits with
  | [] => None
  | d :: ds =>
      if byte_eqb d "0"%char
      then if forallb (fun c => digitVal c <? 8) ds
           then Some (fold_left (fun v c => 8 * v + digitVal c) ds 0)
           else None
      else Some (fold_left (fun v c => 10 * v + digitVal c) digits 0)
  end.

Inductive binop := BAnd | BOr | BLand | BLor.
Inductive unop := UNot | UAddr.

Inductive expr :=
| BasicLit (digits : gostring)
| ParenExpr (x : expr)
| UnaryExpr (op : unop) (x : expr)
| BinaryExpr (x : expr) (op : binop) (y : expr).

(** Go's operator precedences: [||] 1, [&&] 2, [|] 4, [&] 5. *)
Definition tokPrec (t : token) : option (binop * nat) :=
  match t with
  | LOR => Some (BLor, 1%nat)
  | LAND => Some (BLand, 2%nat)
  | OR => Some (BOr, 4%nat)
  | AND => Some (BAnd, 5%nat)
  | _ => None
  end.

(** The parser of go/parser on these tokens: [parseBinaryExpr prec1]
    reads a unary expression and then, as long as the next operator binds
    at least as tightly as [prec1], its right operand. *)
Fixpoint parseBinaryExpr (fuel : nat) (prec1 : nat) (toks : list token)
  {struct fuel} : option (expr * list token) :=
  match fuel with
  | O => None
  | S fuel' =>
      match parseUnaryExpr fuel' toks with
      | Some (x, rest) => binaryLoop fuel' prec1 x rest
      | None => None
      end
  end
with binaryLoop (fuel : nat) (prec1 : nat) (x : expr) (toks : list token)
  {struct fuel} : option (expr * list token) :=
  match fuel with
  | O => None
  | S fuel' =>
      match toks with
      | t :: rest =>
          match tokPrec t with
          | Some (op, oprec) =>
              if (prec1 <=? oprec)%nat
              then match parseBinaryExpr fuel' (S oprec) rest with
                   | Some (y, rest') => binaryLoop fuel' prec1 (BinaryExpr x op y) rest'
                   | None => None
                   end
              else Some (x, toks)
          | None => Some (x, toks)
          end
      | [] => Some (x, toks)
      end
  end
with parseUnaryExpr (fuel : nat) (toks : list token)
  {struct fuel} : option (expr * list token) :=
  match fuel with
  | O => None
  | S fuel' =>
      match toks with
      | INT digits :: rest => Some (BasicLit digits, rest)
      | LPAREN :: rest =>
          match parseBinaryExpr fuel' 1 rest with
          | Some (x, RPAREN :: rest') => Some (ParenExpr x, rest')
          | _ => None
          end
      | NOT :: rest =>
          match parseUnaryExpr fuel' rest with
          | Some (x, rest') => Some (UnaryExpr UNot x, rest')
          | None => None
          end
      | AND :: rest =>
          match parseUnaryExpr fuel' rest with
          | Some (x, rest') => Some (UnaryExpr UAddr x, rest')
          | None => None
          end
      | _ => None
      end
  end.

(** [parser.ParseExpr]: one expression, then at most the line end that
    closed it, then the end of the input. *)
Definition ParseExpr (s : gostring) : option expr :=
  match scan false [] false s with
  | Some toks =>
      match parseBinaryExpr (4 * length toks + 4) 1 toks with
      | Some (x, []) | Some (x, [SEMICOLON]) => Some x
      | _ => None
      end
  | None => None
  end.

(** The constant value.  Every operand is an untyped integer constant, on
    which [&] and [|] are defined and [&&], [||], [!] and the address
    operator are not. *)
Fixpoint constValue (x : expr) : option Z :=
  match x with
  | BasicLit digits => litValue digits
  | ParenExpr x => constValue x
  | UnaryExpr _ _ => None
  | BinaryExpr x op y =>
      match constValue x, constValue y, op with
      | Some a, Some b, BAnd => Some (Z.land a b)
      | Some a, Some b, BOr => Some (Z.lor a b)
      | _, _, _ => None
      end
  end.

(** [types.Eval s nil nil]: [None] is the error. *)
Definition Eval (s : gostring) : option Z :=
  match ParseExpr s with
  | Some x => constValue x
  | None => None
  end.

End GoConst.

(** ** The tag filter ([package filter]) *)

Module Filter.

(** *** Specifications

    Package [gauge] holds the parsed specification.  Of a scenario the
    filter reads the tags, which are a pointer that may be nil; an item is
    a scenario or something else (a comment, a step, a table, ...). *)

Record Scenario := { Heading : gostring; Tags : option (list gostring) }.

Inductive Item :=
| ScenarioItem (scn : Scenario)
| OtherItem (text : gostring).

Record Specification :=
  { SpecHeading : gostring; SpecTags : option (list gostring); Items : list Item }.

Definition isScenario (item : Item) : bool :=
  match item with ScenarioItem _ => true | OtherItem _ => false end.

(** The scenarios of a specification, in the order of its items. *)
Definition Scenarios (spec : Specification) : list Scenario :=
  omap (fun item => match item with ScenarioItem s => Some s | OtherItem _ => None end)
       (Items spec).

(** [gauge.SpecItemFilter]: [Filter] answers whether the item is to be
    removed.  A filter is an object with fields of its own, which a call
    may change, and a call may fail to return: the result is the answer
    with the filter after the call, or [None]. *)
Class SpecItemFilter (F : Type) :=
  Filter : F -> Item -> option (bool * F).

(** Modelled from the spec: [Specification.Filter] of package [gauge],
    which is not among the sources.  It offers every item of the
    specification to the filter, in order, and removes in place the items
    the filter answers [true] for; the scenario list follows the items. *)
Fixpoint filterItems {F} `{SpecItemFilter F} (filter : F) (items : list Item)
  : option (list Item * F) :=
  match items with
  | [] => Some ([], filter)
  | item :: rest =>
      '(remove, filter1) ← Filter filter item;
      '(rest', filter2) ← filterItems filter1 rest;
      Some (if remove : bool then rest' else item :: rest', filter2)
  end.

Definition Specification_Filter {F} `{SpecItemFilter F} (spec : Specification) (filter : F)
  : option Specification :=
  '(items, _) ← filterItems filter (Items spec);
  Some {| SpecHeading := SpecHeading spec; SpecTags := SpecTags spec; Items := items |}.

(** *** scenarioIndexFilterToRetain *)

Record scenarioIndexFilterToRetain :=
  { indexToNotFilter : Z; currentScenarioIndex : Z }.

Definition newScenarioIndexFilterToRetain (index : Z) : scenarioIndexFilterToRetain :=
  {| indexToNotFilter := index; currentScenarioIndex := 0 |}.

#[export] Instance scenarioIndexFilterToRetain_Filter : SpecItemFilter scenarioIndexFilterToRetain :=
  fun filter item =>
    match item with
    | ScenarioItem _ =>
        let next := {| indexToNotFilter := indexToNotFilter filter;
                       currentScenarioIndex := GoInt.wrap (currentScenarioIndex filter + 1) |} in
        if negb (currentScenarioIndex filter =? indexToNotFilter filter)
        then Some (true, next)
        else Some (false, next)
    | OtherItem _ => Some (false, filter)
    end.

(** *** ScenarioFilterBasedOnTags *)

Record ScenarioFilterBasedOnTags :=
  { specTags : list gostring; tagExpression : gostring }.

Definition newScenarioFilterBasedOnTags (specTags : list gostring) (tagExp : gostring)
  : ScenarioFilterBasedOnTags :=
  {| specTags := specTags; tagExpression := tagExp |}.

(** The four replacements of [replaceSpecialChar], innermost first. *)
Definition normalise (e : gostring) : gostring :=
  Replace (Replace (Replace (Replace e (str " ") (str "")) (str ",") (str "&"))
                   (str "&&") (str "&"))
          (str "||") (str "|").

Definition replaceSpecialChar (filter : ScenarioFilterBasedOnTags) : ScenarioFilterBasedOnTags :=
  {| specTags := specTags filter; tagExpression := normalise (tagExpression filter) |}.

Inductive error := InvalidExpression.

(** [evaluateExp]: [true] becomes [1], [false] becomes [0], and the value
    of the constant expression is compared with 1.  [GoConst.Eval] reads
    integers, [&], [|], [!], brackets and white space, which is what the
    text holds once every operand is a truth value; a text with other
    bytes is answered with the error here, while [types.Eval] accepts
    further constants (a float, a comparison), on which [exact.Uint64Val]
    panics. *)
Definition evaluateExp (tagExpression : gostring) : bool * option error :=
  let s := Replace (Replace tagExpression (str "true") (str "1")) (str "false") (str "0") in
  match GoConst.Eval s with
  | None => (false, Some InvalidExpression)
  | Some res => (res =? 1, None)
  end.

(** The loop of [resolveBracketExpression]: [stack] is the number of open
    brackets on [bracketStack], [i] the index of the first byte of [s].
    The answer is the value of [i] when the loop is left; taking a bracket
    off an empty stack panics. *)
Fixpoint bracketScan (stack : nat) (i : nat) (s : gostring) : option nat :=
  match s with
  | [] => Some i
  | c :: s' =>
      stack' ← (if byte_eqb c "("%char then Some (S stack)
                else if byte_eqb c ")"%char
                     then match stack with O => None | S k => Some k end
                     else Some stack);
      match stack' with
      | O => Some i
      | S _ => bracketScan stack' (S i) s'
      end
  end.

Definition resolveBracketExpression (tagExpression : gostring) : option gostring :=
  let indexOfOpenBracket := Z.to_nat (Index tagExpression (str "!(") + 1) in
  i ← bracketScan 0 indexOfOpenBracket (drop indexOfOpenBracket tagExpression);
  if (S indexOfOpenBracket <=? i)%nat
  then Some (slice tagExpression (S indexOfOpenBracket) i)
  else None.

(** [evaluateBrackets] calls itself on the text between the brackets,
    which is shorter than its argument: [fuel] bounds the depth. *)
Fixpoint evaluateBrackets_rec (fuel : nat) (tagExpression : gostring) : option gostring :=
  if Contains tagExpression (str "!(")
  then match fuel with
       | O => None
       | S fuel' =>
           innerText ← resolveBracketExpression tagExpression;
           value ← evaluateBrackets_rec fuel' innerText;
           Some (Replace tagExpression (str "!(" ++ innerText ++ str ")") value)
       end
  else Some (FormatBool (negb (fst (evaluateExp tagExpression)))).

Definition evaluateBrackets (tagExpression : gostring) : option gostring :=
  evaluateBrackets_rec (length tagExpression) tagExpression.

(** The [for] loop of [handleNegation].  It does not end on every input
    (an opening bracket without its closing one is found again and again):
    [None] after [fuel] turns. *)
Fixpoint negationLoop (fuel : nat) (tagExpression : gostring) : option gostring :=
  if Contains tagExpression (str "!(")
  then match fuel with
       | O => None
       | S fuel' => evaluateBrackets tagExpression ≫= negationLoop fuel'
       end
  else Some tagExpression.

Definition handleNegation (tagExpression : gostring) : option gostring :=
  let tagExpression :=
    Replace (Replace tagExpression (str "!true") (str "false")) (str "!false") (str "true") in
  negationLoop (length tagExpression) tagExpression.

(** The number of opening brackets of an expression.  A turn of the loop
    that changes the expression takes one away, so this number bounds the
    turns of a loop that ends. *)
Definition openBrackets (s : gostring) : nat :=
  length (List.filter (byte_eqb "("%char) s).

Definition isValidOperator (r : ascii) : bool :=
  byte_eqb r "&"%char || byte_eqb r "|"%char || byte_eqb r "("%char
  || byte_eqb r ")"%char || byte_eqb r "!"%char.

Definition getOperatorsAndOperands (filter : ScenarioFilterBasedOnTags)
  : list gostring * list gostring :=
  (map (fun r => [r]) (List.filter isValidOperator (tagExpression filter)),
   FieldsFunc (tagExpression filter) isValidOperator).

(** [ByLength.Less], on the elements: the longer one comes first. *)
Definition Less (a b : gostring) : bool := (length b <? length a)%nat.

(** [sort.Sort (ByLength tags)].  On a short slice [sort.Sort] is an
    insertion sort: each element moves towards the front past the shorter
    ones, and tags of one length keep their order; on a long slice the
    library does not say in which order it leaves them, and the order of
    the insertion sort is taken.  [insertByLength] takes the sorted part
    reversed. *)
Fixpoint insertByLength (x : gostring) (sorted_rev : list gostring) : list gostring :=
  match sorted_rev with
  | [] => [x]
  | y :: front => if Less x y then y :: insertByLength x front else x :: sorted_rev
  end.

Definition sortByLength (tags : list gostring) : list gostring :=
  rev (fold_left (fun sorted_rev x => insertByLength x sorted_rev) tags []).

Abbreviation tagsMap := (gmap gostring bool).

Definition isTagPresent (tags : tagsMap) (tagName : gostring) : bool :=
  match tags !! tagName with Some _ => true | None => false end.

Definition formatAndEvaluateExpression (filter : ScenarioFilterBasedOnTags) (tags : tagsMap)
    (isTagQualified : tagsMap -> gostring -> bool) : option (bool * option error) :=
  let operands := sortByLength (snd (getOperatorsAndOperands filter)) in
  let expToBeEvaluated :=
    fold_left (fun exp tag =>
                 Replace exp (TrimSpace tag)
                         (FormatBool (isTagQualified tags (TrimSpace tag))))
              operands (tagExpression filter) in
  evaluateExp <$> handleNegation expToBeEvaluated.

Definition makeTagsMap (stags : list gostring) : tagsMap :=
  fold_left (fun m tag => <[Replace tag (str " ") (str "") := true]> m) stags ∅.

(** [filterTags] normalises the expression held by the filter, and leaves
    it normalised in the filter. *)
Definition filterTags (filter : ScenarioFilterBasedOnTags) (stags : list gostring)
  : option (bool * ScenarioFilterBasedOnTags) :=
  let tags := makeTagsMap stags in
  let filter := replaceSpecialChar filter in
  '(value, _) ← formatAndEvaluateExpression filter tags isTagPresent;
  Some (value, filter).

#[export] Instance ScenarioFilterBasedOnTags_Filter : SpecItemFilter ScenarioFilterBasedOnTags :=
  fun filter item =>
    match item with
    | ScenarioItem scn =>
        '(value, filter') ← filterTags filter
                              (match Tags scn with
                               | None => specTags filter
                               | Some values => values ++ specTags filter
                               end);
        Some (negb value, filter')
    | OtherItem _ => Some (false, filter)
    end.

Fixpoint filterSpecsItems {F} `{SpecItemFilter F} (specs : list Specification) (filter : F)
  : option (list Specification) :=
  match specs with
  | [] => Some []
  | spec :: rest =>
      '(items, filter') ← filterItems filter (Items spec);
      let spec' := {| SpecHeading := SpecHeading spec; SpecTags := SpecTags spec;
                      Items := items |} in
      filtered ← filterSpecsItems rest filter';
      Some (if (length (Scenarios spec') =? 0)%nat then filtered else spec' :: filtered)
  end.

Fixpoint filterSpecsByTags (specs : list Specification) (tagExpression : gostring)
  : option (list Specification) :=
  match specs with
  | [] => Some []
  | spec :: rest =>
      let tagValues := match SpecTags spec with Some values => values | None => [] end in
      spec' ← Specification_Filter spec (newScenarioFilterBasedOnTags tagValues tagExpression);
      filtered ← filterSpecsByTags rest tagExpression;
      Some (if (length (Scenarios spec') =? 0)%nat then filtered else spec' :: filtered)
  end.

(** [validateTagExpression]: the expression is evaluated with a predicate
    that accepts every tag; an error is fatal. *)
Definition validateTagExpression (tagExpression : gostring) : option (option error) :=
  let filter := replaceSpecialChar (newScenarioFilterBasedOnTags [] tagExpression) in
  snd <$> formatAndEvaluateExpression filter ∅ (fun _ _ => true).

(** [evaluate expr presentTags] of the specification: the value
    [filterTags] computes for a filter that holds [expr]. *)
Definition evaluate (expr : gostring) (presentTags : list gostring) : option bool :=
  fst <$> filterTags (newScenarioFilterBasedOnTags [] expr) presentTags.

End Filter.

(** ** The step cache of the gatherer ([package infoGatherer]) *)

Module InfoGatherer.

(** [gauge.StepValue]: the step text with its parameters replaced by
    placeholders ([stepValue], the field [StepValue] of the source), the
    parameters, and the text with the parameter names. *)
Record StepValue :=
  { Args : list string; stepValue : string; ParameterizedStepValue : string }.

Section Gatherer.

(** The parsed files and what the parser and the runner give for them
    belong to other packages. *)
Variables Specification Concept TestRunner : Type.
Variable getStepsFromSpec : Specification -> list StepValue.
Variable getStepsFromConcept : Concept -> list StepValue.
Variable getImplementedSteps : TestRunner -> list StepValue.

(** The wait group and the mutex order the accesses of concurrent
    tasks; what is kept here is the three caches, as one task sees
    them with the mutex held. *)
Record SpecInfoGatherer :=
  { specsCache : gmap string (list Specification);
    conceptsCache : gmap string (list Concept);
    stepsCache : gmap string StepValue }.

Definition addToSpecsCache (s : SpecInfoGatherer) (key : string) (value : Specification)
  : SpecInfoGatherer :=
  {| specsCache := <[key := default [] (specsCache s !! key) ++ [value]]> (specsCache s);
     conceptsCache := conceptsCache s;
     stepsCache := stepsCache s |}.

Definition addToConceptsCache (s : SpecInfoGatherer) (key : string) (value : Concept)
  : SpecInfoGatherer :=
  {| specsCache := specsCache s;
     conceptsCache := <[key := default [] (conceptsCache s !! key) ++ [value]]> (conceptsCache s);
     stepsCache := stepsCache s |}.

(** The body of the loop of [addToStepsCache]. *)
Definition addStep (cache : gmap string StepValue) (step : StepValue)
  : gmap string StepValue :=
  match cache !! stepValue step with
  | Some _ => cache
  | None => <[stepValue step := step]> cache
  end.

Definition addToStepsCache (s : SpecInfoGatherer) (allSteps : list StepValue)
  : SpecInfoGatherer :=
  {| specsCache := specsCache s;
     conceptsCache := conceptsCache s;
     stepsCache := fold_left addStep allSteps (stepsCache s) |}.

(** Go ranges over a map in an order it does not specify; the order of
    [map_to_list] stands for it. *)
Definition getStepsFromCachedSpecs (s : SpecInfoGatherer) : list StepValue :=
  flat_map (fun entry => flat_map getStepsFromSpec (snd entry))
           (map_to_list (specsCache s)).

Definition getStepsFromCachedConcepts (s : SpecInfoGatherer) : list StepValue :=
  flat_map (fun entry => flat_map getStepsFromConcept (snd entry))
           (map_to_list (conceptsCache s)).

Definition initStepsCache (s : SpecInfoGatherer) (runner : TestRunner) : SpecInfoGatherer :=
  let s := {| specsCache := specsCache s; conceptsCache := conceptsCache s;
              stepsCache := ∅ |} in
  let stepsFromSpecs := getStepsFromCachedSpecs s in
  let stepsFromConcepts := getStepsFromCachedConcepts s in
  let implementedSteps := getImplementedSteps runner in
  let allSteps := implementedSteps ++ stepsFromConcepts in
  let allSteps := allSteps ++ stepsFromSpecs in
  addToStepsCache s allSteps.

Definition onSpecFileRemove (s : SpecInfoGatherer) (file : string) : SpecInfoGatherer :=
  {| specsCache := delete file (specsCache s);
     conceptsCache := conceptsCache s;
     stepsCache := stepsCache s |}.

Definition onConceptFileRemove (s : SpecInfoGatherer) (file : string) : SpecInfoGatherer :=
  {| specsCache := specsCache s;
     conceptsCache := delete file (conceptsCache s);
     stepsCache := stepsCache s |}.

Definition GetAvailableSteps (s : SpecInfoGatherer) : list StepValue :=
  snd <$> map_to_list (stepsCache s).

(** The first step of a list that has the key [key]. *)
Definition firstWriter (key : string) (steps : list StepValue) : option StepValue :=
  List.find (fun step => String.eqb (stepValue step) key) steps.

End Gatherer.

Arguments specsCache {_ _} _.
Arguments conceptsCache {_ _} _.
Arguments stepsCache {_ _} _.
Arguments addToStepsCache {_ _} _ _.
Arguments initStepsCache {_ _ _} _ _ _ _ _.
Arguments getStepsFromCachedSpecs {_ _} _ _.
Arguments getStepsFromCachedConcepts {_ _} _ _.

End InfoGatherer.

(** ** The API message handler ([package api]) *)

Module Api.

Local Open Scope string_scope.

(** [gauge_messages.APIMessage_APIMessageType]. *)
Inductive APIMessageType :=
| GetProjectRootRequest | GetProjectRootResponse
| GetInstallationRootRequest | GetInstallationRootResponse
| GetAllStepsRequest | GetAllStepResponse
| GetAllSpecsRequest | GetAllSpecsResponse
| GetStepValueRequest | GetStepValueResponse
| GetLanguagePluginLibPathRequest | GetLanguagePluginLibPathResponse
| ErrorResponse
| GetAllConceptsRequest | GetAllConceptsResponse
| PerformRefactoringRequest | PerformRefactoringResponse
| ExtractConceptRequest | ExtractConceptResponse
| FormatSpecsRequest | FormatSpecsResponse
| UnsupportedApiMessageResponse.

(** A Go function that returns a value and an [error]. *)
Inductive result (A : Type) :=
| Ok (value : A)
| Err (message : string).
Arguments Ok {A} _.
Arguments Err {A} _.

Section Handler.

(** The encoded step values, specifications and concept infos are made
    by other packages. *)
Variables ProtoStepValue ProtoSpec ConceptInfo TextInfo : Type.

(** The one payload a message carries.  The getters of a payload that
    is not there answer the zero value, as those of the generated code
    do on a nil pointer. *)
Inductive Payload :=
| NoPayload
| StepValueRequest (stepText : string) (hasInlineTable : bool)
| LibPathRequest (language : string)
| RefactoringRequest (oldStep newStep : string)
| ConceptRequest (conceptName : string) (steps : list string) (conceptFileName : string)
                 (changeAcrossProject : bool) (selectedTextInfo : option TextInfo)
| SpecsRequest (specs : list string)
| ProjectRootResponse (projectRoot : string)
| InstallationRootResponse (installationRoot : string)
| AllStepsResponse (allSteps : list ProtoStepValue)
| AllSpecsResponse (specs : list ProtoSpec)
| StepValueResponse (value : ProtoStepValue)
| LibPathResponse (path : string)
| Error (error : string)
| AllConceptsResponse (concepts : list ConceptInfo)
| RefactoringResponse (success : bool) (errors filesChanged : list string)
| ConceptResponse (isSuccess : bool) (error : string) (filesChanged : list string)
| SpecsResponse (errors warnings : list string)
| UnsupportedResponse.

(** [gauge_messages.APIMessage]; [MessageId] is a pointer. *)
Record APIMessage :=
  { MessageType : APIMessageType; MessageId : option Z; payload : Payload }.

Definition GetStepText (m : APIMessage) : string :=
  match payload m with StepValueRequest text _ => text | _ => "" end.
Definition GetHasInlineTable (m : APIMessage) : bool :=
  match payload m with StepValueRequest _ table => table | _ => false end.
Definition GetLanguage (m : APIMessage) : string :=
  match payload m with LibPathRequest language => language | _ => "" end.
Definition GetOldStep (m : APIMessage) : string :=
  match payload m with RefactoringRequest old _ => old | _ => "" end.
Definition GetNewStep (m : APIMessage) : string :=
  match payload m with RefactoringRequest _ new => new | _ => "" end.
Definition GetSpecs (m : APIMessage) : list string :=
  match payload m with SpecsRequest specs => specs | _ => [] end.

(** What the handler calls outside its package. *)
Record Collaborators :=
  { Unmarshal : list ascii -> result APIMessage;
    ProjectRoot : string;
    GetInstallationPrefix : result string;
    GetAvailableSteps : list ProtoStepValue;
    GetAvailableSpecs : list ProtoSpec;
    GetConceptInfos : list ConceptInfo;
    ExtractStepValueAndParams : string -> bool -> result ProtoStepValue;
    GetInstallDir : string -> result string;
    GetRunnerInfo : string -> result string;
    pathJoin : string -> string -> string;
    PerformRephraseRefactoring : string -> string -> bool * list string * list string;
    ExtractConcept : Payload -> bool * string * list string;
    FormatSpecFiles : list string -> list (option string * option (list string)) }.

Variable env : Collaborators.

(** The value [common.GetUniqueID] gives when it is called. *)
Variable uniqueID : Z.

Definition getErrorResponse (message : APIMessage) (err : string) : APIMessage :=
  {| MessageType := ErrorResponse; MessageId := MessageId message; payload := Error err |}.

Definition getErrorMessage (err : string) : APIMessage :=
  let id := uniqueID in
  {| MessageType := ErrorResponse; MessageId := Some id; payload := Error err |}.

Definition projectRootRequestResponse (message : APIMessage) : APIMessage :=
  {| MessageType := GetProjectRootResponse; MessageId := MessageId message;
     payload := ProjectRootResponse (ProjectRoot env) |}.

Definition installationRootRequestResponse (message : APIMessage) : APIMessage :=
  let root := match GetInstallationPrefix env with Ok root => root | Err _ => "" end in
  {| MessageType := GetInstallationRootResponse; MessageId := MessageId message;
     payload := InstallationRootResponse root |}.

Definition getAllStepsRequestResponse (message : APIMessage) : APIMessage :=
  {| MessageType := GetAllStepResponse; MessageId := MessageId message;
     payload := AllStepsResponse (GetAvailableSteps env) |}.

Definition getAllSpecsRequestResponse (message : APIMessage) : APIMessage :=
  {| MessageType := GetAllSpecsResponse; MessageId := MessageId message;
     payload := AllSpecsResponse (GetAvailableSpecs env) |}.

Definition getStepValueRequestResponse (message : APIMessage) : APIMessage :=
  match ExtractStepValueAndParams env (GetStepText message) (GetHasInlineTable message) with
  | Err err => getErrorResponse message err
  | Ok value =>
      {| MessageType := GetStepValueResponse; MessageId := MessageId message;
         payload := StepValueResponse value |}
  end.

Definition getAllConceptsRequestResponse (message : APIMessage) : APIMessage :=
  {| MessageType := GetAllConceptsResponse; MessageId := MessageId message;
     payload := AllConceptsResponse (GetConceptInfos env) |}.

Definition getLanguagePluginLibPath (message : APIMessage) : APIMessage :=
  let language := GetLanguage message in
  match GetInstallDir env language with
  | Err err => getErrorMessage err
  | Ok languageInstallDir =>
      match GetRunnerInfo env language with
      | Err err => getErrorMessage err
      | Ok relativeLibPath =>
          {| MessageType := GetLanguagePluginLibPathResponse;
             MessageId := MessageId message;
             payload := LibPathResponse (pathJoin env languageInstallDir relativeLibPath) |}
      end
  end.

Definition performRefactoring (message : APIMessage) : APIMessage :=
  let '(success, errors, files) :=
    PerformRephraseRefactoring env (GetOldStep message) (GetNewStep message) in
  {| MessageId := MessageId message; MessageType := PerformRefactoringResponse;
     payload := RefactoringResponse success errors files |}.

Definition extractConcept (message : APIMessage) : APIMessage :=
  let '(success, err, filesChanged) := ExtractConcept env (payload message) in
  {| MessageId := MessageId message; MessageType := ExtractConceptResponse;
     payload := ConceptResponse success err filesChanged |}.

(** The loop of [formatSpecs] over the results of the formatter. *)
Definition formatSpecs (message : APIMessage) : APIMessage :=
  let results := FormatSpecFiles env (GetSpecs message) in
  let errors := omap fst results in
  let warnings := flat_map (fun r => default [] (snd r)) results in
  {| MessageId := MessageId message; MessageType := FormatSpecsResponse;
     payload := SpecsResponse errors warnings |}.

Definition createUnsupportedAPIMessageResponse (message : APIMessage) : APIMessage :=
  {| MessageId := MessageId message; MessageType := UnsupportedApiMessageResponse;
     payload := UnsupportedResponse |}.

(** The switch of [MessageBytesReceived] on the type of a decoded
    message. *)
Definition dispatch (apiMessage : APIMessage) : APIMessage :=
  match MessageType apiMessage with
  | GetProjectRootRequest => projectRootRequestResponse apiMessage
  | GetInstallationRootRequest => installationRootRequestResponse apiMessage
  | GetAllStepsRequest => getAllStepsRequestResponse apiMessage
  | GetAllSpecsRequest => getAllSpecsRequestResponse apiMessage
  | GetStepValueRequest => getStepValueRequestResponse apiMessage
  | GetLanguagePluginLibPathRequest => getLanguagePluginLibPath apiMessage
  | GetAllConceptsRequest => getAllConceptsRequestResponse apiMessage
  | PerformRefactoringRequest => performRefactoring apiMessage
  | ExtractConceptRequest => extractConcept apiMessage
  | FormatSpecsRequest => formatSpecs apiMessage
  | _ => createUnsupportedAPIMessageResponse apiMessage
  end.

(** The requests on which [getLanguagePluginLibPath] takes one of its
    two error returns. *)
Definition libPathFails (apiMessage : APIMessage) : bool :=
  match MessageType apiMessage with
  | GetLanguagePluginLibPathRequest =>
      match GetInstallDir env (GetLanguage apiMessage) with
      | Err _ => true
      | Ok _ => match GetRunnerInfo env (GetLanguage apiMessage) with
                | Err _ => true
                | Ok _ => false
                end
      end
  | _ => false
  end.

(** [MessageBytesReceived]: the message that is sent back on the
    connection. *)
Definition MessageBytesReceived (bytesRead : list ascii) : APIMessage :=
  match Unmarshal env bytesRead with
  | Err err => getErrorMessage err
  | Ok apiMessage => dispatch apiMessage
  end.

End Handler.

Arguments NoPayload {_ _ _ _}.
Arguments StepValueRequest {_ _ _ _} _ _.
Arguments LibPathRequest {_ _ _ _} _.
Arguments Error {_ _ _ _} _.
Arguments MessageType {_ _ _ _} _.
Arguments MessageId {_ _ _ _} _.
Arguments payload {_ _ _ _} _.
Arguments Unmarshal {_ _ _ _} _ _.
Arguments ExtractStepValueAndParams {_ _ _ _} _ _ _.
Arguments GetInstallDir {_ _ _ _} _ _.
Arguments GetRunnerInfo {_ _ _ _} _ _.
Arguments GetStepText {_ _ _ _} _.
Arguments GetHasInlineTable {_ _ _ _} _.
Arguments GetLanguage {_ _ _ _} _.
Arguments getErrorResponse {_ _ _ _} _ _.
Arguments getErrorMessage {_ _ _ _} _ _.
Arguments getStepValueRequestResponse {_ _ _ _} _ _.
Arguments getLanguagePluginLibPath {_ _ _ _} _ _ _.
Arguments libPathFails {_ _ _ _} _ _.
Arguments dispatch {_ _ _ _} _ _ _.
Arguments MessageBytesReceived {_ _ _ _} _ _ _.

End Api.

(** ** The parallel execution ([package execution])

    The sources hold the tests of this package, not the functions they
    call. *)

Module Execution.

Local Open Scope string_scope.

Definition newline : string := String (ascii_of_nat 10) "".

(** [streamExecError], as the tests build it. *)
Record streamExecError := { specsSkipped : list string; message : string }.

(** Modelled from the spec: the method [Error] of [streamExecError], which
    is not among the sources.  It writes the heading line, then each
    skipped specification on a line of its own, then the reason followed
    by a full stop. *)
Definition streamExecError_Error (s : streamExecError) : string :=
  let specNames := fold_left (fun names spec => names ++ spec ++ newline) (specsSkipped s) "" in
  "The following specifications could not be executed:" ++ newline
    ++ specNames ++ "Reason : " ++ message s ++ ".".

(** A value of the interface [error]. *)
Inductive error :=
| StreamExecError (s : streamExecError)
| OtherError (text : string).

Definition Error (e : error) : string :=
  match e with
  | StreamExecError s => streamExecError_Error s
  | OtherError text => text
  end.

Section Coordinator.

(** Specifications, the results of one specification and hook failures
    come from other packages. *)
Variables Specification SpecResult ProtoHookFailure : Type.

(** [result.SuiteResult], with the fields of the tests.  A slice that is
    nil and an empty one are both the empty list; the counts and the time
    are integers without bound, as the sums of the specification are. *)
Record SuiteResult :=
  { SpecResults : list SpecResult;
    PreSuite : option ProtoHookFailure;
    PostSuite : option ProtoHookFailure;
    IsFailed : bool;
    SpecsFailedCount : Z;
    ExecutionTime : Z;
    UnhandledErrors : list error;
    SpecsSkippedCount : Z }.

Definition emptySuiteResult : SuiteResult :=
  {| SpecResults := []; PreSuite := None; PostSuite := None; IsFailed := false;
     SpecsFailedCount := 0; ExecutionTime := 0; UnhandledErrors := [];
     SpecsSkippedCount := 0 |}.

(** [specErrs] is a map from specifications to their validation errors;
    what is used of it is its entries. *)
Record parallelExecution :=
  { numberOfExecutionStreams : Z;
    specs : list Specification;
    specErrs : list Specification }.

Definition len {A} (l : list A) : Z := Z.of_nat (length l).

(** Modelled from the spec: [getNumberOfStreams], which is not among
    the sources: the requested number of streams, or the number of
    specifications if that is smaller. *)
Definition getNumberOfStreams (e : parallelExecution) : Z :=
  let nStreams := numberOfExecutionStreams e in
  let size := len (specs e) in
  if (size <? nStreams)%Z then size else nStreams.

(** Modelled from the spec: the merge of one stream's result into the
    aggregate, of [aggregateResults], which is not among the sources. *)
Definition mergeResult (aggregate result : SuiteResult) : SuiteResult :=
  {| SpecResults := (SpecResults aggregate ++ SpecResults result)%list;
     PreSuite := match PreSuite result with
                 | Some hook => Some hook
                 | None => PreSuite aggregate
                 end;
     PostSuite := match PostSuite result with
                  | Some hook => Some hook
                  | None => PostSuite aggregate
                  end;
     IsFailed := if IsFailed result then true else IsFailed aggregate;
     SpecsFailedCount := (SpecsFailedCount aggregate + SpecsFailedCount result)%Z;
     ExecutionTime := (ExecutionTime aggregate + ExecutionTime result)%Z;
     UnhandledErrors := match UnhandledErrors result with
                        | [] => UnhandledErrors aggregate
                        | errs => (UnhandledErrors aggregate ++ errs)%list
                        end;
     SpecsSkippedCount := SpecsSkippedCount aggregate |}.

(** Modelled from the spec: [aggregateResults], which is not among the
    sources: the results of the streams are merged in order, and one
    skipped specification is counted for every entry of the validation
    error map. *)
Definition aggregateResults (e : parallelExecution) (suiteResults : list SuiteResult)
  : SuiteResult :=
  let aggregate := fold_left mergeResult suiteResults emptySuiteResult in
  {| SpecResults := SpecResults aggregate;
     PreSuite := PreSuite aggregate;
     PostSuite := PostSuite aggregate;
     IsFailed := IsFailed aggregate;
     SpecsFailedCount := SpecsFailedCount aggregate;
     ExecutionTime := ExecutionTime aggregate;
     UnhandledErrors := UnhandledErrors aggregate;
     SpecsSkippedCount := len (specErrs e) |}.

(** The runners of the streams: given the number of streams and the
    specifications, the result of every stream. *)
Variable runStreams : Z -> list Specification -> list SuiteResult.

(** Modelled from the spec: the entry point of the coordinator, which is
    not among the sources: with no stream to run the result is the empty
    suite result, otherwise the aggregate of the streams' results. *)
Definition start (e : parallelExecution) : SuiteResult :=
  let effectiveN := getNumberOfStreams e in
  if (effectiveN =? 0)%Z then emptySuiteResult
  else aggregateResults e (runStreams effectiveN (specs e)).

End Coordinator.

Arguments SpecResults {_ _} _.
Arguments PreSuite {_ _} _.
Arguments PostSuite {_ _} _.
Arguments IsFailed {_ _} _.
Arguments SpecsFailedCount {_ _} _.
Arguments ExecutionTime {_ _} _.
Arguments UnhandledErrors {_ _} _.
Arguments SpecsSkippedCount {_ _} _.
Arguments emptySuiteResult {_ _}.
Arguments numberOfExecutionStreams {_} _.
Arguments specs {_} _.
Arguments specErrs {_} _.
Arguments getNumberOfStreams {_} _.
Arguments aggregateResults {_ _ _} _ _.
Arguments mergeResult {_ _} _ _.
Arguments start {_ _ _} _ _.

End Execution.

(** ** The coloured console ([package reporter]) *)

Module Reporter.

Local Open Scope string_scope.

Import GoInt.

Inductive Color := None_ | Cyan | Yellow | Red | Green | Magenta.

(** What reaches the terminal writer. *)
Inductive output :=
| Print (msg : string) (color : Color)
| Reset
| Clear.

Record coloredConsole :=
  { writer : list output;
    headingBuffer : string;
    pluginMessagesBuffer : string;
    indentation : Z }.

Section Console.

(** Constants, the package variable [Verbose] and helpers that other
    files of the package declare. *)
Variables scenarioIndentation stepIndentation errorIndentation : Z.
Variable Verbose : bool.
Variable newline : string.
Variables formatSpec formatScenario : string -> string.
Variable indent : string -> Z -> string.
Variables getFailureSymbol getSuccessSymbol : string.

Definition emit (c : coloredConsole) (o : output) : coloredConsole :=
  {| writer := (writer c ++ [o])%list; headingBuffer := headingBuffer c;
     pluginMessagesBuffer := pluginMessagesBuffer c; indentation := indentation c |}.

Definition displayMessage (c : coloredConsole) (msg : string) (color : Color)
  : coloredConsole := emit c (Print msg color).

Definition resetBuffers (c : coloredConsole) : coloredConsole :=
  {| writer := writer c; headingBuffer := ""; pluginMessagesBuffer := "";
     indentation := indentation c |}.

Definition setIndentation (c : coloredConsole) (i : Z) : coloredConsole :=
  {| writer := writer c; headingBuffer := headingBuffer c;
     pluginMessagesBuffer := pluginMessagesBuffer c; indentation := i |}.

Definition SpecStart (c : coloredConsole) (heading : string) : coloredConsole :=
  let msg := formatSpec heading in
  emit (displayMessage c (msg ++ newline) Cyan) Reset.

Definition SpecEnd (c : coloredConsole) : coloredConsole :=
  emit (displayMessage c newline None_) Reset.

Definition ScenarioStart (c : coloredConsole) (scenarioHeading : string) : coloredConsole :=
  let c := setIndentation c (wrap (indentation c + scenarioIndentation)) in
  let msg := formatScenario scenarioHeading in
  let indentedText := indent (msg ++ String (ascii_of_nat 9) "") (indentation c) in
  let c := displayMessage c indentedText Yellow in
  let c := if Verbose then displayMessage c newline None_ else c in
  emit c Reset.

Definition ScenarioEnd (c : coloredConsole) (failed : bool) : coloredConsole :=
  let c := if negb Verbose then displayMessage c newline None_ else c in
  let c := emit c Reset in
  setIndentation c (wrap (indentation c - scenarioIndentation)).

(** [strings.TrimSpace] on the text of a heading. *)
Definition trim (s : string) : string :=
  string_of_list_ascii (TrimSpace (list_ascii_of_string s)).

Definition StepStart (c : coloredConsole) (stepText : string) : coloredConsole :=
  let c := resetBuffers c in
  let c := emit c Reset in
  let c := setIndentation c (wrap (indentation c + stepIndentation)) in
  if Verbose
  then let c := {| writer := writer c;
                   headingBuffer := headingBuffer c ++ indent (trim stepText) (indentation c);
                   pluginMessagesBuffer := pluginMessagesBuffer c;
                   indentation := indentation c |} in
       displayMessage c (headingBuffer c ++ newline) None_
  else c.

Definition StepEnd (c : coloredConsole) (failed : bool) : coloredConsole :=
  let c :=
    if Verbose
    then let c := emit c Clear in
         let c := if failed
                  then displayMessage c (headingBuffer c ++ String (ascii_of_nat 9) " ...[FAIL]"
                                           ++ String (ascii_of_nat 10) "") Red
                  else displayMessage c (headingBuffer c ++ String (ascii_of_nat 9) " ...[PASS]"
                                           ++ String (ascii_of_nat 10) "") Green in
         displayMessage c (pluginMessagesBuffer c) None_
    else if failed
         then displayMessage c (getFailureSymbol ++ newline) Red
         else displayMessage c getSuccessSymbol Green in
  let c := emit c Reset in
  let c := resetBuffers c in
  setIndentation c (wrap (indentation c - stepIndentation)).

Definition ConceptStart (c : coloredConsole) (conceptHeading : string) : coloredConsole :=
  let c := setIndentation c (wrap (indentation c + stepIndentation)) in
  if Verbose
  then emit (displayMessage c (indent (trim conceptHeading) (indentation c) ++ newline) Magenta)
            Reset
  else c.

Definition ConceptEnd (c : coloredConsole) (failed : bool) : coloredConsole :=
  setIndentation c (wrap (indentation c - stepIndentation)).

Definition DataTable (c : coloredConsole) (table : string) : coloredConsole :=
  emit (displayMessage c (newline ++ table) Yellow) Reset.

(** [Error], with the text already formatted. *)
Definition Error (c : coloredConsole) (msg : string) : coloredConsole :=
  let msg := indent msg (wrap (indentation c + errorIndentation)) ++ newline in
  displayMessage c msg Red.

Definition Write (c : coloredConsole) (text : string) : coloredConsole :=
  let c := {| writer := writer c; headingBuffer := headingBuffer c;
              pluginMessagesBuffer := pluginMessagesBuffer c ++ text;
              indentation := indentation c |} in
  displayMessage c text None_.

(** A call of a method of the reporter. *)
Inductive call :=
| CallSpecStart (heading : string)
| CallSpecEnd
| CallScenarioStart (scenarioHeading : string)
| CallScenarioEnd (failed : bool)
| CallStepStart (stepText : string)
| CallStepEnd (failed : bool)
| CallConceptStart (conceptHeading : string)
| CallConceptEnd (failed : bool)
| CallDataTable (table : string)
| CallError (msg : string)
| CallWrite (text : string).

Definition perform (c : coloredConsole) (k : call) : coloredConsole :=
  match k with
  | CallSpecStart heading => SpecStart c heading
  | CallSpecEnd => SpecEnd c
  | CallScenarioStart heading => ScenarioStart c heading
  | CallScenarioEnd failed => ScenarioEnd c failed
  | CallStepStart text => StepStart c text
  | CallStepEnd failed => StepEnd c failed
  | CallConceptStart heading => ConceptStart c heading
  | CallConceptEnd failed => ConceptEnd c failed
  | CallDataTable table => DataTable c table
  | CallError msg => Error c msg
  | CallWrite text => Write c text
  end.

Definition performAll (c : coloredConsole) (calls : list call) : coloredConsole :=
  fold_left perform calls c.

(** Sequences of calls in which every start has its end, properly
    nested; the other calls may stand anywhere. *)
Inductive balanced : list call -> Prop :=
| balanced_nil : balanced []
| balanced_app a b : balanced a -> balanced b -> balanced (a ++ b)
| balanced_scenario heading failed a :
    balanced a -> balanced (CallScenarioStart heading :: a ++ [CallScenarioEnd failed])
| balanced_step text failed a :
    balanced a -> balanced (CallStepStart text :: a ++ [CallStepEnd failed])
| balanced_concept heading failed a :
    balanced a -> balanced (CallConceptStart heading :: a ++ [CallConceptEnd failed])
| balanced_specStart heading : balanced [CallSpecStart heading]
| balanced_specEnd : balanced [CallSpecEnd]
| balanced_dataTable table : balanced [CallDataTable table]
| balanced_error msg : balanced [CallError msg]
| balanced_write text : balanced [CallWrite text].

End Console.

End Reporter.

(** ** The filter as the specification words it

    Every scenario is judged on its own tags and those of its
    specification, with the expression as it was given. *)

Module FilterSpec.

Import Filter.

Definition effectiveTags (spec : Specification) (scn : Scenario) : list gostring :=
  let specTags := match SpecTags spec with Some values => values | None => [] end in
  match Tags scn with
  | Some values => values ++ specTags
  | None => specTags
  end.

Definition retain (expr : gostring) (spec : Specification) (item : Item) : option bool :=
  match item with
  | ScenarioItem scn => evaluate expr (effectiveTags spec scn)
  | OtherItem _ => Some true
  end.

Fixpoint retained (expr : gostring) (spec : Specification) (items : list Item)
  : option (list Item) :=
  match items with
  | [] => Some []
  | item :: rest =>
      keep ← retain expr spec item;
      rest' ← retained expr spec rest;
      Some (if keep : bool then item :: rest' else rest')
  end.

Fixpoint filterSpecs (expr : gostring) (specs : list Specification)
  : option (list Specification) :=
  match specs with
  | [] => Some []
  | spec :: rest =>
      items ← retained expr spec (Items spec);
      let spec' := {| SpecHeading := SpecHeading spec; SpecTags := SpecTags spec;
                      Items := items |} in
      filtered ← filterSpecs expr rest;
      Some (if (length (Scenarios spec') =? 0)%nat then filtered else spec' :: filtered)
  end.

End FilterSpec.

(** ** Shapes of tag expressions

    Predicates on expressions, for the theorems on the tag filter. *)

Module TagExpressions.

Import Filter.

(** A tag name as one writes it in an expression: not empty, without
    operator, blank or comma, and without white space at its ends. *)
Definition plainTag (t : gostring) : Prop :=
  t <> [] /\
  Forall (fun c => isValidOperator c = false /\ c <> " "%char /\ c <> ","%char) t /\
  TrimSpace t = t.


(** Text in which every bracket has its partner. *)
Inductive balancedText : gostring -> Prop :=
| balancedText_nil : balancedText []
| balancedText_byte c s :
    c <> "("%char -> c <> ")"%char -> balancedText s -> balancedText (c :: s)
| balancedText_group a b :
    balancedText a -> balancedText b -> balancedText ("("%char :: a ++ ")"%char :: b).

(** The text of an expression in which every operand has become a truth
    value: [true] and [false], joined by [&] and [|]. *)
Inductive booleanText : gostring -> Prop :=
| booleanText_value b : booleanText (FormatBool b)
| booleanText_and t u : booleanText t -> booleanText u -> booleanText (t ++ str "&" ++ u)
| booleanText_or t u : booleanText t -> booleanText u -> booleanText (t ++ str "|" ++ u).

End TagExpressions.

(** ** The file events of the gatherer ([package infoGatherer]) *)

Module GathererEvents.

Import InfoGatherer.

(** [fsnotify.Op]: a set of bits, one for each kind of change. *)
Definition Op := N.
Definition Create : Op := 1%N.
Definition Write : Op := 2%N.
Definition Remove : Op := 4%N.
Definition Rename : Op := 8%N.
Definition Chmod : Op := 16%N.

(** [fsnotify.Event]. *)
Record Event := { Name : string; EventOp : Op }.

Section Events.

Variables Specification ConceptStep : Type.

(** [gauge.Concept]: the step that defines the concept and the file it
    was read from. *)
Record Concept := { ConceptStep_ : ConceptStep; FileName : string }.

(** What the parser, the file system and package [util] give. The
    specifications of [getParsedSpecs] are those the parser reads from the
    files with the concept dictionary the gatherer holds; [ParseFile] has no
    result when the concept file does not parse. *)
Variable getStepsFromSpec : Specification -> list StepValue.
Variable getStepsFromConcept : Concept -> list StepValue.
Variable getParsedSpecs : list string -> list Specification.
Variable ParseFile : string -> option (list ConceptStep).
Variables IsSpec IsConcept : string -> bool.
Variable Abs : string -> option string.

Local Abbreviation Gatherer := (SpecInfoGatherer Specification Concept).

Definition onSpecFileModify (s : Gatherer) (file : string) : Gatherer :=
  match getParsedSpecs [file] with
  | parsedSpec :: _ =>
      let s := addToSpecsCache _ _ s file parsedSpec in
      let stepsFromSpec := getStepsFromSpec parsedSpec in
      addToStepsCache s stepsFromSpec
  | [] => s
  end.

Definition onConceptFileModify (s : Gatherer) (file : string) : Gatherer :=
  match ParseFile file with
  | None => s
  | Some concepts =>
      fold_left (fun s concept =>
                   let c := {| ConceptStep_ := concept; FileName := file |} in
                   let s := addToConceptsCache _ _ s file c in
                   addToStepsCache s (getStepsFromConcept c))
                concepts s
  end.

Definition onFileModify (s : Gatherer) (file : string) : Gatherer :=
  if IsSpec file then onSpecFileModify s file
  else if IsConcept file then onConceptFileModify s file
  else s.

(** [onFileAdd] first puts a new directory under watch, and
    [onFileRemove] takes the watch off a path that is neither a spec nor a
    concept file; the watcher holds none of the caches. *)
Definition onFileAdd (s : Gatherer) (file : string) : Gatherer := onFileModify s file.

Definition onFileRemove (s : Gatherer) (file : string) : Gatherer :=
  if IsSpec file then onSpecFileRemove _ _ s file
  else if IsConcept file then onConceptFileRemove _ _ s file
  else s.

Definition onFileRename (s : Gatherer) (file : string) : Gatherer := onFileRemove s file.

(** [handleEvent]: the [switch] compares the whole set of bits with each
    kind. *)
Definition handleEvent (s : Gatherer) (event : Event) : Gatherer :=
  match Abs (Name event) with
  | None => s
  | Some file =>
      if IsSpec file || IsConcept file
      then if (EventOp event =? Create)%N then onFileAdd s file
           else if (EventOp event =? Write)%N then onFileModify s file
           else if (EventOp event =? Rename)%N then onFileRename s file
           else if (EventOp event =? Remove)%N then onFileRemove s file
           else s
      else s
  end.

(** [GetAvailableSpecs]: the specifications of all files. *)
Definition GetAvailableSpecs (s : Gatherer) : list Specification :=
  flat_map snd (map_to_list (specsCache s)).

End Events.

Section Init.

Variables Specification ConceptStep : Type.

(** The field [FileName] of a specification, the spec files
    [util.FindSpecFilesIn] finds in the specs directory of the project, and
    the parser. *)
Variable specFileName : Specification -> string.
Variable FindSpecFilesIn : list string.
Variable getParsedSpecs : list string -> list Specification.

Definition initSpecsCache (s : SpecInfoGatherer Specification (Concept ConceptStep))
  : SpecInfoGatherer Specification (Concept ConceptStep) :=
  let s := {| specsCache := ∅; conceptsCache := conceptsCache s;
              stepsCache := stepsCache s |} in
  let specFiles := FindSpecFilesIn in
  let parsedSpecs := getParsedSpecs specFiles in
  fold_left (fun s spec => addToSpecsCache _ _ s (specFileName spec) spec) parsedSpecs s.

End Init.

End GathererEvents.

(** * Theorems *)

(** ** Facts on Go strings *)

Section StringFacts.

Import GoStrings.

Lemma byte_eqb_eq a b : byte_eqb a b = true <-> a = b.
Proof. apply Ascii.eqb_eq. Qed.

Lemma byte_eqb_neq a b : byte_eqb a b = false <-> a <> b.
Proof. apply Ascii.eqb_neq. Qed.

Lemma HasPrefix_length s p : HasPrefix s p = true -> (length p <= length s)%nat.
Proof.
  revert s; induction p as [|a p IH]; intros [|c s]; simpl; try lia; try discriminate.
  intros H. apply andb_true_iff in H as [_ H]. apply IH in H. lia.
Qed.

Lemma Index_cons c s sep :
  Index (c :: s) sep =
    if HasPrefix (c :: s) sep then 0
    else let i := Index s sep in if i <? 0 then -1 else i + 1.
Proof. reflexivity. Qed.

Lemma Index_lower s sep : -1 <= Index s sep.
Proof.
  induction s as [|c s IH].
  - unfold Index. destruct (HasPrefix [] sep); lia.
  - rewrite Index_cons. destruct (HasPrefix (c :: s) sep); [lia|].
    cbv zeta. destruct (Index s sep <? 0) eqn:E; lia.
Qed.

Lemma Contains_nil sep : Contains [] sep = HasPrefix [] sep.
Proof. unfold Contains, Index. destruct (HasPrefix [] sep); reflexivity. Qed.

Lemma Contains_cons c s sep :
  Contains (c :: s) sep = HasPrefix (c :: s) sep || Contains s sep.
Proof.
  unfold Contains. rewrite Index_cons.
  destruct (HasPrefix (c :: s) sep); [reflexivity|].
  cbv zeta. pose proof (Index_lower s sep).
  destruct (Index s sep <? 0) eqn:E; simpl.
  - apply Z.ltb_lt in E. symmetry. apply Z.leb_gt. lia.
  - apply Z.ltb_ge in E. transitivity true; [|symmetry]; apply Z.leb_le; lia.
Qed.

Lemma replace_from_cons old new c s :
  replace_from old new 0 (c :: s) =
    if HasPrefix (c :: s) old
    then new ++ replace_from old new (length old - 1) s
    else c :: replace_from old new 0 s.
Proof. reflexivity. Qed.

(** Where [old] does not occur nothing is replaced. *)
Lemma replace_from_absent old new s :
  Contains s old = false -> replace_from old new 0 s = s.
Proof.
  induction s as [|c s IH]; [reflexivity|].
  rewrite Contains_cons. intros H. apply orb_false_iff in H as [Hp Hc].
  rewrite replace_from_cons, Hp, IH; auto.
Qed.

Lemma Replace_absent s old new :
  old <> [] -> Contains s old = false -> Replace s old new = s.
Proof.
  destruct old as [|o old]; [congruence|]. intros _. apply replace_from_absent.
Qed.

(** A replacement by a text that is not longer does not lengthen. *)
Lemma replace_from_length old new k s :
  (length new <= length old)%nat ->
  (length (replace_from old new k s) <= length s - k)%nat.
Proof.
  intros Hlen. revert k; induction s as [|c s IH]; intros k; [simpl; lia|].
  destruct k as [|k].
  - rewrite replace_from_cons. destruct (HasPrefix (c :: s) old) eqn:Hp.
    + apply HasPrefix_length in Hp. rewrite length_app.
      specialize (IH (length old - 1)%nat). simpl in *. lia.
    + specialize (IH O). simpl. lia.
  - specialize (IH k). simpl. lia.
Qed.

(** By a shorter text, it shortens as soon as [old] occurs. *)
Lemma replace_from_shorter old new s :
  (length new < length old)%nat -> Contains s old = true ->
  (length (replace_from old new 0 s) < length s)%nat.
Proof.
  intros Hlen. induction s as [|c s IH].
  - rewrite Contains_nil. intros Hp. apply HasPrefix_length in Hp. simpl in Hp. lia.
  - rewrite Contains_cons. intros H. rewrite replace_from_cons.
    destruct (HasPrefix (c :: s) old) eqn:Hp.
    + apply HasPrefix_length in Hp. rewrite length_app.
      pose proof (replace_from_length old new (length old - 1) s ltac:(lia)).
      simpl in *. lia.
    + simpl in H. apply IH in H. simpl. lia.
Qed.

(** The bytes of the result are bytes of the argument or of [new]. *)
Lemma replace_from_Forall (P : ascii -> Prop) old new k s :
  Forall P new -> Forall P s -> Forall P (replace_from old new k s).
Proof.
  intros Hnew. revert k; induction s as [|c s IH]; intros k Hs; [constructor|].
  inversion Hs; subst. destruct k as [|k]; [|simpl; auto].
  - rewrite replace_from_cons. destruct (HasPrefix (c :: s) old).
    + apply Forall_app; auto.
    + constructor; auto.
Qed.

(** Replacing a byte by a text without it removes the byte. *)
Lemma replace_from_byte_absent c new s :
  Forall (fun x => x <> c) new -> Forall (fun x => x <> c) (replace_from [c] new 0 s).
Proof.
  intros Hnew. induction s as [|x s IH]; [constructor|].
  simpl. destruct (byte_eqb c x) eqn:E; simpl.
  - apply Forall_app; auto.
  - constructor; auto. apply byte_eqb_neq in E. congruence.
Qed.

Lemma Contains_byte_absent c s :
  Forall (fun x => x <> c) s -> Contains s [c] = false.
Proof.
  induction 1 as [|x s Hx _ IH]; [reflexivity|].
  rewrite Contains_cons, IH. simpl.
  destruct (byte_eqb c x) eqn:E; [|reflexivity].
  apply byte_eqb_eq in E. congruence.
Qed.

Lemma byte_eqb_refl (a : ascii) : byte_eqb a a = true.
Proof. apply byte_eqb_eq. reflexivity. Qed.

Lemma HasPrefix_cons (x p : ascii) (s q : gostring) :
  HasPrefix (x :: s) (p :: q) = byte_eqb p x && HasPrefix s q.
Proof. reflexivity. Qed.

Lemma HasPrefix_app s old : HasPrefix s old = true -> s = old ++ drop (length old) s.
Proof.
  revert s. induction old as [|o old IH]; intros s; [reflexivity|].
  destruct s as [|c s]; [discriminate|]. cbn [HasPrefix].
  intros H. apply andb_true_iff in H as [Ho H]. apply byte_eqb_eq in Ho. subst.
  cbn. f_equal. apply IH, H.
Qed.

Lemma replace_from_skip old new k s :
  replace_from old new k s = replace_from old new 0 (drop k s).
Proof.
  revert k. induction s as [|c s IH]; intros [|k]; try reflexivity.
  cbn [replace_from drop]. apply IH.
Qed.

End StringFacts.

(** ** The constant expressions: the depth given to the parser is enough *)

Section ConstFacts.

Import GoConst.

(** What the parser returns as the rest is shorter than what it was
    given. *)
Lemma parse_rest (n : nat) :
  (forall prec1 toks x rest,
      parseBinaryExpr n prec1 toks = Some (x, rest) -> (length rest < length toks)%nat) /\
  (forall prec1 x0 toks x rest,
      binaryLoop n prec1 x0 toks = Some (x, rest) -> (length rest <= length toks)%nat) /\
  (forall toks x rest,
      parseUnaryExpr n toks = Some (x, rest) -> (length rest < length toks)%nat).
Proof.
  induction n as [|n (IHb & IHl & IHu)]; [repeat split; discriminate|].
  repeat split.
  - intros prec1 toks x rest. cbn [parseBinaryExpr].
    destruct (parseUnaryExpr n toks) as [[x1 rest1]|] eqn:E; [|discriminate].
    intros H. apply IHu in E. apply IHl in H. lia.
  - intros prec1 x0 toks x rest. cbn [binaryLoop].
    destruct toks as [|t toks]; [intros [= <- <-]; lia|].
    destruct (tokPrec t) as [[op oprec]|]; [|intros [= <- <-]; lia].
    destruct (prec1 <=? oprec)%nat; [|intros [= <- <-]; lia].
    destruct (parseBinaryExpr n (S oprec) toks) as [[y rest1]|] eqn:E; [|discriminate].
    intros H. apply IHb in E. apply IHl in H. cbn [length]. lia.
  - intros toks x rest. cbn [parseUnaryExpr].
    destruct toks as [|t toks]; [discriminate|].
    destruct t; try discriminate.
    + intros [= <- <-]. cbn [length]. lia.
    + destruct (parseUnaryExpr n toks) as [[x1 rest1]|] eqn:E; [|discriminate].
      intros [= <- <-]. apply IHu in E. cbn [length]. lia.
    + destruct (parseUnaryExpr n toks) as [[x1 rest1]|] eqn:E; [|discriminate].
      intros [= <- <-]. apply IHu in E. cbn [length]. lia.
    + destruct (parseBinaryExpr n 1 toks) as [[x1 rest1]|] eqn:E; [|discriminate].
      destruct rest1 as [|[] rest1]; try discriminate.
      intros [= <- <-]. apply IHb in E. cbn [length] in *. lia.
Qed.

(** Beyond twice the number of tokens the depth allowed makes no
    difference. *)
Lemma parse_fuel (n : nat) :
  (forall m prec1 toks,
      (2 * length toks + 2 <= n)%nat -> (2 * length toks + 2 <= m)%nat ->
      parseBinaryExpr n prec1 toks = parseBinaryExpr m prec1 toks) /\
  (forall m prec1 x0 toks,
      (2 * length toks + 1 <= n)%nat -> (2 * length toks + 1 <= m)%nat ->
      binaryLoop n prec1 x0 toks = binaryLoop m prec1 x0 toks) /\
  (forall m toks,
      (2 * length toks + 1 <= n)%nat -> (2 * length toks + 1 <= m)%nat ->
      parseUnaryExpr n toks = parseUnaryExpr m toks).
Proof.
  induction n as [|n (IHb & IHl & IHu)]; [repeat split; intros; lia|].
  repeat split.
  - intros [|m] prec1 toks Hn Hm; [lia|]. cbn [parseBinaryExpr].
    rewrite (IHu m toks) by lia.
    destruct (parseUnaryExpr m toks) as [[x rest]|] eqn:E; [|reflexivity].
    apply (proj2 (proj2 (parse_rest m))) in E. apply IHl; lia.
  - intros [|m] prec1 x0 toks Hn Hm; [lia|]. cbn [binaryLoop].
    destruct toks as [|t toks]; [reflexivity|].
    destruct (tokPrec t) as [[op oprec]|]; [|reflexivity].
    destruct (prec1 <=? oprec)%nat; [|reflexivity]. cbn [length] in *.
    rewrite (IHb m (S oprec) toks) by lia.
    destruct (parseBinaryExpr m (S oprec) toks) as [[y rest]|] eqn:E; [|reflexivity].
    apply (proj1 (parse_rest m)) in E. apply IHl; lia.
  - intros [|m] toks Hn Hm; [lia|]. cbn [parseUnaryExpr].
    destruct toks as [|t toks]; [reflexivity|]. cbn [length] in *.
    destruct t; try reflexivity.
    + rewrite (IHu m toks) by lia. reflexivity.
    + rewrite (IHu m toks) by lia. reflexivity.
    + rewrite (IHb m 1%nat toks) by lia. reflexivity.
Qed.

Lemma parseBinaryExpr_mono (n : nat) :
  (forall m prec1 toks r, (n <= m)%nat ->
      parseBinaryExpr n prec1 toks = Some r -> parseBinaryExpr m prec1 toks = Some r) /\
  (forall m prec1 x0 toks r, (n <= m)%nat ->
      binaryLoop n prec1 x0 toks = Some r -> binaryLoop m prec1 x0 toks = Some r) /\
  (forall m toks r, (n <= m)%nat ->
      parseUnaryExpr n toks = Some r -> parseUnaryExpr m toks = Some r).
Proof.
  induction n as [|n (IHb & IHl & IHu)]; [repeat split; discriminate|].
  repeat split.
  - intros [|m] prec1 toks r Hm; [lia|]. cbn [parseBinaryExpr].
    destruct (parseUnaryExpr n toks) as [[x rest]|] eqn:E; [|discriminate].
    rewrite (IHu m toks _ ltac:(lia) E). apply IHl. lia.
  - intros [|m] prec1 x0 toks r Hm; [lia|]. cbn [binaryLoop].
    destruct toks as [|t toks]; [auto|].
    destruct (tokPrec t) as [[op oprec]|]; [|auto].
    destruct (prec1 <=? oprec)%nat; [|auto].
    destruct (parseBinaryExpr n (S oprec) toks) as [[y rest]|] eqn:E; [|discriminate].
    rewrite (IHb m _ toks _ ltac:(lia) E). apply IHl. lia.
  - intros [|m] toks r Hm; [lia|]. cbn [parseUnaryExpr].
    destruct toks as [|t toks]; [auto|].
    destruct t; auto.
    + destruct (parseUnaryExpr n toks) as [[x rest]|] eqn:E; [|discriminate].
      rewrite (IHu m toks _ ltac:(lia) E). auto.
    + destruct (parseUnaryExpr n toks) as [[x rest]|] eqn:E; [|discriminate].
      rewrite (IHu m toks _ ltac:(lia) E). auto.
    + destruct (parseBinaryExpr n 1 toks) as [[x rest]|] eqn:E; [|discriminate].
      rewrite (IHb m _ toks _ ltac:(lia) E). auto.
Qed.

(** Whatever the depth allowed, an expression that [parseBinaryExpr]
    reads is the one [ParseExpr] reads. *)
Lemma ParseExpr_complete (n : nat) (toks : list token) (r : expr * list token) :
  parseBinaryExpr n 1 toks = Some r ->
  parseBinaryExpr (4 * length toks + 4) 1 toks = Some r.
Proof.
  intros H.
  rewrite (proj1 (parse_fuel _) (Nat.max n (4 * length toks + 4))) by lia.
  apply (proj1 (parseBinaryExpr_mono n)); [lia | exact H].
Qed.

End ConstFacts.

(** ** The tag filter *)

Section FilterFacts.

Import GoStrings Filter.

Lemma normalise_unfold e :
  normalise e =
    replace_from (str "||") (str "|") 0
      (replace_from (str "&&") (str "&") 0
         (replace_from (str ",") (str "&") 0
            (replace_from (str " ") (str "") 0 e))).
Proof. reflexivity. Qed.

(** A normalised expression has neither blanks nor commas. *)
Lemma normalise_bytes e :
  Forall (fun x => x <> " "%char) (normalise e) /\
  Forall (fun x => x <> ","%char) (normalise e).
Proof.
  rewrite normalise_unfold. split.
  - do 3 (apply replace_from_Forall; [repeat constructor; discriminate|]).
    apply (replace_from_byte_absent " "%char). constructor.
  - do 2 (apply replace_from_Forall; [repeat constructor; discriminate|]).
    apply (replace_from_byte_absent ","%char). repeat constructor; discriminate.
Qed.

(** On a normalised expression the first two replacements do nothing. *)
Lemma normalise_normalised e :
  normalise (normalise e) =
    replace_from (str "||") (str "|") 0 (replace_from (str "&&") (str "&") 0 (normalise e)).
Proof.
  destruct (normalise_bytes e) as [Hblank Hcomma].
  rewrite (normalise_unfold (normalise e)).
  rewrite (replace_from_absent (str " ")) by (apply Contains_byte_absent, Hblank).
  rewrite (replace_from_absent (str ",")) by (apply Contains_byte_absent, Hcomma).
  reflexivity.
Qed.

(** A normal form without doubled operator is stable. *)
Lemma normalise_without_pairs e :
  Contains (normalise e) (str "&&") = false -> Contains (normalise e) (str "||") = false ->
  normalise (normalise e) = normalise e.
Proof.
  intros Hand Hor. rewrite normalise_normalised.
  rewrite (replace_from_absent (str "&&")) by exact Hand.
  apply replace_from_absent, Hor.
Qed.

(** C2 as stated fails: three ampersands become two, and two become
    one. *)
Lemma normalise_not_idempotent :
  normalise (normalise (str "&&&")) <> normalise (str "&&&").
Proof. vm_compute. discriminate. Qed.

(** C2, amended: normalising twice gives the same as normalising once
    exactly for the expressions whose normal form holds neither [&&] nor
    [||]. *)
Theorem normalise_idempotent_iff (e : gostring) :
  normalise (normalise e) = normalise e <->
  Contains (normalise e) (str "&&") = false /\ Contains (normalise e) (str "||") = false.
Proof.
  rewrite normalise_normalised. set (n := normalise e). split.
  - intros H.
    assert (Hlen : forall s, (length (replace_from (str "||") (str "|") 0 s) <= length s)%nat).
    { intros s. pose proof (replace_from_length (str "||") (str "|") 0 s). simpl in *. lia. }
    destruct (Contains n (str "&&")) eqn:Hand.
    + exfalso. apply (replace_from_shorter (str "&&") (str "&")) in Hand; [|simpl; lia].
      specialize (Hlen (replace_from (str "&&") (str "&") 0 n)).
      rewrite H in Hlen. lia.
    + rewrite (replace_from_absent (str "&&")) in H by exact Hand.
      split; [reflexivity|].
      destruct (Contains n (str "||")) eqn:Hor; [|reflexivity].
      exfalso. apply (replace_from_shorter (str "||") (str "|")) in Hor; [|simpl; lia].
      rewrite H in Hor. lia.
  - intros [Hand Hor]. subst n. rewrite <- normalise_normalised.
    apply normalise_without_pairs; assumption.
Qed.

End FilterFacts.

Section Collapse.

Variable c : ascii.

Local Abbreviation collapse := (replace_from [c; c] [c] 0).

Lemma collapse_pair (s : gostring) : collapse (c :: c :: s) = c :: collapse s.
Proof. rewrite replace_from_cons. cbn [HasPrefix]. rewrite byte_eqb_refl. reflexivity. Qed.

Lemma collapse_single (x : ascii) (s : gostring) :
  HasPrefix (x :: s) [c; c] = false -> collapse (x :: s) = x :: collapse s.
Proof. intros H. rewrite replace_from_cons, H. reflexivity. Qed.

Lemma HasPrefix_pair (x : ascii) (s : gostring) :
  HasPrefix (x :: s) [c; c] = true -> exists s', x = c /\ s = c :: s'.
Proof.
  cbn [HasPrefix]. intros H. apply andb_true_iff in H as [Hx H].
  destruct s as [|y s]; [discriminate|]. apply andb_true_iff in H as [Hy _].
  apply byte_eqb_eq in Hx, Hy. subst. eauto.
Qed.

(** Without three [c] in a row in the argument, no two are left in a row. *)
Lemma collapse_no_pair (s : gostring) :
  Contains s [c; c; c] = false ->
  Contains (collapse s) [c; c] = false /\
  (HasPrefix (collapse s) [c] = true -> HasPrefix s [c] = true).
Proof.
  remember (length s) as n eqn:Hn. revert s Hn.
  induction n as [n IH] using lt_wf_ind. intros [|x s] Hn Hs; [split; [reflexivity|discriminate]|].
  destruct (HasPrefix (x :: s) [c; c]) eqn:Hp.
  - apply HasPrefix_pair in Hp as (s' & -> & ->).
    rewrite collapse_pair. rewrite !Contains_cons in Hs.
    apply orb_false_iff in Hs as [Hs3 Hs]. apply orb_false_iff in Hs as [_ Hs].
    destruct (IH (length s') ltac:(subst n; cbn; lia) s' eq_refl Hs) as [IH1 IH2].
    assert (Hhead : HasPrefix (collapse s') [c] = false).
    { destruct (HasPrefix (collapse s') [c]) eqn:E; [|reflexivity].
      specialize (IH2 eq_refl). rewrite !HasPrefix_cons, !byte_eqb_refl, IH2 in Hs3.
      discriminate. }
    split.
    + rewrite Contains_cons, IH1, orb_false_r, HasPrefix_cons, byte_eqb_refl. exact Hhead.
    + intros _. rewrite HasPrefix_cons, byte_eqb_refl. reflexivity.
  - rewrite (collapse_single _ _ Hp). rewrite Contains_cons in Hs.
    apply orb_false_iff in Hs as [_ Hs].
    destruct (IH (length s) ltac:(subst n; cbn; lia) s eq_refl Hs) as [IH1 IH2].
    split.
    + rewrite Contains_cons, IH1, orb_false_r.
      destruct (HasPrefix (x :: collapse s) [c; c]) eqn:E; [|reflexivity].
      apply HasPrefix_pair in E as (r & -> & E). rewrite E in IH2.
      specialize (IH2 ltac:(rewrite HasPrefix_cons, byte_eqb_refl; reflexivity)).
      rewrite HasPrefix_cons, byte_eqb_refl, IH2 in Hp. discriminate.
    + rewrite !HasPrefix_cons. auto.
Qed.

Variable d : ascii.
Hypothesis c_d : c <> d.

(** The bytes [d] that the result starts with are those the argument
    starts with. *)
Lemma collapse_HasPrefix_other (k : nat) (s : gostring) :
  HasPrefix (collapse s) (repeat d (S k)) = HasPrefix s (repeat d (S k)).
Proof.
  revert s. induction k as [|k IH]; intros [|x s]; try reflexivity.
  - destruct (HasPrefix (x :: s) [c; c]) eqn:Hp.
    + apply HasPrefix_pair in Hp as (s' & -> & ->). rewrite collapse_pair.
      cbn [repeat HasPrefix].
      replace (byte_eqb d c) with false; [reflexivity|].
      symmetry. apply byte_eqb_neq. congruence.
    + rewrite (collapse_single _ _ Hp). reflexivity.
  - destruct (HasPrefix (x :: s) [c; c]) eqn:Hp.
    + apply HasPrefix_pair in Hp as (s' & -> & ->). rewrite collapse_pair.
      cbn [repeat HasPrefix].
      replace (byte_eqb d c) with false; [reflexivity|].
      symmetry. apply byte_eqb_neq. congruence.
    + rewrite (collapse_single _ _ Hp).
      change (repeat d (S (S k))) with (d :: repeat d (S k)).
      cbn [HasPrefix]. rewrite IH. reflexivity.
Qed.

(** A run of [d] that does not occur in the argument does not occur in
    the result. *)
Lemma collapse_other (k : nat) (s : gostring) :
  Contains s (repeat d (S k)) = false -> Contains (collapse s) (repeat d (S k)) = false.
Proof.
  remember (length s) as n eqn:Hn. revert s Hn.
  induction n as [n IH] using lt_wf_ind. intros [|x s] Hn Hs; [reflexivity|].
  rewrite Contains_cons in Hs. apply orb_false_iff in Hs as [Hhead Hs].
  destruct (HasPrefix (x :: s) [c; c]) eqn:Hp.
  - apply HasPrefix_pair in Hp as (s' & -> & ->). rewrite collapse_pair.
    rewrite Contains_cons in Hs. apply orb_false_iff in Hs as [_ Hs].
    rewrite Contains_cons, (IH (length s') ltac:(subst n; cbn; lia) s' eq_refl Hs), orb_false_r.
    cbn [repeat HasPrefix]. replace (byte_eqb d c) with false; [reflexivity|].
    symmetry. apply byte_eqb_neq. congruence.
  - rewrite (collapse_single _ _ Hp).
    rewrite Contains_cons, (IH (length s) ltac:(subst n; cbn; lia) s eq_refl Hs), orb_false_r.
    rewrite <- Hhead. destruct k as [|k]; [reflexivity|].
    change (repeat d (S (S k))) with (d :: repeat d (S k)).
    cbn [HasPrefix]. rewrite collapse_HasPrefix_other. reflexivity.
Qed.

End Collapse.

(** An expression in which, blanks taken away and commas read as [&], no
    operator stands three times in a row has a stable normal form. *)
Lemma normalise_stable (e : gostring) :
  let e' := Replace (Replace e (str " ") (str "")) (str ",") (str "&") in
  Contains e' (str "&&&") = false -> Contains e' (str "|||") = false ->
  Filter.normalise (Filter.normalise e) = Filter.normalise e.
Proof.
  cbn zeta. intros Hand Hor. apply normalise_without_pairs; rewrite normalise_unfold;
    set (e' := replace_from (str ",") (str "&") 0 (replace_from (str " ") (str "") 0 e)) in *.
  - apply (collapse_other "|"%char "&"%char ltac:(discriminate) 1).
    apply (collapse_no_pair "&"%char), Hand.
  - apply (collapse_no_pair "|"%char).
    apply (collapse_other "&"%char "|"%char ltac:(discriminate) 2), Hor.
Qed.


(** ** The loops of the negation: they end within the turns given *)

Section Negation.

Import GoStrings Filter.

(** The text between the brackets is shorter than the expression, so the
    depth given to [evaluateBrackets_rec] is enough. *)
Lemma resolveBracketExpression_shorter (e inner : gostring) :
  resolveBracketExpression e = Some inner -> (length inner < length e)%nat.
Proof.
  destruct e as [|c e]; [discriminate|].
  unfold resolveBracketExpression.
  set (open := Z.to_nat (Index (c :: e) (str "!(") + 1)).
  destruct (bracketScan 0 open (drop open (c :: e))) as [i|]; [|discriminate].
  cbn [mbind option_bind]. destruct (S open <=? i)%nat; [|discriminate].
  intros [= <-]. unfold slice. rewrite length_take, length_drop. cbn [length]. lia.
Qed.

Lemma evaluateBrackets_rec_fuel (n m : nat) (e : gostring) :
  (length e <= n)%nat -> (length e <= m)%nat ->
  evaluateBrackets_rec n e = evaluateBrackets_rec m e.
Proof.
  revert m e. induction n as [|n IH]; intros m e Hn Hm.
  - destruct e; [|cbn in Hn; lia]. destruct m; reflexivity.
  - destruct m as [|m].
    + destruct e; [|cbn in Hm; lia]. reflexivity.
    + cbn [evaluateBrackets_rec]. destruct (Contains e (str "!(")); [|reflexivity].
      destruct (resolveBracketExpression e) as [inner|] eqn:E; [|reflexivity].
      apply resolveBracketExpression_shorter in E. cbn [mbind option_bind].
      rewrite (IH m inner) by lia. reflexivity.
Qed.

Lemma openBrackets_app a b : openBrackets (a ++ b) = (openBrackets a + openBrackets b)%nat.
Proof. unfold openBrackets. rewrite List.filter_app, length_app. reflexivity. Qed.

(** Replacing a text by one with fewer opening brackets changes nothing
    or lowers their number. *)
Lemma replace_from_open old new :
  (openBrackets new < openBrackets old)%nat ->
  forall s, replace_from old new 0 s = s \/
            (openBrackets (replace_from old new 0 s) < openBrackets s)%nat.
Proof.
  intros Hlt s. remember (length s) as n eqn:Hn. revert s Hn.
  induction n as [n IH] using lt_wf_ind. intros [|c s] Hn; [left; reflexivity|].
  rewrite replace_from_cons. destruct (HasPrefix (c :: s) old) eqn:Hp.
  - right. destruct old as [|o old]; [cbn in Hlt; lia|].
    pose proof (HasPrefix_app _ _ Hp) as Hs.
    set (rest := drop (length (o :: old)) (c :: s)) in Hs.
    assert (Hopen : openBrackets (c :: s) = (openBrackets (o :: old) + openBrackets rest)%nat)
      by (rewrite <- openBrackets_app; f_equal; exact Hs).
    assert (Hrest : (length rest < n)%nat)
      by (subst n rest; rewrite length_drop; cbn [length]; lia).
    rewrite replace_from_skip, Hopen, openBrackets_app.
    change (drop (length (o :: old) - 1) s) with (drop (length old - 0) s).
    rewrite Nat.sub_0_r. change (drop (length old) s) with rest.
    destruct (IH _ Hrest rest eq_refl) as [-> | H]; lia.
  - destruct (IH (length s) ltac:(subst n; cbn; lia) s eq_refl) as [-> | H];
      [left; reflexivity | right].
    change (c :: ?x) with ([c] ++ x). rewrite !openBrackets_app. lia.
Qed.

Lemma Contains_open (e : gostring) :
  Contains e (str "!(") = true -> (1 <= openBrackets e)%nat.
Proof.
  induction e as [|c e IH]; [discriminate|].
  rewrite Contains_cons. intros H. apply orb_true_iff in H as [H|H].
  - apply HasPrefix_app in H. rewrite H.
    change (str "!(" ++ ?x) with ("!"%char :: "("%char :: x).
    unfold openBrackets. cbn. lia.
  - apply IH in H. change (c :: e) with ([c] ++ e). rewrite openBrackets_app. lia.
Qed.

Lemma openBrackets_FormatBool (b : bool) : openBrackets (FormatBool b) = O.
Proof. destruct b; reflexivity. Qed.

(** A turn of [evaluateBrackets] leaves the expression as it is or takes
    an opening bracket away. *)
Lemma evaluateBrackets_rec_open (n : nat) (e r : gostring) :
  evaluateBrackets_rec n e = Some r ->
  (openBrackets r <= openBrackets e)%nat /\
  (Contains e (str "!(") = true -> r = e \/ (openBrackets r < openBrackets e)%nat).
Proof.
  revert e r. induction n as [|n IH]; intros e r; cbn [evaluateBrackets_rec].
  - destruct (Contains e (str "!(")); [discriminate|].
    intros [= <-]. split; [|discriminate].
    rewrite openBrackets_FormatBool. lia.
  - destruct (Contains e (str "!(")).
    + destruct (resolveBracketExpression e) as [inner|]; [|discriminate].
      cbn [mbind option_bind].
      destruct (evaluateBrackets_rec n inner) as [value|] eqn:E; [|discriminate].
      cbn [mbind option_bind]. intros [= <-].
      apply IH in E as [Hle _].
      set (old := "!"%char :: "("%char :: inner ++ str ")").
      assert (Hlt : (openBrackets value < openBrackets old)%nat).
      { change old with (str "!(" ++ inner ++ str ")").
        rewrite !openBrackets_app. change (openBrackets (str "!(")) with 1%nat. lia. }
      destruct (replace_from_open _ _ Hlt e) as [-> | Hr]; split; auto; lia.
    + intros [= <-]. split; [|discriminate]. rewrite openBrackets_FormatBool. lia.
Qed.

Lemma negationLoop_fixed (e : gostring) :
  Contains e (str "!(") = true -> evaluateBrackets e = Some e ->
  forall n, negationLoop n e = None.
Proof.
  intros Hc He n. induction n as [|n IH]; cbn [negationLoop]; rewrite Hc; [reflexivity|].
  rewrite He. exact IH.
Qed.

(** Beyond the number of opening brackets the turns allowed make no
    difference: a loop that has not ended by then never ends. *)
Lemma negationLoop_fuel (n m : nat) (e : gostring) :
  (openBrackets e <= n)%nat -> (openBrackets e <= m)%nat ->
  negationLoop n e = negationLoop m e.
Proof.
  revert m e. induction n as [|n IH]; intros m e Hn Hm.
  - destruct (Contains e (str "!(")) eqn:Hc.
    + apply Contains_open in Hc. lia.
    + destruct m; cbn [negationLoop]; rewrite Hc; reflexivity.
  - destruct (Contains e (str "!(")) eqn:Hc.
    + destruct m as [|m]; [apply Contains_open in Hc; lia|].
      cbn [negationLoop]. rewrite Hc.
      destruct (evaluateBrackets e) as [e'|] eqn:E; [|reflexivity].
      cbn [mbind option_bind].
      pose proof (evaluateBrackets_rec_open _ _ _ E) as [_ Hstep].
      destruct (Hstep Hc) as [-> | Hlt].
      * rewrite !negationLoop_fixed by assumption. reflexivity.
      * apply IH; lia.
    + destruct m; cbn [negationLoop]; rewrite Hc; reflexivity.
Qed.

Lemma openBrackets_length (e : gostring) : (openBrackets e <= length e)%nat.
Proof. apply List.filter_length_le. Qed.

Lemma handleNegation_fuel (e : gostring) (n : nat) :
  let e1 := Replace (Replace e (str "!true") (str "false")) (str "!false") (str "true") in
  (length e1 <= n)%nat -> negationLoop n e1 = handleNegation e.
Proof.
  cbn zeta. intros Hn. unfold handleNegation.
  apply negationLoop_fuel; [|apply openBrackets_length].
  etransitivity; [apply openBrackets_length | exact Hn].
Qed.

Lemma evaluateBrackets_rec_mono (n m : nat) (e r : gostring) :
  (n <= m)%nat -> evaluateBrackets_rec n e = Some r -> evaluateBrackets_rec m e = Some r.
Proof.
  revert m e r. induction n as [|n IH]; intros m e r Hm.
  - cbn [evaluateBrackets_rec]. destruct (Contains e (str "!(")) eqn:Hc; [discriminate|].
    intros H. destruct m; cbn [evaluateBrackets_rec]; rewrite Hc; exact H.
  - destruct m as [|m]; [lia|]. cbn [evaluateBrackets_rec].
    destruct (Contains e (str "!(")); [|auto].
    destruct (resolveBracketExpression e) as [inner|]; [|discriminate].
    cbn [mbind option_bind].
    destruct (evaluateBrackets_rec n inner) as [value|] eqn:E; [|discriminate].
    rewrite (IH m inner value) by (exact E || lia). auto.
Qed.

(** Whatever the depth allowed, a result of [evaluateBrackets_rec] is the
    result of [evaluateBrackets]. *)
Lemma evaluateBrackets_complete (n : nat) (e r : gostring) :
  evaluateBrackets_rec n e = Some r -> evaluateBrackets e = Some r.
Proof.
  intros H. unfold evaluateBrackets.
  rewrite (evaluateBrackets_rec_fuel (length e) (Nat.max n (length e))) by lia.
  apply (evaluateBrackets_rec_mono n); [lia | exact H].
Qed.

Lemma negationLoop_mono (n m : nat) (e r : gostring) :
  (n <= m)%nat -> negationLoop n e = Some r -> negationLoop m e = Some r.
Proof.
  revert m e r. induction n as [|n IH]; intros m e r Hm.
  - cbn [negationLoop]. destruct (Contains e (str "!(")) eqn:Hc; [discriminate|].
    intros H. destruct m; cbn [negationLoop]; rewrite Hc; exact H.
  - destruct m as [|m]; [lia|]. cbn [negationLoop].
    destruct (Contains e (str "!(")); [|auto].
    destruct (evaluateBrackets e) as [e'|]; [|discriminate].
    cbn [mbind option_bind]. apply IH. lia.
Qed.

(** If the loop of [handleNegation] ends after some number of turns,
    [handleNegation] returns what it leaves. *)
Lemma handleNegation_complete (e r : gostring) (n : nat) :
  negationLoop n (Replace (Replace e (str "!true") (str "false")) (str "!false") (str "true"))
  = Some r ->
  handleNegation e = Some r.
Proof.
  intros H. set (e1 := Replace _ _ _) in *.
  rewrite <- (handleNegation_fuel e (Nat.max n (length e1))) by (cbn zeta; fold e1; lia).
  apply (negationLoop_mono n); [lia | exact H].
Qed.

End Negation.

Section EmptyExpression.

Import GoStrings Filter.

Local Abbreviation emptyFilter specTags := (newScenarioFilterBasedOnTags specTags (str "")).

Lemma filterTags_empty specTags stags :
  filterTags (emptyFilter specTags) stags = Some (false, emptyFilter specTags).
Proof. reflexivity. Qed.

Lemma Filter_empty specTags item :
  Filter (emptyFilter specTags) item = Some (isScenario item, emptyFilter specTags).
Proof.
  destruct item as [scn|text]; [|reflexivity].
  unfold Filter, ScenarioFilterBasedOnTags_Filter. rewrite filterTags_empty. reflexivity.
Qed.

Lemma filterItems_empty specTags items :
  filterItems (emptyFilter specTags) items
  = Some (List.filter (fun item => negb (isScenario item)) items, emptyFilter specTags).
Proof.
  induction items as [|item items IH]; [reflexivity|].
  cbn [filterItems]. rewrite Filter_empty. cbn. rewrite IH. cbn.
  destruct (isScenario item); reflexivity.
Qed.

Lemma Scenarios_without_scenarios heading tags items :
  Scenarios {| SpecHeading := heading; SpecTags := tags;
               Items := List.filter (fun item => negb (isScenario item)) items |} = [].
Proof.
  unfold Scenarios. cbn [Items].
  induction items as [|[scn|text] items IH]; cbn; auto.
Qed.

(** The claim of C1 fails on a scenario tagged [smoke]: the empty
    expression does not evaluate to true, and the filter answers that the
    scenario is to be removed. *)
Lemma empty_expression_rejects_smoke :
  evaluate (str "") [str "smoke"] <> Some true /\
  fst <$> Filter (newScenarioFilterBasedOnTags [] (str ""))
                 (ScenarioItem {| Heading := str "login"; Tags := Some [str "smoke"] |})
  = Some true.
Proof. split; [vm_compute; discriminate | vm_compute; reflexivity]. Qed.

(** C1, amended: with the empty expression the evaluation fails, its
    value is false whatever the tags, [Filter] answers "remove" for every
    scenario and "keep" for every other item, and [filterSpecsByTags]
    returns no specification. *)
Theorem empty_expression_removes_scenarios
    (specTags stags : list gostring) (item : Item) (specs : list Specification) :
  formatAndEvaluateExpression (emptyFilter specTags) (makeTagsMap stags) isTagPresent
    = Some (false, Some InvalidExpression) /\
  evaluate (str "") stags = Some false /\
  Filter (emptyFilter specTags) item = Some (isScenario item, emptyFilter specTags) /\
  filterSpecsByTags specs (str "") = Some [].
Proof.
  split; [reflexivity|]. split; [reflexivity|]. split; [apply Filter_empty|].
  induction specs as [|spec specs IH]; [reflexivity|].
  cbn [filterSpecsByTags]. unfold Specification_Filter.
  rewrite filterItems_empty. simpl mbind. rewrite IH. simpl mbind.
  rewrite Scenarios_without_scenarios. reflexivity.
Qed.

End EmptyExpression.

Section Evaluation.

Import GoStrings Filter.

(** The value depends on the tags through the answers of the predicate
    on the operands only. *)
Lemma formatAndEvaluateExpression_ext (filter : ScenarioFilterBasedOnTags)
    (tags tags' : tagsMap)
    (q q' : tagsMap -> gostring -> bool) :
  Forall (fun tag => q tags (TrimSpace tag) = q' tags' (TrimSpace tag))
         (sortByLength (snd (getOperatorsAndOperands filter))) ->
  formatAndEvaluateExpression filter tags q = formatAndEvaluateExpression filter tags' q'.
Proof.
  unfold formatAndEvaluateExpression.
  generalize (sortByLength (snd (getOperatorsAndOperands filter))) as operands.
  intros operands H. f_equal. f_equal.
  generalize (tagExpression filter) as exp.
  induction H as [|tag operands Htag _ IH]; intros exp; [reflexivity|].
  cbn [fold_left]. rewrite Htag. apply IH.
Qed.

Lemma evaluate_unfold (expr : gostring) (presentTags : list gostring) :
  evaluate expr presentTags
  = fst <$> formatAndEvaluateExpression
              (replaceSpecialChar (newScenarioFilterBasedOnTags [] expr))
              (makeTagsMap presentTags) isTagPresent.
Proof.
  unfold evaluate, filterTags.
  destruct (formatAndEvaluateExpression _ _ _) as [[value err]|]; reflexivity.
Qed.

(** The value [filterTags] computes does not depend on the tags of the
    specification the filter holds. *)
Lemma filterTags_value (specTags : list gostring) (expr : gostring) (stags : list gostring) :
  fst <$> filterTags (newScenarioFilterBasedOnTags specTags expr) stags = evaluate expr stags.
Proof.
  unfold evaluate, filterTags.
  change (formatAndEvaluateExpression
            (replaceSpecialChar (newScenarioFilterBasedOnTags specTags expr)))
    with (formatAndEvaluateExpression
            (replaceSpecialChar (newScenarioFilterBasedOnTags [] expr))).
  destruct (formatAndEvaluateExpression _ _ _) as [[value err]|]; reflexivity.
Qed.

(** A predicate that knows the tags [a] and [b] only. *)
Local Abbreviation knows x y :=
  (fun (_ : tagsMap) (tag : gostring) =>
     if eqb tag (str "a") then x : bool else if eqb tag (str "b") then y : bool else false).

(** The law for the tags [a] and [b] under these very names: for every
    list of tags, the negated group [!(a & b)] and the disjunction of the
    negated tags [!a | !b] have the same value, which is the negation of
    "both [a] and [b] are present". *)
Lemma de_morgan (T : list gostring) :
  evaluate (str "!(a & b)") T = evaluate (str "!a | !b") T /\
  evaluate (str "!(a & b)") T
  = Some (negb (isTagPresent (makeTagsMap T) (str "a")
                && isTagPresent (makeTagsMap T) (str "b"))).
Proof.
  rewrite !evaluate_unfold. generalize (makeTagsMap T) as m. intros m.
  rewrite (formatAndEvaluateExpression_ext _ m ∅ isTagPresent
             (knows (isTagPresent m (str "a")) (isTagPresent m (str "b"))))
    by (vm_compute (sortByLength _); repeat constructor).
  rewrite (formatAndEvaluateExpression_ext
             (replaceSpecialChar (newScenarioFilterBasedOnTags [] (str "!a | !b")))
             m ∅ isTagPresent
             (knows (isTagPresent m (str "a")) (isTagPresent m (str "b"))))
    by (vm_compute (sortByLength _); repeat constructor).
  destruct (isTagPresent m (str "a")), (isTagPresent m (str "b"));
    split; vm_compute; reflexivity.
Qed.

End Evaluation.

Section FilterSpecs.

Import GoStrings Filter.

(** With the expression of the filter and the one given to [evaluate]
    having the same normal form, [filterTags] computes the value of
    [evaluate] and leaves the normal form in the filter. *)
Lemma filterTags_normal (tagValues : list gostring) (x expr : gostring)
    (presentTags : list gostring) :
  normalise x = normalise expr ->
  filterTags (newScenarioFilterBasedOnTags tagValues x) presentTags
  = (fun value => (value, newScenarioFilterBasedOnTags tagValues (normalise expr)))
      <$> evaluate expr presentTags.
Proof.
  intros Hx. unfold evaluate, filterTags, replaceSpecialChar, newScenarioFilterBasedOnTags.
  cbn [tagExpression specTags]. rewrite Hx.
  change (formatAndEvaluateExpression {| specTags := tagValues; tagExpression := normalise expr |})
    with (formatAndEvaluateExpression {| specTags := []; tagExpression := normalise expr |}).
  destruct (formatAndEvaluateExpression _ _ _) as [[value err]|]; reflexivity.
Qed.

Lemma filterItems_stable (expr : gostring) (spec : Specification) (items : list Item) :
  normalise (normalise expr) = normalise expr ->
  forall x, normalise x = normalise expr ->
  fst <$> filterItems
            (newScenarioFilterBasedOnTags
               (match SpecTags spec with Some values => values | None => [] end) x) items
  = FilterSpec.retained expr spec items.
Proof.
  intros Hstable. induction items as [|item items IH]; intros x Hx; [reflexivity|].
  cbn [filterItems FilterSpec.retained]. destruct item as [scn|text].
  - unfold Filter, ScenarioFilterBasedOnTags_Filter. cbn [specTags newScenarioFilterBasedOnTags].
    rewrite (filterTags_normal _ x expr) by exact Hx.
    unfold FilterSpec.retain, FilterSpec.effectiveTags.
    destruct (evaluate expr _) as [value|]; [|reflexivity].
    cbn. rewrite <- (IH (normalise expr) Hstable).
    destruct (filterItems _ items) as [[rest' filter2]|]; [|reflexivity].
    destruct value; reflexivity.
  - cbn. rewrite <- (IH x Hx).
    destruct (filterItems _ items) as [[rest' filter2]|]; reflexivity.
Qed.

(** On an expression whose normal form is stable, [filterSpecsByTags]
    does what the specification says: a scenario stays iff the expression
    is true of its tags and those of its specification, the other items
    stay, and a specification left without scenario is dropped. *)
Lemma filterSpecsByTags_stable (expr : gostring) (specs : list Specification) :
  normalise (normalise expr) = normalise expr ->
  filterSpecsByTags specs expr = FilterSpec.filterSpecs expr specs.
Proof.
  intros Hstable. induction specs as [|spec specs IH]; [reflexivity|].
  cbn [filterSpecsByTags FilterSpec.filterSpecs]. unfold Specification_Filter.
  rewrite <- (filterItems_stable expr spec (Items spec) Hstable expr eq_refl).
  destruct (filterItems _ (Items spec)) as [[items filter']|]; [|reflexivity].
  cbn. rewrite IH. reflexivity.
Qed.

(** That is the case of every expression in which no operator stands
    three times in a row. *)
Corollary filterSpecsByTags_no_triple (expr : gostring) (specs : list Specification) :
  let e' := Replace (Replace expr (str " ") (str "")) (str ",") (str "&") in
  Contains e' (str "&&&") = false -> Contains e' (str "|||") = false ->
  filterSpecsByTags specs expr = FilterSpec.filterSpecs expr specs.
Proof. cbn zeta. intros Hand Hor. apply filterSpecsByTags_stable, normalise_stable; assumption. Qed.

(** Whatever the expression, a specification of the result has a
    scenario. *)
Lemma filterSpecsByTags_scenarios (expr : gostring) (specs result : list Specification) :
  filterSpecsByTags specs expr = Some result ->
  Forall (fun spec => Scenarios spec <> []) result.
Proof.
  revert result. induction specs as [|spec specs IH]; intros result; cbn [filterSpecsByTags].
  - intros [= <-]. constructor.
  - destruct (Specification_Filter spec _) as [spec'|]; [|discriminate].
    destruct (filterSpecsByTags specs expr) as [filtered|]; [|discriminate].
    cbn. intros [= <-]. specialize (IH filtered eq_refl).
    destruct (Scenarios spec') eqn:E; cbn; [exact IH|].
    constructor; [congruence | exact IH].
Qed.

Local Abbreviation tagged heading :=
  {| Heading := str heading; Tags := Some [str "a"; str "b"] |}.

Local Abbreviation twoScenarios :=
  {| SpecHeading := str "login"; SpecTags := None;
     Items := [ScenarioItem (tagged "first"); ScenarioItem (tagged "second")] |}.

(** C3 at the expression [!(a&&&b)], which [validateTagExpression]
    accepts, on a specification with two scenarios that both carry the
    tags [a] and [b].  The expression has the same value on the tags of
    both, true, so both are to be kept; [filterSpecsByTags] keeps the first
    and drops the second. *)
Theorem filterSpecsByTags_triple_operator :
  validateTagExpression (str "!(a&&&b)") = Some None /\
  evaluate (str "!(a&&&b)") [str "a"; str "b"] = Some true /\
  FilterSpec.filterSpecs (str "!(a&&&b)") [twoScenarios] = Some [twoScenarios] /\
  filterSpecsByTags [twoScenarios] (str "!(a&&&b)")
  = Some [ {| SpecHeading := str "login"; SpecTags := None;
              Items := [ScenarioItem (tagged "first")] |} ].
Proof. repeat split; vm_compute; reflexivity. Qed.

End FilterSpecs.

(** ** The step cache *)

Section StepCache.

Import InfoGatherer.

Context {Specification Concept TestRunner : Type}.
Variable getStepsFromSpec : Specification -> list StepValue.
Variable getStepsFromConcept : Concept -> list StepValue.
Variable getImplementedSteps : TestRunner -> list StepValue.

Lemma addStep_lookup (cache : gmap string StepValue) (step : StepValue) (key : string) :
  addStep cache step !! key
  = match cache !! key with
    | Some held => Some held
    | None => if String.eqb (stepValue step) key then Some step else None
    end.
Proof.
  unfold addStep. destruct (String.eqb_spec (stepValue step) key) as [<-|Hne].
  - destruct (cache !! stepValue step) eqn:E; [exact E|].
    rewrite lookup_insert_eq. reflexivity.
  - destruct (cache !! stepValue step) eqn:E.
    + destruct (cache !! key); reflexivity.
    + rewrite lookup_insert_ne by exact Hne. destruct (cache !! key); reflexivity.
Qed.

Lemma fold_addStep_lookup (steps : list StepValue) (cache : gmap string StepValue)
    (key : string) :
  fold_left addStep steps cache !! key
  = match cache !! key with
    | Some held => Some held
    | None => firstWriter key steps
    end.
Proof.
  revert cache. induction steps as [|step steps IH]; intros cache.
  - cbn. destruct (cache !! key); reflexivity.
  - cbn [fold_left]. rewrite IH, addStep_lookup. unfold firstWriter. cbn [List.find].
    destruct (cache !! key); [reflexivity|].
    destruct (String.eqb (stepValue step) key); reflexivity.
Qed.

Lemma firstWriter_app (key : string) (first later : list StepValue) :
  firstWriter key (first ++ later)
  = match firstWriter key first with
    | Some step => Some step
    | None => firstWriter key later
    end.
Proof.
  unfold firstWriter. induction first as [|step first IH]; [reflexivity|].
  cbn. destruct (String.eqb (stepValue step) key); [reflexivity | exact IH].
Qed.

(** C8: the cache holds one step value per key and the first writer
    wins.  [addToStepsCache] keeps the entry a key already has, and gives
    a key without entry the first step of the list that has it;
    [initStepsCache] fills the cache from the implemented steps, then the
    steps of the concepts, then the steps of the specifications, so the
    entry of a key comes from the first of these sources that has it. *)
Theorem stepsCache_first_writer_wins
    (s : SpecInfoGatherer Specification Concept) (allSteps : list StepValue)
    (runner : TestRunner) (key : string) :
  stepsCache (addToStepsCache s allSteps) !! key
  = match stepsCache s !! key with
    | Some held => Some held
    | None => firstWriter key allSteps
    end
  /\
  stepsCache (initStepsCache getStepsFromSpec getStepsFromConcept getImplementedSteps s runner)
    !! key
  = match firstWriter key (getImplementedSteps runner) with
    | Some step => Some step
    | None =>
        match firstWriter key (getStepsFromCachedConcepts getStepsFromConcept s) with
        | Some step => Some step
        | None => firstWriter key (getStepsFromCachedSpecs getStepsFromSpec s)
        end
    end.
Proof.
  split.
  - apply fold_addStep_lookup.
  - unfold initStepsCache, addToStepsCache. cbn [stepsCache].
    rewrite fold_addStep_lookup, lookup_empty, !firstWriter_app.
    destruct (firstWriter key (getImplementedSteps runner)); reflexivity.
Qed.

(** The key of an entry is the key of the step value it holds. *)
Lemma fold_addStep_keys (steps : list StepValue) (cache : gmap string StepValue) :
  (forall key step, cache !! key = Some step -> stepValue step = key) ->
  forall key step, fold_left addStep steps cache !! key = Some step -> stepValue step = key.
Proof.
  intros Hcache key step. rewrite fold_addStep_lookup.
  destruct (cache !! key) as [held|] eqn:E.
  - intros [= <-]. eauto.
  - unfold firstWriter. intros H. apply List.find_some in H as [_ H].
    apply String.eqb_eq, H.
Qed.

End StepCache.

(** ** The API message handler *)

Section ApiFacts.

Import Api.

Context {ProtoStepValue ProtoSpec ConceptInfo TextInfo : Type}.
Variable env : Collaborators ProtoStepValue ProtoSpec ConceptInfo TextInfo.
Variable uniqueID : Z.

Local Abbreviation APIMessage := (APIMessage ProtoStepValue ProtoSpec ConceptInfo TextInfo).

(** Bytes that do not decode are answered with an error response that
    carries the identifier [common.GetUniqueID] gave. *)
Lemma decode_failure_response (bytesRead : list ascii) (err : string) :
  Unmarshal env bytesRead = Err err ->
  MessageBytesReceived env uniqueID bytesRead
  = {| MessageType := ErrorResponse; MessageId := Some uniqueID; payload := Error err |}.
Proof. unfold MessageBytesReceived. intros ->. reflexivity. Qed.

(** The handler of the step value request answers a failure of the
    parser with the identifier of the request. *)
Lemma getStepValueRequestResponse_MessageId (message : APIMessage) :
  MessageId (getStepValueRequestResponse env message) = MessageId message.
Proof.
  unfold getStepValueRequestResponse.
  destruct (ExtractStepValueAndParams env _ _); reflexivity.
Qed.

(** The identifier of the answer to a decoded message: that of the
    request, except on the error returns of [getLanguagePluginLibPath]. *)
Lemma dispatch_MessageId (apiMessage : APIMessage) :
  MessageId (dispatch env uniqueID apiMessage)
  = if libPathFails env apiMessage then Some uniqueID else MessageId apiMessage.
Proof.
  unfold dispatch, libPathFails.
  destruct (MessageType apiMessage); try reflexivity.
  - apply getStepValueRequestResponse_MessageId.
  - unfold getLanguagePluginLibPath.
    destruct (GetInstallDir env _); [|reflexivity].
    destruct (GetRunnerInfo env _); reflexivity.
  - unfold performRefactoring.
    destruct (PerformRephraseRefactoring _ _ _ _ env _ _) as [[success errors] files].
    reflexivity.
  - unfold extractConcept.
    destruct (ExtractConcept _ _ _ _ env _) as [[success err] files]. reflexivity.
Qed.

End ApiFacts.

Section ApiFailingInput.

Import Api.
Local Open Scope string_scope.

(** A request for the library path of the plugin of a language, with the
    identifier 7. *)
Local Abbreviation javaRequest :=
  {| MessageType := GetLanguagePluginLibPathRequest; MessageId := Some 7;
     payload := @LibPathRequest unit unit unit unit "java" |}.

(** An installation without any language plugin, which receives that
    request. *)
Local Abbreviation noPlugin :=
  {| Unmarshal := fun _ => Ok javaRequest;
     ProjectRoot := "/project";
     GetInstallationPrefix := Ok "/usr/local";
     GetAvailableSteps := [];
     GetAvailableSpecs := [];
     GetConceptInfos := [];
     ExtractStepValueAndParams := fun _ _ => Ok tt;
     GetInstallDir := fun language => Err ("Plugin " ++ language ++ " not installed");
     GetRunnerInfo := fun _ => Ok "libs";
     pathJoin := fun dir file => dir ++ "/" ++ file;
     PerformRephraseRefactoring := fun _ _ => (true, [], []);
     ExtractConcept := fun _ => (true, "", []);
     FormatSpecFiles := fun _ => [] |}.

(** C9 at a request for the library path of a plugin that is not
    installed: the request decodes, its handler fails, and the error
    response carries the identifier [common.GetUniqueID] gave (here 1001)
    and not the identifier 7 of the request. *)
Theorem libPath_error_response_id :
  MessageBytesReceived noPlugin 1001 []
  = {| MessageType := ErrorResponse; MessageId := Some 1001;
       payload := Error "Plugin java not installed" |}
  /\ MessageId (MessageBytesReceived noPlugin 1001 []) <> MessageId javaRequest.
Proof. split; [reflexivity | discriminate]. Qed.

End ApiFailingInput.

(** ** The parallel execution *)

Section ExecutionFacts.

Import Execution.

Context {Specification SpecResult ProtoHookFailure : Type}.

Local Abbreviation SuiteResult := (SuiteResult SpecResult ProtoHookFailure).

Variable runStreams : Z -> list Specification -> list SuiteResult.

Lemma getNumberOfStreams_min (e : parallelExecution Specification) :
  getNumberOfStreams e = Z.min (numberOfExecutionStreams e) (len (specs e)).
Proof.
  unfold getNumberOfStreams.
  destruct (Z.ltb_spec (len (specs e)) (numberOfExecutionStreams e)); lia.
Qed.

(** C5: the number of streams is the smaller of the requested number and
    the number of specifications; with a requested number that is not
    negative and no specification it is 0, and the coordinator returns the
    empty suite result. *)
Theorem number_of_streams (e : parallelExecution Specification) :
  getNumberOfStreams e = Z.min (numberOfExecutionStreams e) (len (specs e)) /\
  (0 <= numberOfExecutionStreams e -> specs e = [] ->
   getNumberOfStreams e = 0 /\ start runStreams e = emptySuiteResult).
Proof.
  split; [apply getNumberOfStreams_min|]. intros HN Hspecs.
  assert (H0 : getNumberOfStreams e = 0).
  { rewrite getNumberOfStreams_min, Hspecs. unfold len. cbn. lia. }
  split; [exact H0|]. unfold start. rewrite H0. reflexivity.
Qed.

(** The number of streams never exceeds the number of specifications. *)
Lemma number_of_streams_le (e : parallelExecution Specification) :
  getNumberOfStreams e <= len (specs e).
Proof. rewrite getNumberOfStreams_min. lia. Qed.

(** The merge of the streams' results, from any aggregate. *)
Lemma fold_mergeResult (results : list SuiteResult) (aggregate : SuiteResult) :
  let merged := fold_left mergeResult results aggregate in
  ExecutionTime merged
    = ExecutionTime aggregate + fold_right Z.add 0 (map ExecutionTime results) /\
  SpecResults merged = SpecResults aggregate ++ concat (map SpecResults results) /\
  SpecsFailedCount merged
    = SpecsFailedCount aggregate + fold_right Z.add 0 (map SpecsFailedCount results) /\
  IsFailed merged = IsFailed aggregate || existsb IsFailed results /\
  UnhandledErrors merged = UnhandledErrors aggregate ++ concat (map UnhandledErrors results).
Proof.
  revert aggregate. induction results as [|result results IH]; intros aggregate; cbn zeta.
  - cbn. rewrite !Z.add_0_r, !app_nil_r, orb_false_r. auto.
  - cbn [fold_left map fold_right concat existsb].
    destruct (IH (mergeResult aggregate result)) as (Ht & Hr & Hf & Hb & Hu).
    rewrite Ht, Hr, Hf, Hb, Hu. cbn [mergeResult ExecutionTime SpecResults SpecsFailedCount
                                       IsFailed UnhandledErrors].
    repeat split.
    + lia.
    + now rewrite <- app_assoc.
    + lia.
    + destruct (IsFailed result), (IsFailed aggregate); reflexivity.
    + destruct (UnhandledErrors result); [now rewrite app_nil_l | now rewrite <- app_assoc].
Qed.

(** C6: the execution time of the aggregate is the sum of those of the
    streams, its spec results are theirs one after the other, so their
    number is the sum of the streams' numbers, its count of failed
    specifications is the sum of theirs, and it is failed iff a stream
    is. *)
Theorem aggregate_sums (e : parallelExecution Specification) (results : list SuiteResult) :
  let aggregate := aggregateResults e results in
  ExecutionTime aggregate = fold_right Z.add 0 (map ExecutionTime results) /\
  SpecResults aggregate = concat (map SpecResults results) /\
  len (SpecResults aggregate)
    = fold_right Z.add 0 (map (fun result => len (SpecResults result)) results) /\
  SpecsFailedCount aggregate = fold_right Z.add 0 (map SpecsFailedCount results) /\
  (IsFailed aggregate = true <-> exists result, In result results /\ IsFailed result = true).
Proof.
  cbn zeta. unfold aggregateResults.
  cbn [ExecutionTime SpecResults SpecsFailedCount IsFailed].
  destruct (fold_mergeResult results emptySuiteResult) as (Ht & Hr & Hf & Hb & _).
  cbn zeta in *. rewrite Ht, Hr, Hf, Hb. cbn. repeat split; try reflexivity.
  - clear. induction results as [|result results IH]; [reflexivity|].
    cbn. unfold len in *. rewrite length_app, <- IH. lia.
  - intros H. apply existsb_exists in H. exact H.
  - intros H. apply existsb_exists. exact H.
Qed.

Local Open Scope string_scope.

Lemma append_cons (a : ascii) (s t : string) : String a s ++ t = String a (s ++ t).
Proof. reflexivity. Qed.

Lemma append_nil_r (s : string) : s ++ "" = s.
Proof. induction s as [|a s IH]; [reflexivity|]. now rewrite append_cons, IH. Qed.

Lemma append_assoc (s t u : string) : (s ++ t) ++ u = s ++ t ++ u.
Proof. induction s as [|a s IH]; [reflexivity|]. now rewrite !append_cons, IH. Qed.

Lemma fold_specNames (skipped : list string) (names : string) :
  fold_left (fun names spec => names ++ spec ++ newline) skipped names
  = names ++ String.concat "" (map (fun spec => spec ++ newline) skipped).
Proof.
  revert names. induction skipped as [|spec skipped IH]; intros names.
  - cbn. now rewrite append_nil_r.
  - cbn [fold_left map]. rewrite IH, append_assoc. f_equal.
    destruct skipped as [|next skipped]; cbn [map String.concat].
    + now rewrite append_nil_r.
    + reflexivity.
Qed.

(** C7: the text of a stream error is the heading line, one line for
    each skipped specification and the reason followed by a full stop;
    the unhandled errors of the aggregate are those of the streams, one
    list after the other, so that every error of a stream is among them. *)
Theorem stream_errors (s : streamExecError) (e : parallelExecution Specification)
    (results : list SuiteResult) :
  Error (StreamExecError s)
  = "The following specifications could not be executed:" ++ newline
      ++ String.concat "" (map (fun spec => spec ++ newline) (specsSkipped s))
      ++ "Reason : " ++ message s ++ "."
  /\ UnhandledErrors (aggregateResults e results) = concat (map UnhandledErrors results)
  /\ forall result err, In result results -> In err (UnhandledErrors result) ->
                        In err (UnhandledErrors (aggregateResults e results)).
Proof.
  assert (Hall : UnhandledErrors (aggregateResults e results)
                 = concat (map UnhandledErrors results)).
  { unfold aggregateResults. cbn [UnhandledErrors].
    destruct (fold_mergeResult results emptySuiteResult) as (_ & _ & _ & _ & Hu).
    cbn zeta in Hu. rewrite Hu. reflexivity. }
  split; [|split; [exact Hall|]].
  - cbn [Error]. unfold streamExecError_Error. cbn zeta.
    rewrite fold_specNames. reflexivity.
  - intros result err Hresult Herr. rewrite Hall. apply in_concat.
    exists (UnhandledErrors result). split; [apply in_map, Hresult | exact Herr].
Qed.

End ExecutionFacts.

(** The three cases of [TestGetNumberOfStreams]. *)
Example TestGetNumberOfStreams :
  let e n k := {| Execution.numberOfExecutionStreams := n; Execution.specs := repeat tt k;
                  Execution.specErrs := [] |} in
  Execution.getNumberOfStreams (e 5 6%nat) = 5 /\
  Execution.getNumberOfStreams (e 10 6%nat) = 6 /\
  Execution.getNumberOfStreams (e 17 0%nat) = 0.
Proof. repeat split. Qed.

(** The requested number 17 with no specification, as in the test. *)
Lemma number_of_streams_witness :
  Execution.getNumberOfStreams
    {| Execution.numberOfExecutionStreams := 17; Execution.specs := @nil unit;
       Execution.specErrs := [] |} = 0 /\
  Execution.start (fun _ _ => [@Execution.emptySuiteResult unit unit])
    {| Execution.numberOfExecutionStreams := 17; Execution.specs := @nil unit;
       Execution.specErrs := [] |}
  = Execution.emptySuiteResult.
Proof.
  apply (number_of_streams (fun _ _ => [@Execution.emptySuiteResult unit unit])
           {| Execution.numberOfExecutionStreams := 17; Execution.specs := @nil unit;
              Execution.specErrs := [] |}).
  - cbn. lia.
  - reflexivity.
Defined.

(** The first stream of [TestAggregationOfSuiteResultWithUnhandledErrors]:
    its error is among those of the aggregate. *)
Lemma stream_errors_witness :
  In (Execution.StreamExecError
        {| Execution.specsSkipped := ["spec1"; "spec2"]%string;
           Execution.message := "Runner failed to start" |})
     (Execution.UnhandledErrors
        (Execution.aggregateResults
           {| Execution.numberOfExecutionStreams := 3; Execution.specs := @nil unit;
              Execution.specErrs := [tt] |}
           [ {| Execution.SpecResults := @nil unit; Execution.PreSuite := @None unit;
                Execution.PostSuite := None; Execution.IsFailed := true;
                Execution.SpecsFailedCount := 0; Execution.ExecutionTime := 0;
                Execution.UnhandledErrors :=
                  [Execution.StreamExecError
                     {| Execution.specsSkipped := ["spec1"; "spec2"]%string;
                        Execution.message := "Runner failed to start" |}];
                Execution.SpecsSkippedCount := 0 |} ])).
Proof.
  refine (proj2 (proj2 (stream_errors
           {| Execution.specsSkipped := ["spec1"; "spec2"]%string;
              Execution.message := "Runner failed to start" |}
           {| Execution.numberOfExecutionStreams := 3; Execution.specs := @nil unit;
              Execution.specErrs := [tt] |}
           [ {| Execution.SpecResults := @nil unit; Execution.PreSuite := @None unit;
                Execution.PostSuite := None; Execution.IsFailed := true;
                Execution.SpecsFailedCount := 0; Execution.ExecutionTime := 0;
                Execution.UnhandledErrors :=
                  [Execution.StreamExecError
                     {| Execution.specsSkipped := ["spec1"; "spec2"]%string;
                        Execution.message := "Runner failed to start" |}];
                Execution.SpecsSkippedCount := 0 |} ])) _ _ _ _).
  - simpl. left. reflexivity.
  - simpl. left. reflexivity.
Defined.

(** The first error of [TestAggregationOfSuiteResultWithUnhandledErrors]. *)
Example TestStreamExecError :
  Execution.Error
    (Execution.StreamExecError
       {| Execution.specsSkipped := ["spec1"; "spec2"]%string;
          Execution.message := "Runner failed to start" |})
  = ("The following specifications could not be executed:" ++ Execution.newline
     ++ "spec1" ++ Execution.newline ++ "spec2" ++ Execution.newline
     ++ "Reason : Runner failed to start.")%string.
Proof. reflexivity. Qed.

(** ** The coloured console *)

Section ReporterFacts.

Import GoInt Reporter.

Variables scenarioIndentation stepIndentation errorIndentation : Z.
Variable Verbose : bool.
Variable newline : string.
Variables formatSpec formatScenario : string -> string.
Variable indent : string -> Z -> string.
Variables getFailureSymbol getSuccessSymbol : string.

Local Abbreviation perform :=
  (perform scenarioIndentation stepIndentation errorIndentation Verbose newline
           formatSpec formatScenario indent getFailureSymbol getSuccessSymbol).
Local Abbreviation performAll :=
  (performAll scenarioIndentation stepIndentation errorIndentation Verbose newline
              formatSpec formatScenario indent getFailureSymbol getSuccessSymbol).

Lemma wrap_isInt (z : Z) : isInt (wrap z).
Proof.
  unfold isInt, wrap. pose proof (Z.mod_pos_bound (z + 2 ^ 63) (2 ^ 64) ltac:(lia)). lia.
Qed.

Lemma wrap_small (z : Z) : isInt z -> wrap z = z.
Proof. unfold isInt, wrap. intros H. rewrite Z.mod_small by lia. lia. Qed.

(** What is added and then subtracted is gone, also across a wrap
    around. *)
Lemma wrap_add_sub (x a : Z) : isInt x -> wrap (wrap (x + a) - a) = x.
Proof.
  intros Hx. rewrite <- (wrap_small x Hx) at 2. unfold wrap. f_equal.
  replace ((x + a + 2 ^ 63) mod 2 ^ 64 - 2 ^ 63 - a + 2 ^ 63)
    with ((x + a + 2 ^ 63) mod 2 ^ 64 - a) by lia.
  rewrite Zminus_mod_idemp_l. f_equal. lia.
Qed.

(** The effect of one call on the indentation. *)
Lemma perform_indentation (c : coloredConsole) (k : call) :
  indentation (perform c k)
  = match k with
    | CallScenarioStart _ => wrap (indentation c + scenarioIndentation)
    | CallScenarioEnd _ => wrap (indentation c - scenarioIndentation)
    | CallStepStart _ | CallConceptStart _ => wrap (indentation c + stepIndentation)
    | CallStepEnd _ | CallConceptEnd _ => wrap (indentation c - stepIndentation)
    | _ => indentation c
    end.
Proof.
  destruct k; cbn [Reporter.perform]; try reflexivity.
  - unfold ScenarioStart. destruct Verbose; reflexivity.
  - unfold ScenarioEnd. destruct Verbose; reflexivity.
  - unfold StepStart. destruct Verbose; reflexivity.
  - unfold StepEnd. destruct Verbose, failed; reflexivity.
  - unfold ConceptStart. destruct Verbose; reflexivity.
Qed.

Lemma perform_isInt (c : coloredConsole) (k : call) :
  isInt (indentation c) -> isInt (indentation (perform c k)).
Proof. rewrite perform_indentation. destruct k; auto using wrap_isInt. Qed.

Lemma performAll_app (c : coloredConsole) (a b : list call) :
  performAll c (a ++ b) = performAll (performAll c a) b.
Proof. apply fold_left_app. Qed.

Lemma performAll_bracket (c : coloredConsole) (open close : call) (a : list call) :
  performAll c (open :: a ++ [close]) = perform (performAll (perform c open) a) close.
Proof.
  change (open :: a ++ [close]) with ([open] ++ a ++ [close]).
  rewrite !performAll_app. reflexivity.
Qed.

Lemma balanced_indentation (calls : list call) :
  balanced calls ->
  forall c, isInt (indentation c) -> indentation (performAll c calls) = indentation c.
Proof.
  induction 1 as [|a b _ IHa _ IHb|heading failed a _ IH|text failed a _ IH
                 |heading failed a _ IH|heading| |table|msg|text];
    intros c Hc;
    try (cbn [Reporter.performAll fold_left]; rewrite perform_indentation; reflexivity).
  - reflexivity.
  - rewrite performAll_app, IHb, IHa; auto.
    rewrite IHa by exact Hc. exact Hc.
  - rewrite performAll_bracket, perform_indentation, IH by (apply perform_isInt, Hc).
    rewrite perform_indentation. apply wrap_add_sub, Hc.
  - rewrite performAll_bracket, perform_indentation, IH by (apply perform_isInt, Hc).
    rewrite perform_indentation. apply wrap_add_sub, Hc.
  - rewrite performAll_bracket, perform_indentation, IH by (apply perform_isInt, Hc).
    rewrite perform_indentation. apply wrap_add_sub, Hc.
Qed.

(** C10: from an indentation that is a Go [int], an end subtracts what
    its start added (the scenario indentation for a scenario, the step
    indentation for a step and for a concept), so that a start followed by
    its end, and more generally any balanced sequence of calls, leaves the
    indentation as it was. *)
Theorem indentation_balanced (c : coloredConsole) (calls : list call) :
  isInt (indentation c) ->
  (forall heading text failed,
      indentation (perform (perform c (CallScenarioStart heading)) (CallScenarioEnd failed))
      = indentation c /\
      indentation (perform (perform c (CallStepStart text)) (CallStepEnd failed))
      = indentation c /\
      indentation (perform (perform c (CallConceptStart heading)) (CallConceptEnd failed))
      = indentation c) /\
  (balanced calls -> indentation (performAll c calls) = indentation c).
Proof.
  intros Hc. split.
  - intros heading text failed. rewrite !perform_indentation.
    repeat split; apply wrap_add_sub, Hc.
  - intros Hb. apply balanced_indentation; assumption.
Qed.

End ReporterFacts.

(** A scenario with one step, reported with the indentations 2 and 4. *)
Lemma indentation_balanced_witness :
  Reporter.indentation
    (Reporter.performAll 2 4 2 true "" (fun s => s) (fun s => s) (fun s _ => s) "F" "P"
       {| Reporter.writer := []; Reporter.headingBuffer := "";
          Reporter.pluginMessagesBuffer := ""; Reporter.indentation := 0 |}
       [Reporter.CallScenarioStart "login"; Reporter.CallStepStart "open the page";
        Reporter.CallStepEnd false; Reporter.CallScenarioEnd false])
  = 0.
Proof.
  apply (indentation_balanced 2 4 2 true "" (fun s => s) (fun s => s) (fun s _ => s) "F" "P"
           {| Reporter.writer := []; Reporter.headingBuffer := "";
              Reporter.pluginMessagesBuffer := ""; Reporter.indentation := 0 |}).
  - unfold GoInt.isInt. cbn. lia.
  - apply (Reporter.balanced_scenario "login" false
             [Reporter.CallStepStart "open the page"; Reporter.CallStepEnd false]).
    apply (Reporter.balanced_step "open the page" false []).
    apply Reporter.balanced_nil.
Defined.

(** ** The tag filter: what the helpers of the evaluation do *)

Section Normalise.

Import GoStrings Filter.

(** A byte that is not in the string starts no occurrence of a text that
    begins with it. *)
Lemma Contains_head_absent (c : ascii) (p s : gostring) :
  Forall (fun x => x <> c) s -> Contains s (c :: p) = false.
Proof.
  induction 1 as [|x s Hx _ IH]; [reflexivity|].
  rewrite Contains_cons, IH, orb_false_r, HasPrefix_cons.
  destruct (byte_eqb c x) eqn:E; [|reflexivity].
  apply byte_eqb_eq in E. congruence.
Qed.

Lemma normalise_length (e : gostring) : (length (normalise e) <= length e)%nat.
Proof.
  rewrite normalise_unfold.
  pose proof (replace_from_length (str " ") (str "") 0 e ltac:(cbv; lia)).
  pose proof (replace_from_length (str ",") (str "&") 0
                (replace_from (str " ") (str "") 0 e) ltac:(cbv; lia)).
  pose proof (replace_from_length (str "&&") (str "&") 0
                (replace_from (str ",") (str "&") 0 (replace_from (str " ") (str "") 0 e))
                ltac:(cbv; lia)).
  pose proof (replace_from_length (str "||") (str "|") 0
                (replace_from (str "&&") (str "&") 0
                   (replace_from (str ",") (str "&") 0 (replace_from (str " ") (str "") 0 e)))
                ltac:(cbv; lia)).
  lia.
Qed.

(** X1: what [replaceSpecialChar] leaves in the filter holds no blank and
    no comma and is not longer than what it found; the tags of the
    specification are not touched. *)
Theorem replaceSpecialChar_clean (filter : ScenarioFilterBasedOnTags) :
  let e := tagExpression (replaceSpecialChar filter) in
  Contains e (str " ") = false /\ Contains e (str ",") = false /\
  (length e <= length (tagExpression filter))%nat /\
  specTags (replaceSpecialChar filter) = specTags filter.
Proof.
  cbn zeta. cbn [replaceSpecialChar tagExpression specTags].
  destruct (normalise_bytes (tagExpression filter)) as [Hblank Hcomma].
  repeat split.
  - apply (Contains_byte_absent " "%char), Hblank.
  - apply (Contains_byte_absent ","%char), Hcomma.
  - apply normalise_length.
Qed.

(** X2: on an expression in which, blanks taken away and commas read as
    [&], no operator stands three times in a row, a second
    [replaceSpecialChar] changes nothing. *)
Theorem replaceSpecialChar_idempotent (filter : ScenarioFilterBasedOnTags) :
  Contains (Replace (Replace (tagExpression filter) (str " ") (str "")) (str ",") (str "&"))
           (str "&&&") = false ->
  Contains (Replace (Replace (tagExpression filter) (str " ") (str "")) (str ",") (str "&"))
           (str "|||") = false ->
  replaceSpecialChar (replaceSpecialChar filter) = replaceSpecialChar filter.
Proof.
  intros Hand Hor. unfold replaceSpecialChar. cbn [specTags tagExpression].
  rewrite (normalise_stable (tagExpression filter) Hand Hor). reflexivity.
Qed.

End Normalise.

Section Sorting.

Import GoStrings Filter.

Lemma insertByLength_perm (x : gostring) (l : list gostring) :
  Permutation (insertByLength x l) (x :: l).
Proof.
  induction l as [|y l IH]; [reflexivity|].
  cbn [insertByLength]. destruct (Less x y); [|reflexivity].
  rewrite IH. apply perm_swap.
Qed.

(** The reversed sorted part has its shortest element first. *)
Lemma insertByLength_sorted (x : gostring) (l : list gostring) :
  StronglySorted (fun a b => (length a <= length b)%nat) l ->
  StronglySorted (fun a b => (length a <= length b)%nat) (insertByLength x l).
Proof.
  induction 1 as [|y l Hl IH Hy]; [repeat constructor|].
  cbn [insertByLength]. destruct (Less x y) eqn:E; unfold Less in E.
  - apply Nat.ltb_lt in E. constructor; [exact IH|].
    rewrite (Forall_forall _ _). intros z Hz.
    rewrite (insertByLength_perm x l) in Hz. apply elem_of_cons in Hz as [-> | Hz]; [lia|].
    rewrite Forall_forall in Hy. apply Hy, Hz.
  - apply Nat.ltb_ge in E. constructor; [constructor; assumption|].
    constructor; [exact E|]. eapply Forall_impl; [exact Hy|]. cbn. intros; lia.
Qed.

Lemma fold_insertByLength (tags acc : list gostring) :
  let sorted := fold_left (fun sorted_rev x => insertByLength x sorted_rev) tags acc in
  Permutation sorted (rev tags ++ acc) /\
  (StronglySorted (fun a b => (length a <= length b)%nat) acc ->
   StronglySorted (fun a b => (length a <= length b)%nat) sorted).
Proof.
  revert acc. induction tags as [|x tags IH]; intros acc; cbn zeta; [auto|].
  cbn [fold_left rev]. destruct (IH (insertByLength x acc)) as (Hp & Hs).
  rewrite <- !app_assoc. cbn [app]. split.
  - rewrite Hp. apply Permutation_app_head, insertByLength_perm.
  - intros H. apply Hs, insertByLength_sorted, H.
Qed.

Lemma StronglySorted_rev {A} (R : A -> A -> Prop) (l : list A) :
  StronglySorted R l -> StronglySorted (fun a b => R b a) (rev l).
Proof.
  induction 1 as [|x l Hl IH Hx]; [constructor|]. cbn [rev].
  apply StronglySorted_app_2; [|exact IH | repeat constructor].
  intros a b Ha Hb. apply list_elem_of_singleton in Hb. subst.
  rewrite Forall_forall in Hx. apply Hx. apply list_elem_of_In, in_rev, list_elem_of_In, Ha.
Qed.

Lemma sortByLength_perm (tags : list gostring) : Permutation (sortByLength tags) tags.
Proof.
  unfold sortByLength. destruct (fold_insertByLength tags []) as (Hp & _).
  cbn zeta in Hp. rewrite app_nil_r in Hp.
  rewrite <- Permutation_rev, Hp, <- Permutation_rev. reflexivity.
Qed.

(** X3: [sort.Sort (ByLength tags)] keeps the tags, each as often as it
    stood there, and leaves no tag behind a shorter one: the operands are
    substituted from the longest to the shortest. *)
Theorem sortByLength_spec (tags : list gostring) :
  Permutation (sortByLength tags) tags /\
  StronglySorted (fun a b => (length b <= length a)%nat) (sortByLength tags).
Proof.
  unfold sortByLength. destruct (fold_insertByLength tags []) as (Hp & Hs).
  cbn zeta in *. rewrite app_nil_r in *. split.
  - rewrite <- Permutation_rev, Hp, <- Permutation_rev. reflexivity.
  - apply StronglySorted_rev, Hs. constructor.
Qed.

End Sorting.

Section Operands.

Import GoStrings Filter.

Lemma fields_from_spec (f : ascii -> bool) (cur s : gostring) :
  Forall (fun c => f c = false) cur ->
  Forall (fun tag => tag <> [] /\ Forall (fun c => f c = false) tag) (fields_from f cur s) /\
  concat (fields_from f cur s) = rev cur ++ List.filter (fun c => negb (f c)) s.
Proof.
  revert cur. induction s as [|c s IH]; intros cur Hcur.
  - cbn [fields_from List.filter]. rewrite app_nil_r. destruct cur as [|x cur].
    + split; [constructor | reflexivity].
    + split; [|cbn [concat]; apply app_nil_r].
      repeat constructor.
      * intros H. apply (f_equal (@length _)) in H. rewrite length_rev in H. discriminate.
      * apply Forall_rev, Hcur.
  - cbn [fields_from List.filter]. destruct (f c) eqn:E; cbn [negb].
    + destruct (IH [] ltac:(constructor)) as [IH1 IH2]. destruct cur as [|x cur]; [auto|].
      split.
      * constructor; [|exact IH1]. split; [|apply Forall_rev, Hcur].
        intros H. apply (f_equal (@length _)) in H. rewrite length_rev in H. discriminate.
      * cbn [concat]. rewrite IH2. reflexivity.
    + destruct (IH (c :: cur) ltac:(constructor; assumption)) as [IH1 IH2].
      split; [exact IH1|]. rewrite IH2. cbn [rev]. rewrite <- app_assoc. reflexivity.
Qed.

(** X4: the operands [getOperatorsAndOperands] finds are not empty and
    hold none of the operators [&], [|], [(], [)] and [!]; put together, in
    their order, they are the bytes of the expression that are not
    operators. *)
Theorem getOperatorsAndOperands_operands (filter : ScenarioFilterBasedOnTags) :
  let operands := snd (getOperatorsAndOperands filter) in
  Forall (fun tag => tag <> [] /\ Forall (fun c => isValidOperator c = false) tag) operands /\
  concat operands = List.filter (fun c => negb (isValidOperator c)) (tagExpression filter).
Proof.
  cbn zeta. unfold getOperatorsAndOperands, FieldsFunc. cbn [snd].
  apply fields_from_spec. constructor.
Qed.

End Operands.

Section TagSet.

Import GoStrings Filter.

(** Blanks taken out of a tag, as [filterTags] does for the keys of its
    map. *)
Local Abbreviation withoutBlanks tag := (Replace tag (str " ") (str "")).

Lemma fold_tagsMap_lookup (stags : list gostring) (m : tagsMap) (name : gostring) :
  is_Some (fold_left (fun m tag => <[withoutBlanks tag := true]> m) stags m !! name) <->
  is_Some (m !! name) \/ exists tag, In tag stags /\ withoutBlanks tag = name.
Proof.
  revert m. induction stags as [|tag stags IH]; intros m; cbn [fold_left].
  - split; [auto | intros [H | (tag & [] & _)]; exact H].
  - rewrite IH. rewrite lookup_insert_is_Some. split.
    + intros [[H | [_ H]] | (tag' & Hin & H)].
      * right. exists tag. split; [left; reflexivity | exact H].
      * left. exact H.
      * right. exists tag'. split; [right; exact Hin | exact H].
    + intros [H | (tag' & [<- | Hin] & H)].
      * left. destruct (decide (withoutBlanks tag = name)); [left; assumption | right; auto].
      * left. left. exact H.
      * right. exists tag'. auto.
Qed.

(** A name is present iff it is a tag of the list with the blanks taken
    out. *)
Lemma isTagPresent_makeTagsMap (stags : list gostring) (name : gostring) :
  isTagPresent (makeTagsMap stags) name = true <->
  exists tag, In tag stags /\ withoutBlanks tag = name.
Proof.
  unfold isTagPresent, makeTagsMap.
  pose proof (fold_tagsMap_lookup stags ∅ name) as H.
  destruct (fold_left _ stags ∅ !! name) as [b|] eqn:E.
  - split; [|reflexivity]. intros _.
    destruct H as [H _]. destruct (H (mk_is_Some _ _ eq_refl)) as [[x Hx] | Hex]; [|exact Hex].
    rewrite lookup_empty in Hx. discriminate.
  - split; [discriminate|]. intros Hex.
    destruct H as [_ H]. destruct (H (or_intror Hex)) as [x Hx]. discriminate.
Qed.

Lemma isTagPresent_ext (T T' : list gostring) :
  (forall name, (exists tag, In tag T /\ withoutBlanks tag = name) <->
                (exists tag, In tag T' /\ withoutBlanks tag = name)) ->
  forall name, isTagPresent (makeTagsMap T) name = isTagPresent (makeTagsMap T') name.
Proof.
  intros H name. pose proof (isTagPresent_makeTagsMap T name) as H1.
  pose proof (isTagPresent_makeTagsMap T' name) as H2. specialize (H name).
  destruct (isTagPresent (makeTagsMap T) name), (isTagPresent (makeTagsMap T') name);
    try reflexivity.
  - symmetry. apply H2, H, H1. reflexivity.
  - apply H1, H, H2. reflexivity.
Qed.

Lemma evaluate_tags_ext (expr : gostring) (T T' : list gostring) :
  (forall name, isTagPresent (makeTagsMap T) name = isTagPresent (makeTagsMap T') name) ->
  evaluate expr T = evaluate expr T'.
Proof.
  intros H. rewrite !evaluate_unfold. f_equal.
  apply formatAndEvaluateExpression_ext. apply Forall_forall. intros tag _. apply H.
Qed.

Lemma withoutBlanks_idem (tag : gostring) : withoutBlanks (withoutBlanks tag) = withoutBlanks tag.
Proof.
  apply Replace_absent; [discriminate|]. apply (Contains_byte_absent " "%char).
  apply (replace_from_byte_absent " "%char). constructor.
Qed.

(** X5: the value of an expression depends on the tags as a set: their
    order and their repetitions do not matter, so the tags of the scenario
    may come before or after those of the specification; and blanks in the
    tags do not matter either. *)
Theorem evaluate_tag_set (expr : gostring) (T T' : list gostring) :
  (forall tag, In tag T <-> In tag T') ->
  evaluate expr T = evaluate expr T' /\
  evaluate expr (map (fun tag => withoutBlanks tag) T) = evaluate expr T.
Proof.
  intros H. split; apply evaluate_tags_ext, isTagPresent_ext; intros name.
  - split; intros (tag & Hin & Hname); exists tag; split; auto; apply H, Hin.
  - split.
    + intros (tag & Hin & Hname). apply in_map_iff in Hin as (tag0 & <- & Hin).
      exists tag0. split; [exact Hin|]. rewrite <- Hname. symmetry. apply withoutBlanks_idem.
    + intros (tag & Hin & Hname). exists (withoutBlanks tag). split.
      * apply in_map_iff. exists tag. auto.
      * rewrite withoutBlanks_idem. exact Hname.
Qed.

(** X6: the value depends on the tags only through the presence of the
    operands of the normalised expression. *)
Theorem evaluate_operands_only (expr : gostring) (T T' : list gostring) :
  Forall (fun tag => isTagPresent (makeTagsMap T) (TrimSpace tag)
                     = isTagPresent (makeTagsMap T') (TrimSpace tag))
         (FieldsFunc (normalise expr) isValidOperator) ->
  evaluate expr T = evaluate expr T'.
Proof.
  intros H. rewrite !evaluate_unfold. f_equal.
  apply formatAndEvaluateExpression_ext.
  cbn [getOperatorsAndOperands snd replaceSpecialChar tagExpression newScenarioFilterBasedOnTags].
  rewrite Forall_forall in *. intros tag Htag. apply H.
  rewrite <- (sortByLength_perm (FieldsFunc (normalise expr) isValidOperator)). exact Htag.
Qed.

End TagSet.

Section SingleTag.

Import GoStrings Filter TagExpressions.

Lemma Replace_self (t v : gostring) : t <> [] -> Replace t t v = v.
Proof.
  destruct t as [|c t]; [congruence|]. intros _. unfold Replace.
  rewrite replace_from_cons.
  assert (Hp : HasPrefix (c :: t) (c :: t) = true).
  { generalize (c :: t). intros l. induction l as [|x l IH]; [reflexivity|].
    rewrite HasPrefix_cons, byte_eqb_refl. exact IH. }
  rewrite Hp, replace_from_skip.
  replace (length (c :: t) - 1)%nat with (length t) by (cbn [length]; lia).
  rewrite drop_all. cbn. apply app_nil_r.
Qed.

Lemma plainTag_bytes (t : gostring) (c : ascii) :
  plainTag t -> (isValidOperator c = true \/ c = " "%char \/ c = ","%char) ->
  Forall (fun x => x <> c) t.
Proof.
  intros (_ & H & _) Hc. eapply Forall_impl; [exact H|]. cbn.
  intros x (Hop & Hb & Hcomma) ->. destruct Hc as [Hc | [-> | ->]]; congruence.
Qed.

(** The bytes that may stand in front of the tag: [!] and [(]. *)
Local Abbreviation opening pre := (Forall (fun x => x = "!"%char \/ x = "("%char) pre).

Lemma normalise_plain (pre t : gostring) :
  plainTag t -> opening pre -> normalise (pre ++ t) = pre ++ t.
Proof.
  intros Ht Hpre.
  assert (Hno : forall c p, (isValidOperator c = true \/ c = " "%char \/ c = ","%char) ->
                            c <> "!"%char -> c <> "("%char ->
                            Contains (pre ++ t) (c :: p) = false).
  { intros c p Hc Hne1 Hne2. apply Contains_head_absent, Forall_app.
    split; [|apply plainTag_bytes; assumption].
    eapply Forall_impl; [exact Hpre|]. cbn. intros x [-> | ->] Heq; congruence. }
  unfold normalise.
  rewrite (Replace_absent _ (str " ") (str "")), (Replace_absent _ (str ",") (str "&")),
    (Replace_absent _ (str "&&") (str "&")), (Replace_absent _ (str "||") (str "|"));
    try discriminate; try reflexivity;
    first [ apply (Hno " "%char) | apply (Hno ","%char) | apply (Hno "&"%char)
          | apply (Hno "|"%char) ]; first [discriminate | auto].
Qed.

Lemma fields_plain (cur t : gostring) :
  Forall (fun c => isValidOperator c = false) t -> rev cur ++ t <> [] ->
  fields_from isValidOperator cur t = [rev cur ++ t].
Proof.
  revert cur. induction t as [|c t IH]; intros cur Ht Hne.
  - rewrite app_nil_r in *. cbn. destruct cur; [cbn in Hne; congruence | reflexivity].
  - inversion Ht; subst. cbn [fields_from]. rewrite H1.
    rewrite IH; [| assumption |].
    + cbn [rev]. rewrite <- app_assoc. reflexivity.
    + cbn [rev]. rewrite <- app_assoc. cbn. destruct (rev cur); discriminate.
Qed.

Lemma plainTag_operators (t : gostring) :
  plainTag t -> Forall (fun c => isValidOperator c = false) t.
Proof. intros (_ & H & _). eapply Forall_impl; [exact H|]. cbn. tauto. Qed.

Lemma fields_opening (pre t : gostring) :
  plainTag t -> opening pre -> FieldsFunc (pre ++ t) isValidOperator = [t].
Proof.
  intros Ht Hpre. unfold FieldsFunc. induction Hpre as [|x pre Hx _ IH].
  - apply (fields_plain [] t); [apply plainTag_operators, Ht | apply Ht].
  - cbn [app fields_from]. destruct Hx as [-> | ->]; exact IH.
Qed.

Lemma Replace_opening (pre t v : gostring) :
  plainTag t -> opening pre -> Replace (pre ++ t) t v = pre ++ v.
Proof.
  intros Ht Hpre. pose proof Ht as (Hne & Hbytes & _).
  destruct t as [|c t]; [congruence|]. unfold Replace.
  assert (Hc : c <> "!"%char /\ c <> "("%char).
  { inversion Hbytes as [|? ? [Hop _] _]; subst. split; intros ->; discriminate. }
  induction Hpre as [|x pre Hx _ IH].
  - apply (Replace_self (c :: t)). discriminate.
  - cbn [app]. rewrite replace_from_cons, HasPrefix_cons.
    replace (byte_eqb c x) with false; [cbn [andb]; f_equal; exact IH|].
    symmetry. apply byte_eqb_neq. destruct Hx as [-> | ->]; tauto.
Qed.

(** The expression after substitution, for a tag behind opening bytes. *)
Lemma substitute_plain (pre t : gostring) (tags : tagsMap)
    (q : tagsMap -> gostring -> bool) :
  plainTag t -> opening pre ->
  formatAndEvaluateExpression
    (replaceSpecialChar (newScenarioFilterBasedOnTags [] (pre ++ t))) tags q
  = evaluateExp <$> handleNegation (pre ++ FormatBool (q tags t)).
Proof.
  intros Ht Hpre. unfold formatAndEvaluateExpression, getOperatorsAndOperands.
  cbn [snd replaceSpecialChar tagExpression newScenarioFilterBasedOnTags].
  rewrite normalise_plain, fields_opening by assumption.
  change (sortByLength [t]) with [t]. cbn [fold_left].
  destruct Ht as (Hne & Hbytes & Htrim). rewrite Htrim.
  rewrite Replace_opening by (repeat split; assumption). reflexivity.
Qed.

Lemma evaluate_substituted (negated b : bool) :
  evaluateExp <$> handleNegation ((if negated then str "!" else []) ++ FormatBool b)
  = Some (xorb negated b, None).
Proof. destruct negated, b; vm_compute; reflexivity. Qed.

Lemma opening_nil : opening [].
Proof. constructor. Qed.

Lemma opening_not : opening (str "!").
Proof. repeat constructor. Qed.

(** X7: an expression that is one tag name is true of exactly the tag
    lists that hold the name, blanks in their tags set aside; with [!] in
    front of it, of exactly the others. *)
Theorem evaluate_plain_tag (t : gostring) (T : list gostring) :
  plainTag t ->
  evaluate t T = Some (isTagPresent (makeTagsMap T) t) /\
  evaluate (str "!" ++ t) T = Some (negb (isTagPresent (makeTagsMap T) t)) /\
  (isTagPresent (makeTagsMap T) t = true <->
   exists tag, In tag T /\ Replace tag (str " ") (str "") = t).
Proof.
  intros Ht. repeat split.
  - rewrite evaluate_unfold, (substitute_plain [] t _ _ Ht opening_nil),
      (evaluate_substituted false). reflexivity.
  - rewrite evaluate_unfold, (substitute_plain (str "!") t _ _ Ht opening_not),
      (evaluate_substituted true). reflexivity.
  - apply isTagPresent_makeTagsMap.
  - apply isTagPresent_makeTagsMap.
Qed.

(** X8: an expression that is one tag name, negated or not, passes
    [validateTagExpression]: the evaluation gives no error. *)
Theorem validateTagExpression_plain_tag (t : gostring) :
  plainTag t ->
  validateTagExpression t = Some None /\ validateTagExpression (str "!" ++ t) = Some None.
Proof.
  intros Ht. unfold validateTagExpression. split.
  - rewrite (substitute_plain [] t _ _ Ht opening_nil), (evaluate_substituted false).
    reflexivity.
  - rewrite (substitute_plain (str "!") t _ _ Ht opening_not), (evaluate_substituted true).
    reflexivity.
Qed.

End SingleTag.

Section Brackets.

Import GoStrings Filter TagExpressions.

Lemma bracketScan_byte (stack i : nat) (c : ascii) (s : gostring) :
  c <> "("%char -> c <> ")"%char ->
  bracketScan (S stack) i (c :: s) = bracketScan (S stack) (S i) s.
Proof.
  intros H1 H2. cbn [bracketScan].
  apply byte_eqb_neq in H1, H2. rewrite H1, H2. reflexivity.
Qed.

Lemma bracketScan_open (stack i : nat) (s : gostring) :
  bracketScan stack i ("("%char :: s) = bracketScan (S stack) (S i) s.
Proof. reflexivity. Qed.

Lemma bracketScan_close (stack i : nat) (s : gostring) :
  bracketScan (S stack) i (")"%char :: s)
  = match stack with O => Some i | S _ => bracketScan stack (S i) s end.
Proof. reflexivity. Qed.

(** Inside open brackets, the scan passes over balanced text. *)
Lemma bracketScan_balanced (a : gostring) :
  balancedText a ->
  forall stack i rest,
    bracketScan (S stack) i (a ++ rest) = bracketScan (S stack) (i + length a) rest.
Proof.
  induction 1 as [|c s H1 H2 _ IH|a b _ IHa _ IHb]; intros stack i rest.
  - cbn. rewrite Nat.add_0_r. reflexivity.
  - cbn [app length]. rewrite bracketScan_byte, IH by assumption. f_equal. lia.
  - cbn [app]. rewrite bracketScan_open, <- app_assoc, IHa. cbn [app].
    rewrite bracketScan_close, IHb. f_equal. cbn [length]. rewrite length_app. cbn [length]. lia.
Qed.

(** X9: on an expression whose first [!(] opens a group of balanced text,
    [resolveBracketExpression] returns the text of the group. *)
Theorem resolveBracketExpression_group (before inner after : gostring) :
  Index (before ++ str "!(" ++ inner ++ str ")" ++ after) (str "!(")
  = Z.of_nat (length before) ->
  balancedText inner ->
  resolveBracketExpression (before ++ str "!(" ++ inner ++ str ")" ++ after) = Some inner.
Proof.
  intros Hindex Hinner. unfold resolveBracketExpression. rewrite Hindex.
  replace (Z.to_nat (Z.of_nat (length before) + 1)) with (S (length before)) by lia.
  replace (before ++ str "!(" ++ inner ++ str ")" ++ after)
    with ((before ++ ["!"%char]) ++ "("%char :: inner ++ ")"%char :: after)
    by (rewrite <- app_assoc; reflexivity).
  assert (Hlen : length (before ++ ["!"%char]) = S (length before))
    by (rewrite length_app; cbn; lia).
  rewrite (drop_app_length' _ _ _ (eq_sym Hlen)).
  rewrite bracketScan_open, bracketScan_balanced by exact Hinner.
  rewrite bracketScan_close. cbn [mbind option_bind].
  replace (S (S (length before)) <=? S (S (length before)) + length inner)%nat with true
    by (symmetry; apply Nat.leb_le; lia).
  f_equal. unfold slice.
  replace (S (S (length before)) + length inner - S (S (length before)))%nat
    with (length inner) by lia.
  replace ((before ++ ["!"%char]) ++ "("%char :: inner ++ ")"%char :: after)
    with ((before ++ str "!(") ++ inner ++ ")"%char :: after)
    by (rewrite <- !app_assoc; reflexivity).
  rewrite (drop_app_length' (before ++ str "!(")) by (rewrite length_app; change (length (str "!(")) with 2%nat; lia).
  rewrite take_app_length. reflexivity.
Qed.

Lemma Contains_longer (s old : gostring) :
  (length s < length old)%nat -> Contains s old = false.
Proof.
  intros H. induction s as [|c s IH].
  - rewrite Contains_nil. destruct old; [cbn in H; lia | reflexivity].
  - rewrite Contains_cons, IH by (cbn in H; lia). rewrite orb_false_r.
    destruct (HasPrefix (c :: s) old) eqn:E; [|reflexivity].
    apply HasPrefix_length in E. lia.
Qed.

Lemma bracketScan_plain (stack i : nat) (t : gostring) :
  Forall (fun c => c <> "("%char /\ c <> ")"%char) t ->
  bracketScan (S stack) i t = Some (i + length t)%nat.
Proof.
  intros H. revert i. induction H as [|c t [H1 H2] _ IH]; intros i.
  - cbn. f_equal. lia.
  - rewrite bracketScan_byte, IH by assumption. f_equal. cbn [length]. lia.
Qed.

(** A turn of [evaluateBrackets] on a group that is opened and not closed
    changes nothing. *)
Lemma evaluateBrackets_unclosed (t : gostring) :
  Forall (fun c => c <> "("%char /\ c <> ")"%char /\ c <> "!"%char) t ->
  evaluateBrackets (str "!(" ++ t) = Some (str "!(" ++ t).
Proof.
  intros Ht. unfold evaluateBrackets.
  change (str "!(" ++ t) with ("!"%char :: "("%char :: t). cbn [length evaluateBrackets_rec].
  change (Contains ("!"%char :: "("%char :: t) (str "!(")) with true. cbn iota.
  assert (Hres : resolveBracketExpression ("!"%char :: "("%char :: t) = Some t).
  { unfold resolveBracketExpression.
    change (Index ("!"%char :: "("%char :: t) (str "!(")) with 0.
    change (Z.to_nat (0 + 1)) with 1%nat. cbn [drop].
    rewrite bracketScan_open, bracketScan_plain
      by (eapply Forall_impl; [exact Ht|]; cbn; tauto).
    cbn [mbind option_bind].
    replace (2 <=? 2 + length t)%nat with true by (symmetry; apply Nat.leb_le; lia).
    unfold slice. replace (2 + length t - 2)%nat with (length t) by lia.
    cbn [drop]. rewrite drop_0, take_ge by lia. reflexivity. }
  rewrite Hres. cbn [mbind option_bind].
  assert (Hno : Contains t (str "!(") = false).
  { apply (Contains_head_absent "!"%char). eapply Forall_impl; [exact Ht|]. cbn. tauto. }
  destruct (length t) eqn:El; cbn [evaluateBrackets_rec]; rewrite Hno; cbn [mbind option_bind];
    (f_equal; apply Replace_absent; [discriminate|]; apply Contains_longer;
     rewrite !length_app; cbn [length]; change (length (str "!(")) with 2%nat;
     change (length (str ")")) with 1%nat; lia).
Qed.

Lemma negationLoop_unclosed (t : gostring) :
  Forall (fun c => c <> "("%char /\ c <> ")"%char /\ c <> "!"%char) t ->
  (forall turns, negationLoop turns (str "!(" ++ t) = None) /\
  handleNegation (str "!(" ++ t) = None.
Proof.
  intros Ht.
  assert (Hloop : forall n, negationLoop n (str "!(" ++ t) = None).
  { apply negationLoop_fixed; [reflexivity | apply evaluateBrackets_unclosed, Ht]. }
  split; [apply Hloop|]. unfold handleNegation.
  assert (Hbang : forall p, Contains (str "!(" ++ t) ("!"%char :: "t"%char :: p) = false
                            /\ Contains (str "!(" ++ t) ("!"%char :: "f"%char :: p) = false).
  { intros p. change (str "!(" ++ t) with ("!"%char :: "("%char :: t).
    rewrite !Contains_cons, !HasPrefix_cons.
    split; (rewrite (Contains_head_absent "!"%char); [reflexivity|];
            eapply Forall_impl; [exact Ht|]; cbn; tauto). }
  rewrite (Replace_absent _ (str "!true")) by (try discriminate; apply Hbang).
  rewrite (Replace_absent _ (str "!false")) by (try discriminate; apply Hbang).
  apply Hloop.
Qed.

Lemma booleanText_bytes (t : gostring) :
  booleanText t ->
  Forall (fun c => c <> "("%char /\ c <> ")"%char /\ c <> "!"%char) t.
Proof.
  induction 1 as [b|t u _ IHt _ IHu|t u _ IHt _ IHu].
  - destruct b; repeat constructor; discriminate.
  - repeat (apply Forall_app; split); [exact IHt | | exact IHu].
    repeat constructor; discriminate.
  - repeat (apply Forall_app; split); [exact IHt | | exact IHu].
    repeat constructor; discriminate.
Qed.

(** X10: on a negated group that is opened and never closed, around
    truth values joined by [&] and [|], a turn of the loop of
    [handleNegation] returns the expression as it was, so the loop is not
    left, however many turns it is given: [handleNegation] does not
    return. *)
Theorem handleNegation_unclosed (t : gostring) :
  booleanText t ->
  evaluateBrackets (str "!(" ++ t) = Some (str "!(" ++ t) /\
  (forall turns, negationLoop turns (str "!(" ++ t) = None) /\
  handleNegation (str "!(" ++ t) = None.
Proof.
  intros Ht. apply booleanText_bytes in Ht.
  split; [apply evaluateBrackets_unclosed, Ht | apply negationLoop_unclosed, Ht].
Qed.

End Brackets.

Section UnclosedGroup.

Import GoStrings Filter TagExpressions.

(** X11: an expression that opens a negated group on a tag name and does
    not close it has no value, whatever the tags, and no verdict of
    [validateTagExpression]: the loop of the negation is not left. *)
Theorem evaluate_unclosed (t : gostring) (T : list gostring) :
  plainTag t ->
  evaluate (str "!(" ++ t) T = None /\ validateTagExpression (str "!(" ++ t) = None.
Proof.
  intros Ht.
  assert (Hopen : Forall (fun x => x = "!"%char \/ x = "("%char) (str "!("))
    by (repeat constructor; auto).
  assert (Hnone : forall b, handleNegation (str "!(" ++ FormatBool b) = None).
  { intros b. apply (negationLoop_unclosed (FormatBool b)).
    destruct b; repeat constructor; discriminate. }
  split.
  - rewrite evaluate_unfold, (substitute_plain (str "!(") t _ _ Ht Hopen), Hnone. reflexivity.
  - unfold validateTagExpression.
    rewrite (substitute_plain (str "!(") t _ _ Ht Hopen), Hnone. reflexivity.
Qed.

End UnclosedGroup.

Section FilterItems.

Import GoStrings Filter.

Local Abbreviation others items := (List.filter (fun item => negb (isScenario item)) items).
Local Abbreviation scenariosOf items :=
  (omap (fun item => match item with ScenarioItem s => Some s | OtherItem _ => None end) items).

(** Whatever the filter, what [Specification.Filter] leaves is part of what
    it found, in the same order; a filter that keeps the items that are no
    scenarios leaves all of them. *)
Lemma filterItems_sublist {F} `{SpecItemFilter F} (items items' : list Item) (filter filter' : F) :
  filterItems filter items = Some (items', filter') -> sublist items' items.
Proof.
  revert items' filter. induction items as [|item items IH]; intros items' filter.
  - cbn. intros [= <- <-]. constructor.
  - cbn [filterItems]. destruct (Filter filter item) as [[remove filter1]|]; [|discriminate].
    cbn [mbind option_bind].
    destruct (filterItems filter1 items) as [[rest' filter2]|] eqn:E; [|discriminate].
    cbn [mbind option_bind]. intros [= <- <-]. apply IH in E.
    destruct remove; [apply sublist_cons | apply sublist_skip]; exact E.
Qed.

Lemma filterItems_others {F} `{SpecItemFilter F} (items items' : list Item) (filter filter' : F) :
  (forall f text, exists f', Filter f (OtherItem text) = Some (false, f')) ->
  (forall f scn, Filter f (ScenarioItem scn) = None \/
                 exists b f', Filter f (ScenarioItem scn) = Some (b, f')) ->
  filterItems filter items = Some (items', filter') -> others items' = others items.
Proof.
  intros Hother _. revert items' filter. induction items as [|item items IH]; intros items' filter.
  - cbn. intros [= <- <-]. reflexivity.
  - cbn [filterItems]. destruct item as [scn|text].
    + destruct (Filter filter (ScenarioItem scn)) as [[remove filter1]|]; [|discriminate].
      cbn [mbind option_bind].
      destruct (filterItems filter1 items) as [[rest' filter2]|] eqn:E; [|discriminate].
      cbn [mbind option_bind]. intros [= <- <-]. apply IH in E.
      destruct remove; cbn; exact E.
    + destruct (Hother filter text) as [f' ->]. cbn [mbind option_bind].
      destruct (filterItems f' items) as [[rest' filter2]|] eqn:E; [|discriminate].
      cbn [mbind option_bind]. intros [= <- <-]. apply IH in E. cbn. f_equal. exact E.
Qed.

(** X12: whatever the expression, [filterSpecsByTags] returns
    specifications it was given, in their order, each with its heading and
    tags, with at least one scenario, with its items a part of those it had
    in their order, and with every item that is no scenario. *)
Theorem filterSpecsByTags_selection (expr : gostring) (specs result : list Specification) :
  filterSpecsByTags specs expr = Some result ->
  sublist (map SpecHeading result) (map SpecHeading specs) /\
  Forall (fun spec' =>
            Scenarios spec' <> [] /\
            exists spec, In spec specs /\ SpecHeading spec' = SpecHeading spec /\
                         SpecTags spec' = SpecTags spec /\
                         sublist (Items spec') (Items spec) /\
                         others (Items spec') = others (Items spec)) result.
Proof.
  revert result. induction specs as [|spec specs IH]; intros result; cbn [filterSpecsByTags].
  - intros [= <-]. split; constructor.
  - unfold Specification_Filter.
    destruct (filterItems _ (Items spec)) as [[items filter']|] eqn:E; [|discriminate].
    cbn [mbind option_bind].
    destruct (filterSpecsByTags specs expr) as [filtered|]; [|discriminate].
    cbn [mbind option_bind]. intros [= <-]. destruct (IH filtered eq_refl) as [IH1 IH2].
    assert (IH2' : Forall (fun spec' =>
              Scenarios spec' <> [] /\
              exists spec0, In spec0 (spec :: specs) /\ SpecHeading spec' = SpecHeading spec0 /\
                            SpecTags spec' = SpecTags spec0 /\
                            sublist (Items spec') (Items spec0) /\
                            others (Items spec') = others (Items spec0)) filtered).
    { eapply Forall_impl; [exact IH2|]. cbn. intros spec' (Hs & spec0 & Hin & Hrest).
      split; [exact Hs|]. exists spec0. split; [right; exact Hin | exact Hrest]. }
    destruct (length (Scenarios _) =? 0)%nat eqn:El.
    + split; [apply sublist_cons, IH1 | exact IH2'].
    + split; [cbn [map]; apply sublist_skip, IH1|].
      constructor; [|exact IH2']. split.
      * intros Hnil. rewrite Hnil in El. discriminate.
      * exists spec. cbn [SpecHeading SpecTags Items]. repeat split; [left; reflexivity| |].
        -- eapply filterItems_sublist, E.
        -- eapply filterItems_others; [| |exact E].
           ++ intros f text. exists f. reflexivity.
           ++ intros f scn. destruct (Filter f (ScenarioItem scn)) as [[b f']|]; eauto.
Qed.

(** X13: on an expression in which, blanks taken away and commas read as
    [&], no operator stands three times in a row, [filterSpecsByTags] keeps
    of each specification the scenarios of whose tags, with those of the
    specification behind them, the expression is true, and the items that
    are no scenarios; it drops the specifications left without scenario, and
    has no result as soon as one evaluation has none. *)
Theorem filterSpecsByTags_by_value (expr : gostring) (specs : list Specification) :
  Contains (Replace (Replace expr (str " ") (str "")) (str ",") (str "&")) (str "&&&") = false ->
  Contains (Replace (Replace expr (str " ") (str "")) (str ",") (str "&")) (str "|||") = false ->
  filterSpecsByTags specs expr = FilterSpec.filterSpecs expr specs.
Proof.
  intros Hand Hor. apply filterSpecsByTags_stable, normalise_stable; assumption.
Qed.

Lemma index_Filter_scenario (index cur : Z) (scn : Scenario) :
  Filter {| indexToNotFilter := index; currentScenarioIndex := cur |} (ScenarioItem scn)
  = Some (negb (cur =? index),
          {| indexToNotFilter := index; currentScenarioIndex := GoInt.wrap (cur + 1) |}).
Proof.
  unfold Filter, scenarioIndexFilterToRetain_Filter. cbn [indexToNotFilter currentScenarioIndex].
  destruct (negb (cur =? index)); reflexivity.
Qed.

(** The index filter on the items of a specification, from the count
    [cur] on. *)
Lemma filterItems_index (index : Z) (items : list Item) (cur : Z) :
  0 <= cur -> cur + Z.of_nat (length (scenariosOf items)) < 2 ^ 63 ->
  exists items',
    filterItems {| indexToNotFilter := index; currentScenarioIndex := cur |} items
    = Some (items', {| indexToNotFilter := index;
                       currentScenarioIndex := cur + Z.of_nat (length (scenariosOf items)) |}) /\
    others items' = others items /\
    scenariosOf items'
    = match (if index <? cur then None else scenariosOf items !! Z.to_nat (index - cur)) with
      | Some scn => [scn]
      | None => []
      end.
Proof.
  revert cur. induction items as [|item items IH]; intros cur Hcur Hmax.
  - exists []. cbn. rewrite Z.add_0_r. repeat split.
    destruct (index <? cur); reflexivity.
  - cbn [filterItems]. destruct item as [scn|text].
    + change (scenariosOf (ScenarioItem scn :: items)) with (scn :: scenariosOf items) in *.
      cbn [length] in *. rewrite index_Filter_scenario.
      assert (Hwrap : GoInt.wrap (cur + 1) = cur + 1).
      { unfold GoInt.wrap. change (2 ^ 64) with (2 * 2 ^ 63).
        rewrite Z.mod_small; lia. }
      rewrite Hwrap.
      destruct (IH (cur + 1)) as (rest' & Hrest & Ho & Hs); [lia | lia |].
      replace (cur + 1 + Z.of_nat (length (scenariosOf items)))
        with (cur + Z.of_nat (S (length (scenariosOf items)))) in Hrest by lia.
      destruct (Z.eqb_spec cur index) as [Heq | Hne]; cbn [negb mbind option_bind].
      * exists (ScenarioItem scn :: rest'). rewrite Hrest. cbn [mbind option_bind].
        repeat split.
        -- cbn [List.filter isScenario negb]. exact Ho.
        -- change (scenariosOf (ScenarioItem scn :: rest')) with (scn :: scenariosOf rest').
           rewrite Hs. subst index.
           replace (cur <? cur + 1) with true by (symmetry; apply Z.ltb_lt; lia).
           rewrite Z.ltb_irrefl, Z.sub_diag. reflexivity.
      * exists rest'. rewrite Hrest. cbn [mbind option_bind]. repeat split.
        -- cbn [List.filter isScenario negb]. exact Ho.
        -- rewrite Hs.
           destruct (Z.ltb_spec index cur) as [Hlt | Hge].
           ++ replace (index <? cur + 1) with true by (symmetry; apply Z.ltb_lt; lia).
              reflexivity.
           ++ replace (index <? cur + 1) with false by (symmetry; apply Z.ltb_ge; lia).
              replace (Z.to_nat (index - cur)) with (S (Z.to_nat (index - (cur + 1)))) by lia.
              reflexivity.
    + change (scenariosOf (OtherItem text :: items)) with (scenariosOf items) in *.
      change (Filter ?f (OtherItem text)) with (Some (false, f)).
      cbn [mbind option_bind].
      destruct (IH cur Hcur) as (rest' & Hrest & Ho & Hs); [exact Hmax|].
      exists (OtherItem text :: rest'). rewrite Hrest. cbn [mbind option_bind]. repeat split.
      * cbn [List.filter isScenario negb]. f_equal. exact Ho.
      * exact Hs.
Qed.

(** X14: the index filter leaves of a specification the scenario at the
    index it was made for, if there is one, and no other scenario; it
    leaves every item that is no scenario. *)
Theorem scenarioIndexFilterToRetain_spec (spec : Specification) (index : Z) :
  Z.of_nat (length (Scenarios spec)) < 2 ^ 63 ->
  exists spec',
    Specification_Filter spec (newScenarioIndexFilterToRetain index) = Some spec' /\
    SpecHeading spec' = SpecHeading spec /\ SpecTags spec' = SpecTags spec /\
    others (Items spec') = others (Items spec) /\
    Scenarios spec'
    = match (if index <? 0 then None else Scenarios spec !! Z.to_nat index) with
      | Some scn => [scn]
      | None => []
      end.
Proof.
  intros Hmax. unfold Specification_Filter, newScenarioIndexFilterToRetain.
  destruct (filterItems_index index (Items spec) 0) as (items' & Hitems & Ho & Hs);
    [lia | exact Hmax |].
  eexists. rewrite Hitems. cbn [mbind option_bind]. split; [reflexivity|].
  cbn [SpecHeading SpecTags Items]. repeat split; [exact Ho|].
  unfold Scenarios. cbn [Items]. rewrite Hs, Z.sub_0_r. reflexivity.
Qed.

(** The index filter on the specifications, from the count [cur] on. *)
Lemma filterSpecsItems_index_from (index : Z) (specs : list Specification) (cur : Z) :
  0 <= cur -> cur + Z.of_nat (length (concat (map Scenarios specs))) < 2 ^ 63 ->
  exists result,
    filterSpecsItems specs {| indexToNotFilter := index; currentScenarioIndex := cur |}
    = Some result /\
    match (if index <? cur then None
           else concat (map Scenarios specs) !! Z.to_nat (index - cur)) with
    | Some scn =>
        exists before spec after spec',
          specs = before ++ spec :: after /\
          (length (concat (map Scenarios before)) <= Z.to_nat (index - cur))%nat /\
          Scenarios spec
            !! (Z.to_nat (index - cur) - length (concat (map Scenarios before)))%nat
          = Some scn /\
          result = [spec'] /\
          SpecHeading spec' = SpecHeading spec /\ SpecTags spec' = SpecTags spec /\
          others (Items spec') = others (Items spec) /\
          Scenarios spec' = [scn]
    | None => result = []
    end.
Proof.
  revert cur. induction specs as [|spec specs IH]; intros cur Hcur Hmax.
  - exists []. split; [reflexivity|]. cbn. destruct (index <? cur); reflexivity.
  - cbn [map concat] in *. rewrite length_app in Hmax.
    pose proof (filterItems_index index (Items spec) cur Hcur) as Hitems.
    change (scenariosOf (Items spec)) with (Scenarios spec) in Hitems.
    destruct Hitems as (items' & Hitems & Ho & Hs); [lia|].
    destruct (IH (cur + Z.of_nat (length (Scenarios spec)))) as (rest & Hrest & Hlook);
      [lia | lia |].
    cbn [filterSpecsItems]. rewrite Hitems. cbn [mbind option_bind]. rewrite Hrest.
    cbn [mbind option_bind]. eexists. split; [reflexivity|].
    set (spec' := {| SpecHeading := SpecHeading spec; SpecTags := SpecTags spec;
                     Items := items' |}).
    change (scenariosOf items') with (Scenarios spec') in Hs.
    assert (Hheading : SpecHeading spec' = SpecHeading spec) by reflexivity.
    assert (Htags : SpecTags spec' = SpecTags spec) by reflexivity.
    change items' with (Items spec') in Ho. clearbody spec'.
    destruct (Z.ltb_spec index cur) as [Hlt | Hge].
    + rewrite Hs. cbn [length Nat.eqb].
      replace (index <? cur + Z.of_nat (length (Scenarios spec))) with true in Hlook
        by (symmetry; apply Z.ltb_lt; lia).
      exact Hlook.
    + destruct (Scenarios spec !! Z.to_nat (index - cur)) as [scn|] eqn:E.
      * pose proof (lookup_lt_Some _ _ _ E) as Hlt.
        rewrite (lookup_app_l_Some _ _ _ _ E), Hs. cbn [length Nat.eqb].
        replace (index <? cur + Z.of_nat (length (Scenarios spec))) with true in Hlook
          by (symmetry; apply Z.ltb_lt; lia).
        subst rest. exists [], spec, specs, spec'. cbn [map concat length app].
        rewrite Nat.sub_0_r. repeat split; auto. lia.
      * pose proof (proj1 (lookup_ge_None _ _) E) as Hge'.
        rewrite lookup_app_r, Hs by exact Hge'. cbn [length Nat.eqb].
        replace (index <? cur + Z.of_nat (length (Scenarios spec))) with false in Hlook
          by (symmetry; apply Z.ltb_ge; lia).
        replace (Z.to_nat (index - (cur + Z.of_nat (length (Scenarios spec)))))
          with (Z.to_nat (index - cur) - length (Scenarios spec))%nat in Hlook by lia.
        destruct (concat (map Scenarios specs)
                    !! (Z.to_nat (index - cur) - length (Scenarios spec))%nat)
          as [scn|]; [|exact Hlook].
        destruct Hlook as (before & spec0 & after & spec0' & -> & Hoff & Hscn & Hrest').
        exists (spec :: before), spec0, after, spec0'.
        cbn [map concat app]. rewrite length_app. split; [reflexivity|].
        split; [lia|]. split; [|exact Hrest'].
        rewrite <- Hscn. f_equal. lia.
Qed.

(** X28: [filterSpecsItems] hands one filter to all the specifications, so
    the index filter counts the scenarios across them: what is left is the
    one specification that holds the scenario at the index among the
    scenarios of all the specifications, with its heading, its tags, its
    items that are no scenarios and that scenario only, or no specification
    at all. *)
Theorem filterSpecsItems_index (specs : list Specification) (index : Z) :
  Z.of_nat (length (concat (map Scenarios specs))) < 2 ^ 63 ->
  exists result,
    filterSpecsItems specs (newScenarioIndexFilterToRetain index) = Some result /\
    match (if index <? 0 then None else concat (map Scenarios specs) !! Z.to_nat index) with
    | Some scn =>
        exists before spec after spec',
          specs = before ++ spec :: after /\
          (length (concat (map Scenarios before)) <= Z.to_nat index)%nat /\
          Scenarios spec !! (Z.to_nat index - length (concat (map Scenarios before)))%nat
          = Some scn /\
          result = [spec'] /\
          SpecHeading spec' = SpecHeading spec /\ SpecTags spec' = SpecTags spec /\
          others (Items spec') = others (Items spec) /\
          Scenarios spec' = [scn]
    | None => result = []
    end.
Proof.
  intros Hmax. unfold newScenarioIndexFilterToRetain.
  destruct (filterSpecsItems_index_from index specs 0 ltac:(lia) ltac:(lia))
    as (result & Hresult & Hlook).
  exists result. split; [exact Hresult|]. rewrite Z.sub_0_r in Hlook. exact Hlook.
Qed.

End FilterItems.

(** ** The law of De Morgan for two tags *)

Section TwoTags.

Import GoStrings Filter TagExpressions.

(** A text is not a prefix across a byte it does not hold. *)
Lemma HasPrefix_stop (q rest pat : gostring) (r : ascii) :
  Forall (fun o => o <> r) pat ->
  HasPrefix (q ++ r :: rest) pat = HasPrefix q pat.
Proof.
  intros Hpat. revert q. induction Hpat as [|o pat Ho _ IH]; intros q.
  - destruct q; reflexivity.
  - destruct q as [|c q]; cbn [app].
    + rewrite HasPrefix_cons. apply byte_eqb_neq in Ho. rewrite Ho. reflexivity.
    + rewrite !HasPrefix_cons, IH. reflexivity.
Qed.

Lemma HasPrefix_refl_app (old s : gostring) : HasPrefix (old ++ s) old = true.
Proof.
  induction old as [|o old IH]; [destruct s; reflexivity|].
  cbn [app]. rewrite HasPrefix_cons, byte_eqb_refl. exact IH.
Qed.

(** The occurrence at the front is replaced, whatever follows. *)
Lemma replace_from_hit (old new s : gostring) :
  old <> [] ->
  replace_from old new 0 (old ++ s) = new ++ replace_from old new 0 s.
Proof.
  destruct old as [|o old]; [congruence|]. intros _.
  change ((o :: old) ++ s) with (o :: (old ++ s)).
  rewrite replace_from_cons.
  change (o :: (old ++ s)) with ((o :: old) ++ s). rewrite HasPrefix_refl_app.
  rewrite replace_from_skip.
  replace (length (o :: old) - 1)%nat with (length old) by (cbn [length]; lia).
  rewrite drop_app_length. reflexivity.
Qed.

(** A stretch without occurrence, ended by a byte the text does not hold,
    is passed over. *)
Lemma replace_from_miss (old new f rest : gostring) (r : ascii) :
  old <> [] -> Forall (fun o => o <> r) old -> Contains f old = false ->
  replace_from old new 0 (f ++ r :: rest) = f ++ r :: replace_from old new 0 rest.
Proof.
  intros Hne Hold. induction f as [|c f IH]; intros Hf.
  - cbn [app]. rewrite replace_from_cons.
    change (r :: rest) with ([] ++ r :: rest). rewrite HasPrefix_stop by exact Hold.
    destruct old; [congruence | reflexivity].
  - rewrite Contains_cons in Hf. apply orb_false_iff in Hf as [Hp Hf].
    cbn [app]. rewrite replace_from_cons.
    change (c :: f ++ r :: rest) with ((c :: f) ++ r :: rest).
    rewrite HasPrefix_stop, Hp by exact Hold. cbn [app]. f_equal. apply IH, Hf.
Qed.

Lemma replace_from_miss_end (old new f : gostring) :
  Contains f old = false -> replace_from old new 0 f = f.
Proof. apply replace_from_absent. Qed.

(** A byte is replaced wherever it stands. *)
Lemma Replace_byte (s new : gostring) (o : ascii) :
  Replace s [o] new = flat_map (fun c => if byte_eqb o c then new else [c]) s.
Proof.
  unfold Replace. induction s as [|c s IH]; [reflexivity|].
  rewrite replace_from_cons, HasPrefix_cons. cbn [flat_map length Nat.sub].
  destruct (byte_eqb o c); cbn [andb].
  - destruct s; cbn [HasPrefix]; rewrite IH; reflexivity.
  - rewrite IH. reflexivity.
Qed.

Lemma flat_map_absent (s new : gostring) (o : ascii) :
  Forall (fun c => c <> o) s ->
  flat_map (fun c => if byte_eqb o c then new else [c]) s = s.
Proof.
  induction 1 as [|c s Hc _ IH]; [reflexivity|].
  cbn [flat_map]. replace (byte_eqb o c) with false.
  - cbn [app]. f_equal. exact IH.
  - symmetry. apply byte_eqb_neq. congruence.
Qed.

(** An occurrence of a text of operators does not reach into a tag. *)
Lemma Contains_stop (q rest pat : gostring) (r : ascii) :
  pat <> [] -> Forall (fun o => o <> r) pat ->
  Contains (q ++ r :: rest) pat = Contains q pat || Contains rest pat.
Proof.
  intros Hne Hpat. induction q as [|c q IH].
  - cbn [app]. rewrite Contains_cons, Contains_nil.
    change (r :: rest) with ([] ++ r :: rest). rewrite HasPrefix_stop by exact Hpat.
    destruct pat; [congruence | reflexivity].
  - cbn [app]. rewrite !Contains_cons, IH.
    change (c :: q ++ r :: rest) with ((c :: q) ++ r :: rest).
    rewrite HasPrefix_stop by exact Hpat. apply orb_assoc.
Qed.

Lemma Contains_tag (t rest : gostring) (o : ascii) (pat : gostring) :
  Forall (fun c => c <> o) t ->
  Contains (t ++ rest) (o :: pat) = Contains rest (o :: pat).
Proof.
  induction 1 as [|c t Hc _ IH]; [reflexivity|].
  cbn [app]. rewrite Contains_cons, HasPrefix_cons, IH.
  replace (byte_eqb o c) with false; [reflexivity|].
  symmetry. apply byte_eqb_neq. congruence.
Qed.

(** ** Two tags between operators

    An expression [p0 x p1 y p2] with the tags [x] and [y] and texts of
    operators around them. *)

Local Abbreviation operators p := (Forall (fun c => isValidOperator c = true) p).
Local Abbreviation operand t :=
  (t%list <> [] /\ Forall (fun c => isValidOperator c = false) t%list).

Lemma operand_head (t : gostring) :
  operand t -> exists c t', t = c :: t' /\ isValidOperator c = false.
Proof.
  intros [Hne Ht]. destruct t as [|c t']; [congruence|].
  inversion Ht; subst. eauto.
Qed.

Lemma operators_neq (p t : gostring) (c : ascii) :
  operators p -> isValidOperator c = false -> Forall (fun o => o <> c) p.
Proof.
  intros Hp Hc. eapply Forall_impl; [exact Hp|]. cbn. intros o Ho ->. congruence.
Qed.

Lemma operand_neq (t : gostring) (c : ascii) :
  Forall (fun c => isValidOperator c = false) t -> isValidOperator c = true ->
  Forall (fun o => o <> c) t.
Proof.
  intros Ht Hc. eapply Forall_impl; [exact Ht|]. cbn. intros o Ho ->. congruence.
Qed.

(** Operators in front are passed over. *)
Lemma replace_from_operators (old new p s : gostring) :
  operand old -> operators p ->
  replace_from old new 0 (p ++ s) = p ++ replace_from old new 0 s.
Proof.
  intros [Hne Hold] Hp. induction Hp as [|c p Hc _ IH]; [reflexivity|].
  cbn [app]. change (c :: p ++ s) with ([] ++ c :: (p ++ s)).
  rewrite replace_from_miss, IH;
    [reflexivity | exact Hne | apply operand_neq; assumption|].
  rewrite Contains_nil. destruct old; [congruence | reflexivity].
Qed.

(** A stretch without occurrence, followed by operators only. *)
Lemma replace_from_last (old new f p : gostring) :
  operand old -> operators p -> Contains f old = false ->
  replace_from old new 0 (f ++ p) = f ++ p.
Proof.
  intros Hold Hp Hf. destruct Hp as [|c p Hc Hp].
  - rewrite app_nil_r. apply replace_from_absent, Hf.
  - rewrite replace_from_miss;
      [| apply Hold | apply operand_neq; [apply Hold | exact Hc] | exact Hf].
    rewrite <- (app_nil_r p) at 1. rewrite replace_from_operators by assumption.
    cbn. rewrite app_nil_r. reflexivity.
Qed.

Lemma Replace_operand (s old new : gostring) :
  old <> [] -> Replace s old new = replace_from old new 0 s.
Proof. destruct old; [congruence | reflexivity]. Qed.

(** The first tag is replaced and the second stretch is kept. *)
Lemma replace_first (x new f p0 p1 p2 : gostring) :
  operand x -> operators p0 -> operators p1 -> operators p2 -> Contains f x = false ->
  Replace (p0 ++ x ++ p1 ++ f ++ p2) x new = p0 ++ new ++ p1 ++ f ++ p2.
Proof.
  intros Hx H0 H1 H2 Hf. rewrite Replace_operand by apply Hx.
  rewrite replace_from_operators, replace_from_hit, replace_from_operators,
    replace_from_last by (assumption || apply Hx).
  reflexivity.
Qed.

(** The second tag is replaced and the first stretch is kept. *)
Lemma replace_second (y new f p0 p1 p2 : gostring) :
  operand y -> operators p0 -> operators p1 -> p1 <> [] -> operators p2 ->
  Contains f y = false ->
  Replace (p0 ++ f ++ p1 ++ y ++ p2) y new = p0 ++ f ++ p1 ++ new ++ p2.
Proof.
  intros Hy H0 H1 Hne H2 Hf. rewrite Replace_operand by apply Hy.
  rewrite replace_from_operators by assumption.
  destruct H1 as [|c p1 Hc H1]; [congruence|].
  change ((c :: p1) ++ y ++ p2) with (c :: (p1 ++ y ++ p2)).
  rewrite replace_from_miss;
    [| apply Hy | apply operand_neq; [apply Hy | exact Hc] | exact Hf].
  rewrite replace_from_operators, replace_from_hit by (assumption || apply Hy).
  rewrite <- (app_nil_r p2) at 1. rewrite replace_from_operators by assumption.
  cbn [replace_from]. rewrite app_nil_r. reflexivity.
Qed.

(** The operands of the expression are the two tags. *)
Lemma fields_operators (p s : gostring) :
  operators p -> fields_from isValidOperator [] (p ++ s) = fields_from isValidOperator [] s.
Proof.
  induction 1 as [|c p Hc _ IH]; [reflexivity|].
  cbn [app fields_from]. rewrite Hc. exact IH.
Qed.

Lemma fields_operand (cur t s : gostring) (c : ascii) :
  Forall (fun c => isValidOperator c = false) t -> rev cur ++ t <> [] ->
  isValidOperator c = true ->
  fields_from isValidOperator cur (t ++ c :: s)
  = (rev cur ++ t) :: fields_from isValidOperator [] s.
Proof.
  intros Ht. revert cur. induction Ht as [|a t Ha _ IH]; intros cur Hne Hc.
  - rewrite app_nil_r in *. cbn [app fields_from]. rewrite Hc.
    destruct cur; [cbn in Hne; congruence | reflexivity].
  - cbn [app fields_from]. rewrite Ha, IH; [| |exact Hc].
    + cbn [rev]. rewrite <- app_assoc. reflexivity.
    + cbn [rev]. rewrite <- app_assoc. cbn. destruct (rev cur); discriminate.
Qed.

Lemma fields_two (x y p0 p1 p2 : gostring) :
  operand x -> operand y -> operators p0 -> operators p1 -> p1 <> [] -> operators p2 ->
  FieldsFunc (p0 ++ x ++ p1 ++ y ++ p2) isValidOperator = [x; y].
Proof.
  intros [Hx1 Hx2] [Hy1 Hy2] H0 H1 Hne H2. unfold FieldsFunc.
  rewrite fields_operators by exact H0.
  destruct H1 as [|c p1 Hc H1]; [congruence|]. cbn [app].
  rewrite (fields_operand [] x) by assumption. cbn [rev app].
  rewrite fields_operators by exact H1. f_equal.
  destruct H2 as [|d p2 Hd H2].
  - rewrite app_nil_r. apply (fields_plain [] y); assumption.
  - rewrite (fields_operand [] y) by assumption. cbn [rev app]. f_equal.
    rewrite <- (app_nil_r p2). rewrite fields_operators by exact H2. reflexivity.
Qed.

(** The longer tag is substituted first, and the first one when both
    have one length. *)
Lemma sortByLength_two (x y : gostring) :
  sortByLength [x; y] = if (length x <? length y)%nat then [y; x] else [x; y].
Proof.
  unfold sortByLength. cbn [fold_left insertByLength]. unfold Less.
  destruct (length x <? length y)%nat; reflexivity.
Qed.

(** A text holds no other text of its length, and no longer one. *)
Lemma HasPrefix_same_length (s old : gostring) :
  length s = length old -> HasPrefix s old = true -> s = old.
Proof.
  revert s. induction old as [|o old IH]; intros [|c s] Hlen; try discriminate.
  - reflexivity.
  - rewrite HasPrefix_cons. intros H. apply andb_true_iff in H as [Ho H].
    apply byte_eqb_eq in Ho. subst. f_equal. apply IH; [cbn in Hlen; lia | exact H].
Qed.

Lemma Contains_not_longer (s old : gostring) :
  (length s <= length old)%nat -> s <> old -> Contains s old = false.
Proof.
  intros Hlen Hne. destruct (Nat.eq_dec (length s) (length old)) as [Heq | Hlt].
  - destruct s as [|c s].
    + destruct old; [congruence | reflexivity].
    + rewrite Contains_cons, (Contains_longer s old) by (cbn in Heq; lia).
      rewrite orb_false_r. destruct (HasPrefix (c :: s) old) eqn:E; [|reflexivity].
      apply HasPrefix_same_length in E; [congruence | exact Heq].
  - apply Contains_longer. lia.
Qed.

Lemma Contains_two (x y p0 p1 p2 : gostring) (o : ascii) (pat : gostring) :
  operand x -> operand y -> isValidOperator o = true -> operators pat ->
  Contains (p0 ++ x ++ p1 ++ y ++ p2) (o :: pat)
  = Contains p0 (o :: pat) || Contains p1 (o :: pat) || Contains p2 (o :: pat).
Proof.
  intros Hx Hy Ho Hpat.
  assert (Hstop : forall c, isValidOperator c = false -> Forall (fun a => a <> c) (o :: pat)).
  { intros c Hc. apply (operators_neq (o :: pat) [] c); [constructor; assumption | exact Hc]. }
  assert (Hpass : forall (t rest : gostring),
             Forall (fun c => isValidOperator c = false) t ->
             Contains (t ++ rest) (o :: pat) = Contains rest (o :: pat)).
  { intros t rest Ht. apply Contains_tag, operand_neq; assumption. }
  destruct (operand_head x Hx) as (c & x' & -> & Hc).
  destruct (operand_head y Hy) as (d & y' & -> & Hd).
  destruct Hx as [_ Hx], Hy as [_ Hy]. inversion Hx; inversion Hy; subst.
  cbn [app]. rewrite Contains_stop by (discriminate || apply Hstop, Hc).
  rewrite Hpass by assumption.
  rewrite Contains_stop by (discriminate || apply Hstop, Hd).
  rewrite Hpass by assumption. apply orb_assoc.
Qed.

(** The expression is in normal form once the blanks are taken out. *)
Lemma normalise_two (x y p0 q1 p1 p2 : gostring) :
  plainTag x -> plainTag y -> operators p0 -> operators p1 -> operators p2 ->
  flat_map (fun c => if byte_eqb " "%char c then [] else [c]) q1 = p1 ->
  (forall o, o = "&"%char \/ o = "|"%char ->
             Contains p0 [o; o] = false /\ Contains p1 [o; o] = false
             /\ Contains p2 [o; o] = false) ->
  normalise (p0 ++ x ++ q1 ++ y ++ p2) = p0 ++ x ++ p1 ++ y ++ p2.
Proof.
  intros Hx Hy H0 H1 H2 Hq Hpairs.
  assert (Hxo : operand x) by (split; [apply Hx | apply plainTag_operators, Hx]).
  assert (Hyo : operand y) by (split; [apply Hy | apply plainTag_operators, Hy]).
  assert (Habsent : forall c, isValidOperator c = false -> (c = " "%char \/ c = ","%char) ->
                              Forall (fun a => a <> c) (p0 ++ x ++ p1 ++ y ++ p2)).
  { intros c Hc Hcases. repeat (apply Forall_app; split);
      first [ apply (operators_neq _ [] c); assumption
            | apply plainTag_bytes; [assumption | right; exact Hcases] ]. }
  unfold normalise. change (str " ") with [" "%char]. change (str "") with (@nil ascii).
  rewrite Replace_byte, !flat_map_app, Hq.
  rewrite !flat_map_absent
    by first [ apply (operators_neq _ [] " "%char); [assumption | reflexivity]
             | apply plainTag_bytes; [assumption | right; left; reflexivity] ].
  rewrite (Replace_absent _ (str ",") (str "&"))
    by (try discriminate; apply (Contains_byte_absent ","%char), Habsent; auto).
  rewrite (Replace_absent _ (str "&&") (str "&")), (Replace_absent _ (str "||") (str "|"));
    try discriminate; try reflexivity.
  - change (str "||") with ["|"%char; "|"%char].
    rewrite Contains_two by first [assumption | reflexivity | repeat constructor].
    destruct (Hpairs "|"%char ltac:(auto)) as (-> & -> & ->). reflexivity.
  - change (str "&&") with ["&"%char; "&"%char].
    rewrite Contains_two by first [assumption | reflexivity | repeat constructor].
    destruct (Hpairs "&"%char ltac:(auto)) as (-> & -> & ->). reflexivity.
Qed.

(** The expression after the substitution of both tags. *)
Lemma substitute_two (x y p0 p1 p2 : gostring) (tags : tagsMap)
    (q : tagsMap -> gostring -> bool) :
  plainTag x -> plainTag y -> x <> y ->
  operators p0 -> operators p1 -> p1 <> [] -> operators p2 ->
  (forall b, Contains (FormatBool b) (if (length x <? length y)%nat then x else y) = false) ->
  formatAndEvaluateExpression
    {| specTags := []; tagExpression := p0 ++ x ++ p1 ++ y ++ p2 |} tags q
  = evaluateExp <$> handleNegation (p0 ++ FormatBool (q tags x) ++ p1
                                       ++ FormatBool (q tags y) ++ p2).
Proof.
  intros Hx Hy Hne H0 H1 Hp1 H2 Hsecond.
  assert (Hxo : operand x) by (split; [apply Hx | apply plainTag_operators, Hx]).
  assert (Hyo : operand y) by (split; [apply Hy | apply plainTag_operators, Hy]).
  unfold formatAndEvaluateExpression, getOperatorsAndOperands. cbn [snd tagExpression].
  rewrite fields_two, sortByLength_two by assumption.
  destruct Hx as (_ & _ & Hxt), Hy as (_ & _ & Hyt).
  destruct (length x <? length y)%nat eqn:E; cbn [fold_left]; rewrite Hxt, Hyt.
  - apply Nat.ltb_lt in E.
    rewrite (replace_second y _ x) by (assumption || apply Contains_longer, E).
    rewrite (replace_first x _ (FormatBool (q tags y))) by (assumption || apply Hsecond).
    reflexivity.
  - apply Nat.ltb_ge in E.
    rewrite (replace_first x _ y)
      by (assumption || (apply Contains_not_longer; [exact E | congruence])).
    rewrite (replace_second y _ (FormatBool (q tags x))) by (assumption || apply Hsecond).
    reflexivity.
Qed.

Lemma evaluate_group (bx by_ : bool) :
  evaluateExp <$> handleNegation (str "!(" ++ FormatBool bx ++ str "&" ++ FormatBool by_
                                     ++ str ")")
  = Some (negb (bx && by_), None).
Proof. destruct bx, by_; vm_compute; reflexivity. Qed.

Lemma evaluate_negations (bx by_ : bool) :
  evaluateExp <$> handleNegation (str "!" ++ FormatBool bx ++ str "|!" ++ FormatBool by_ ++ [])
  = Some (negb (bx && by_), None).
Proof. destruct bx, by_; vm_compute; reflexivity. Qed.

(** C4: for tag names [x] and [y] that differ, of which the one that is
    substituted second (the shorter one; [y] when both have one length)
    occurs neither in [true] nor in [false], the negated group [!(x & y)]
    and the disjunction of the negated tags [!x | !y] have the same value
    for every list of tags: the negation of "both [x] and [y] are
    present". *)
Theorem de_morgan_tags (x y : gostring) (T : list gostring) :
  plainTag x -> plainTag y -> x <> y ->
  Contains (str "true") (if (length x <? length y)%nat then x else y) = false ->
  Contains (str "false") (if (length x <? length y)%nat then x else y) = false ->
  evaluate (str "!(" ++ x ++ str " & " ++ y ++ str ")") T
  = evaluate (str "!" ++ x ++ str " | !" ++ y) T /\
  evaluate (str "!(" ++ x ++ str " & " ++ y ++ str ")") T
  = Some (negb (isTagPresent (makeTagsMap T) x && isTagPresent (makeTagsMap T) y)).
Proof.
  intros Hx Hy Hne Htrue Hfalse.
  assert (Hsecond : forall b, Contains (FormatBool b)
                                (if (length x <? length y)%nat then x else y) = false)
    by (intros [|]; assumption).
  assert (Hgroup : evaluate (str "!(" ++ x ++ str " & " ++ y ++ str ")") T
                   = Some (negb (isTagPresent (makeTagsMap T) x
                                 && isTagPresent (makeTagsMap T) y))).
  { rewrite evaluate_unfold. unfold replaceSpecialChar, newScenarioFilterBasedOnTags.
    cbn [specTags tagExpression].
    rewrite (normalise_two x y (str "!(") (str " & ") (str "&") (str ")"));
      [| assumption | assumption | repeat constructor | repeat constructor
       | repeat constructor | reflexivity
       | intros o [-> | ->]; repeat split; reflexivity ].
    rewrite substitute_two, evaluate_group;
      [reflexivity | assumption | assumption | assumption | repeat constructor
      | repeat constructor | discriminate | repeat constructor | exact Hsecond]. }
  split; [|exact Hgroup]. rewrite Hgroup.
  rewrite evaluate_unfold. unfold replaceSpecialChar, newScenarioFilterBasedOnTags.
  cbn [specTags tagExpression].
  replace (str "!" ++ x ++ str " | !" ++ y) with (str "!" ++ x ++ str " | !" ++ y ++ [])
    by (rewrite app_nil_r; reflexivity).
  rewrite (normalise_two x y (str "!") (str " | !") (str "|!") []);
    [| assumption | assumption | repeat constructor | repeat constructor
     | constructor | reflexivity
     | intros o [-> | ->]; repeat split; reflexivity ].
  rewrite substitute_two, evaluate_negations;
    [reflexivity | assumption | assumption | assumption | repeat constructor
    | repeat constructor | discriminate | constructor | exact Hsecond].
Qed.

End TwoTags.

Section TwoTagsInstances.

Import GoStrings Filter TagExpressions.

(** The tags [a] and [b] as the law is written, on a scenario tagged
    [a]. *)
Lemma de_morgan_tags_witness :
  evaluate (str "!(" ++ str "a" ++ str " & " ++ str "b" ++ str ")") [str "a"]
  = evaluate (str "!" ++ str "a" ++ str " | !" ++ str "b") [str "a"] /\
  evaluate (str "!(" ++ str "a" ++ str " & " ++ str "b" ++ str ")") [str "a"]
  = Some (negb (isTagPresent (makeTagsMap [str "a"]) (str "a")
                && isTagPresent (makeTagsMap [str "a"]) (str "b"))).
Proof.
  apply (de_morgan_tags (str "a") (str "b") [str "a"]).
  - unfold plainTag. split; [cbv; discriminate|].
    split; [|vm_compute; reflexivity].
    repeat (constructor; [repeat split; first [reflexivity | discriminate] |]). constructor.
  - unfold plainTag. split; [cbv; discriminate|].
    split; [|vm_compute; reflexivity].
    repeat (constructor; [repeat split; first [reflexivity | discriminate] |]). constructor.
  - cbv. discriminate.
  - vm_compute. reflexivity.
  - vm_compute. reflexivity.
Defined.

(** C4 with the tags in the other order, on a scenario without tags: [a]
    is substituted second and is found in the [false] that [b] has
    become. *)
Lemma de_morgan_fails_reversed :
  evaluate (str "!(b & a)") [] = Some true /\ evaluate (str "!b | !a") [] = Some false.
Proof. split; vm_compute; reflexivity. Qed.

End TwoTagsInstances.

(** ** The theorems of the tag filter at concrete expressions *)

Section FilterInstances.

Import GoStrings Filter TagExpressions.

Local Ltac plain_tag :=
  unfold plainTag; split;
  [ cbv; discriminate
  | split; [ repeat (constructor; [repeat split; first [reflexivity | discriminate] |]);
             constructor
           | vm_compute; reflexivity ] ].

(** The expression [a && b] has no operator three times in a row. *)
Lemma replaceSpecialChar_idempotent_witness :
  replaceSpecialChar (replaceSpecialChar (newScenarioFilterBasedOnTags [] (str "a && b")))
  = replaceSpecialChar (newScenarioFilterBasedOnTags [] (str "a && b")).
Proof.
  apply (replaceSpecialChar_idempotent (newScenarioFilterBasedOnTags [] (str "a && b")));
    vm_compute; reflexivity.
Defined.

(** The tags [a], [b] and the tags [b], [a], [a]. *)
Lemma evaluate_tag_set_witness :
  evaluate (str "a & b") [str "a"; str "b"] = evaluate (str "a & b") [str "b"; str "a"; str "a"] /\
  evaluate (str "a & b") (map (fun tag => Replace tag (str " ") (str "")) [str "a"; str "b"])
  = evaluate (str "a & b") [str "a"; str "b"].
Proof.
  apply (evaluate_tag_set (str "a & b") [str "a"; str "b"] [str "b"; str "a"; str "a"]).
  intros tag. cbn [In]. tauto.
Defined.

(** The expression [a] on two lists of tags that differ in other tags. *)
Lemma evaluate_operands_only_witness :
  evaluate (str "a") [str "a"; str "b"] = evaluate (str "a") [str "a"; str "c"].
Proof.
  apply (evaluate_operands_only (str "a") [str "a"; str "b"] [str "a"; str "c"]).
  assert (E : FieldsFunc (normalise (str "a")) isValidOperator = [str "a"])
    by (vm_compute; reflexivity).
  rewrite E. constructor; [vm_compute; reflexivity | constructor].
Defined.

(** The tag name [smoke] on a scenario with the tags [smoke] and [fast]. *)
Lemma evaluate_plain_tag_witness :
  evaluate (str "smoke") [str "smoke"; str "fast"]
  = Some (isTagPresent (makeTagsMap [str "smoke"; str "fast"]) (str "smoke")) /\
  evaluate (str "!" ++ str "smoke") [str "smoke"; str "fast"]
  = Some (negb (isTagPresent (makeTagsMap [str "smoke"; str "fast"]) (str "smoke"))) /\
  (isTagPresent (makeTagsMap [str "smoke"; str "fast"]) (str "smoke") = true <->
   exists tag, In tag [str "smoke"; str "fast"] /\ Replace tag (str " ") (str "") = str "smoke").
Proof.
  apply (evaluate_plain_tag (str "smoke") [str "smoke"; str "fast"]). plain_tag.
Defined.

Lemma validateTagExpression_plain_tag_witness :
  validateTagExpression (str "smoke") = Some None /\
  validateTagExpression (str "!" ++ str "smoke") = Some None.
Proof.
  apply (validateTagExpression_plain_tag (str "smoke")). plain_tag.
Defined.

(** The expression [a&!((b)|c)&d]. *)
Lemma resolveBracketExpression_group_witness :
  resolveBracketExpression (str "a&" ++ str "!(" ++ str "(b)|c" ++ str ")" ++ str "&d")
  = Some (str "(b)|c").
Proof.
  apply (resolveBracketExpression_group (str "a&") (str "(b)|c") (str "&d")).
  - vm_compute. reflexivity.
  - apply (balancedText_group (str "b") (str "|c")).
    + apply balancedText_byte; [discriminate | discriminate | apply balancedText_nil].
    + apply balancedText_byte; [discriminate | discriminate |].
      apply balancedText_byte; [discriminate | discriminate | apply balancedText_nil].
Defined.

(** The expression [!(true&false]. *)
Lemma handleNegation_unclosed_witness :
  evaluateBrackets (str "!(" ++ FormatBool true ++ str "&" ++ FormatBool false)
  = Some (str "!(" ++ FormatBool true ++ str "&" ++ FormatBool false) /\
  (forall turns,
      negationLoop turns (str "!(" ++ FormatBool true ++ str "&" ++ FormatBool false) = None) /\
  handleNegation (str "!(" ++ FormatBool true ++ str "&" ++ FormatBool false) = None.
Proof.
  apply (handleNegation_unclosed (FormatBool true ++ str "&" ++ FormatBool false)).
  apply booleanText_and; apply booleanText_value.
Defined.

Lemma evaluate_unclosed_witness :
  evaluate (str "!(" ++ str "a") [str "a"] = None /\
  validateTagExpression (str "!(" ++ str "a") = None.
Proof.
  apply (evaluate_unclosed (str "a") [str "a"]). plain_tag.
Defined.

(** A specification with a scenario tagged [a], a comment and a scenario
    without tags. *)
Local Abbreviation checkout :=
  {| SpecHeading := str "checkout"; SpecTags := None;
     Items := [ScenarioItem {| Heading := str "pay"; Tags := Some [str "a"] |};
               OtherItem (str "a comment");
               ScenarioItem {| Heading := str "cancel"; Tags := None |}] |}.

Local Abbreviation checkoutPay :=
  {| SpecHeading := str "checkout"; SpecTags := None;
     Items := [ScenarioItem {| Heading := str "pay"; Tags := Some [str "a"] |};
               OtherItem (str "a comment")] |}.

Lemma filterSpecsByTags_selection_witness :
  sublist (map SpecHeading [checkoutPay]) (map SpecHeading [checkout]) /\
  Forall (fun spec' =>
            Scenarios spec' <> [] /\
            exists spec, In spec [checkout] /\ SpecHeading spec' = SpecHeading spec /\
                         SpecTags spec' = SpecTags spec /\
                         sublist (Items spec') (Items spec) /\
                         List.filter (fun item => negb (isScenario item)) (Items spec')
                         = List.filter (fun item => negb (isScenario item)) (Items spec))
         [checkoutPay].
Proof.
  apply (filterSpecsByTags_selection (str "a") [checkout] [checkoutPay]).
  vm_compute. reflexivity.
Defined.

Lemma filterSpecsByTags_by_value_witness :
  filterSpecsByTags [checkout] (str "a") = FilterSpec.filterSpecs (str "a") [checkout].
Proof.
  apply (filterSpecsByTags_by_value (str "a") [checkout]); vm_compute; reflexivity.
Defined.

(** The index filter made for the second scenario. *)
Lemma scenarioIndexFilterToRetain_spec_witness :
  exists spec',
    Specification_Filter checkout (newScenarioIndexFilterToRetain 1) = Some spec' /\
    SpecHeading spec' = SpecHeading checkout /\ SpecTags spec' = SpecTags checkout /\
    List.filter (fun item => negb (isScenario item)) (Items spec')
    = List.filter (fun item => negb (isScenario item)) (Items checkout) /\
    Scenarios spec'
    = match (if 1 <? 0 then None else Scenarios checkout !! Z.to_nat 1) with
      | Some scn => [scn]
      | None => []
      end.
Proof.
  apply (scenarioIndexFilterToRetain_spec checkout 1). vm_compute. reflexivity.
Defined.

(** A second specification, with one scenario: the third of the two
    specifications together. *)
Local Abbreviation returns :=
  {| SpecHeading := str "returns"; SpecTags := None;
     Items := [ScenarioItem {| Heading := str "refund"; Tags := None |}] |}.

Lemma filterSpecsItems_index_witness :
  exists result,
    filterSpecsItems [checkout; returns] (newScenarioIndexFilterToRetain 2) = Some result /\
    match (if 2 <? 0 then None
           else concat (map Scenarios [checkout; returns]) !! Z.to_nat 2) with
    | Some scn =>
        exists before spec after spec',
          [checkout; returns] = before ++ spec :: after /\
          (length (concat (map Scenarios before)) <= Z.to_nat 2)%nat /\
          Scenarios spec !! (Z.to_nat 2 - length (concat (map Scenarios before)))%nat
          = Some scn /\
          result = [spec'] /\
          SpecHeading spec' = SpecHeading spec /\ SpecTags spec' = SpecTags spec /\
          List.filter (fun item => negb (isScenario item)) (Items spec')
          = List.filter (fun item => negb (isScenario item)) (Items spec) /\
          Scenarios spec' = [scn]
    | None => result = []
    end.
Proof.
  apply (filterSpecsItems_index [checkout; returns] 2). vm_compute. reflexivity.
Defined.

End FilterInstances.

(** ** The caches of the gatherer *)

Section StepIndex.

Import InfoGatherer.

Context {Specification Concept TestRunner : Type}.
Variable getStepsFromSpec : Specification -> list StepValue.
Variable getStepsFromConcept : Concept -> list StepValue.
Variable getImplementedSteps : TestRunner -> list StepValue.

Local Abbreviation Gatherer := (SpecInfoGatherer Specification Concept).

(** Every entry stands under the key of the step value it holds. *)
Local Abbreviation keyed cache :=
  (forall key step, (cache : gmap string StepValue) !! key = Some step -> stepValue step = key).

Lemma firstWriter_Some (key : string) (steps : list StepValue) (step : StepValue) :
  firstWriter key steps = Some step -> In step steps /\ stepValue step = key.
Proof.
  unfold firstWriter. intros H. apply List.find_some in H as [Hin H].
  split; [exact Hin | apply String.eqb_eq, H].
Qed.

Lemma firstWriter_None (key : string) (steps : list StepValue) :
  firstWriter key steps = None <-> forall step, In step steps -> stepValue step <> key.
Proof.
  unfold firstWriter. split.
  - intros H step Hin Heq. apply (List.find_none _ _ H) in Hin.
    apply String.eqb_neq in Hin. contradiction.
  - intros H. destruct (List.find _ steps) as [step|] eqn:E; [|reflexivity].
    apply List.find_some in E as [Hin E]. apply String.eqb_eq in E.
    exfalso. exact (H step Hin E).
Qed.

Lemma fold_addStep_added (steps : list StepValue) (cache : gmap string StepValue) :
  Forall (fun step => is_Some (fold_left addStep steps cache !! stepValue step)) steps.
Proof.
  apply Forall_forall. intros step Hin. apply list_elem_of_In in Hin.
  rewrite fold_addStep_lookup.
  destruct (cache !! stepValue step); [eauto|].
  destruct (firstWriter (stepValue step) steps) eqn:E; [eauto|].
  exfalso. exact (proj1 (firstWriter_None _ _) E step Hin eq_refl).
Qed.

Lemma fold_addStep_idem (steps : list StepValue) (cache : gmap string StepValue) :
  fold_left addStep steps (fold_left addStep steps cache) = fold_left addStep steps cache.
Proof.
  apply map_eq. intros key. rewrite !fold_addStep_lookup.
  destruct (cache !! key); [reflexivity|].
  destruct (firstWriter key steps); reflexivity.
Qed.

(** X15: adding steps to the cache a second time changes nothing; after
    the addition every step of the list has an entry under its key, and an
    entry that a key had already is the one it keeps. *)
Theorem addToStepsCache_idempotent (s : Gatherer) (allSteps : list StepValue) :
  addToStepsCache (addToStepsCache s allSteps) allSteps = addToStepsCache s allSteps /\
  Forall (fun step => is_Some (stepsCache (addToStepsCache s allSteps) !! stepValue step))
         allSteps /\
  stepsCache s ⊆ stepsCache (addToStepsCache s allSteps).
Proof.
  repeat split.
  - unfold addToStepsCache. cbn [specsCache conceptsCache stepsCache].
    rewrite fold_addStep_idem. reflexivity.
  - apply fold_addStep_added.
  - apply map_subseteq_spec. intros key step H.
    cbn [addToStepsCache stepsCache]. rewrite fold_addStep_lookup, H. reflexivity.
Qed.

(** X16: the cache after [initStepsCache] holds every entry under the key
    of its step value; [GetAvailableSteps] then returns no two steps with
    the same step value, and returns a step value iff a step of one of the
    three sources has it. *)
Theorem initStepsCache_index (s : Gatherer) (runner : TestRunner) :
  let s' := initStepsCache getStepsFromSpec getStepsFromConcept getImplementedSteps s runner in
  let allSteps := getImplementedSteps runner
                  ++ getStepsFromCachedConcepts getStepsFromConcept s
                  ++ getStepsFromCachedSpecs getStepsFromSpec s in
  (forall key step, stepsCache s' !! key = Some step -> stepValue step = key) /\
  NoDup (map stepValue (GetAvailableSteps _ _ s')) /\
  forall key, In key (map stepValue (GetAvailableSteps _ _ s')) <->
              exists step, In step allSteps /\ stepValue step = key.
Proof.
  cbn zeta.
  set (allSteps := getImplementedSteps runner
                   ++ getStepsFromCachedConcepts getStepsFromConcept s
                   ++ getStepsFromCachedSpecs getStepsFromSpec s).
  assert (Hcache : stepsCache (initStepsCache getStepsFromSpec getStepsFromConcept
                                 getImplementedSteps s runner)
                   = fold_left addStep allSteps ∅).
  { unfold initStepsCache, addToStepsCache. cbn [stepsCache]. subst allSteps.
    rewrite app_assoc. reflexivity. }
  assert (Hkeyed : forall key step,
             fold_left addStep allSteps (∅ : gmap string StepValue) !! key = Some step ->
             stepValue step = key).
  { apply fold_addStep_keys. intros key step. rewrite lookup_empty. discriminate. }
  assert (Hvalues : map stepValue (snd <$> map_to_list (fold_left addStep allSteps ∅))
                    = (map_to_list (fold_left addStep allSteps ∅)).*1).
  { assert (Hall : Forall (fun entry : string * StepValue => stepValue (snd entry) = fst entry)
                           (map_to_list (fold_left addStep allSteps ∅))).
    { apply Forall_forall. intros [key step] Hin. apply elem_of_map_to_list in Hin.
      cbn. apply Hkeyed, Hin. }
    induction Hall as [|entry entries Hentry _ IH]; [reflexivity|].
    cbn. rewrite Hentry. f_equal. exact IH. }
  unfold GetAvailableSteps. rewrite Hcache, Hvalues. repeat split.
  - exact Hkeyed.
  - apply NoDup_fst_map_to_list.
  - intros Hin. apply list_elem_of_In, list_elem_of_fmap in Hin as ([key' step] & -> & Hin).
    apply elem_of_map_to_list in Hin. cbn. rewrite fold_addStep_lookup, lookup_empty in Hin.
    apply firstWriter_Some in Hin as [Hin Hkey]. exists step. auto.
  - intros (step & Hin & Hkey). apply list_elem_of_In, list_elem_of_fmap.
    destruct (fold_left addStep allSteps ∅ !! key) as [held|] eqn:E.
    + exists (key, held). split; [reflexivity|]. apply elem_of_map_to_list, E.
    + rewrite fold_addStep_lookup, lookup_empty in E.
      exfalso. exact (proj1 (firstWriter_None _ _) E step Hin Hkey).
Qed.

End StepIndex.

Section EventFacts.

Import InfoGatherer GathererEvents.

Context {Specification ConceptStep : Type}.
Variable getStepsFromSpec : Specification -> list StepValue.
Variable getStepsFromConcept : Concept ConceptStep -> list StepValue.
Variable getParsedSpecs : list string -> list Specification.
Variable ParseFile : string -> option (list ConceptStep).
Variables IsSpec IsConcept : string -> bool.
Variable Abs : string -> option string.

Local Abbreviation Gatherer := (SpecInfoGatherer Specification (Concept ConceptStep)).
Local Abbreviation handle :=
  (handleEvent Specification ConceptStep getStepsFromSpec getStepsFromConcept
               getParsedSpecs ParseFile IsSpec IsConcept Abs).
Local Abbreviation specModify :=
  (onSpecFileModify Specification ConceptStep getStepsFromSpec getParsedSpecs).
Local Abbreviation conceptModify :=
  (onConceptFileModify Specification ConceptStep getStepsFromConcept ParseFile).

Lemma onSpecFileModify_caches (s : Gatherer) (file : string) :
  specsCache (specModify s file)
  = match getParsedSpecs [file] with
    | parsedSpec :: _ => <[file := default [] (specsCache s !! file) ++ [parsedSpec]]> (specsCache s)
    | [] => specsCache s
    end /\
  conceptsCache (specModify s file) = conceptsCache s /\
  stepsCache (specModify s file)
  = fold_left addStep (flat_map getStepsFromSpec (take 1 (getParsedSpecs [file]))) (stepsCache s).
Proof.
  unfold onSpecFileModify. destruct (getParsedSpecs [file]) as [|parsedSpec rest].
  - repeat split.
  - cbn [take flat_map]. rewrite app_nil_r. repeat split.
Qed.

Lemma handle_spec (s : Gatherer) (name file : string) (op : Op) :
  Abs name = Some file -> IsSpec file = true ->
  handle s {| Name := name; EventOp := op |}
  = if (op =? Create)%N || (op =? Write)%N then specModify s file
    else if (op =? Rename)%N || (op =? Remove)%N then onSpecFileRemove _ _ s file
    else s.
Proof.
  intros Habs Hspec. unfold handleEvent, onFileAdd, onFileModify, onFileRename, onFileRemove.
  cbn [Name EventOp]. rewrite Habs, Hspec. cbn [orb].
  destruct (op =? Create)%N, (op =? Write)%N, (op =? Rename)%N, (op =? Remove)%N; reflexivity.
Qed.

(** X17: a spec file is written and then removed: the file has no
    entry in the specs cache any more, the entries of the other files and
    the concepts cache are as before the write, and [GetAvailableSpecs]
    returns no specification it did not return before; but the steps cache
    keeps what the write added, so every step of the specification that was
    parsed is still there. *)
Theorem handleEvent_write_remove (s : Gatherer) (name file : string) :
  Abs name = Some file -> IsSpec file = true ->
  let written := handle s {| Name := name; EventOp := Write |} in
  let removed := handle written {| Name := name; EventOp := Remove |} in
  specsCache removed !! file = None /\
  (forall other, other <> file -> specsCache removed !! other = specsCache s !! other) /\
  conceptsCache removed = conceptsCache s /\
  (forall spec, In spec (GetAvailableSpecs _ _ removed) -> In spec (GetAvailableSpecs _ _ s)) /\
  stepsCache removed = stepsCache written /\
  Forall (fun step => is_Some (stepsCache removed !! stepValue step))
         (flat_map getStepsFromSpec (take 1 (getParsedSpecs [file]))).
Proof.
  intros Habs Hspec. cbn zeta. rewrite !(handle_spec _ name file _ Habs Hspec).
  cbn [N.eqb Pos.eqb Create Write Rename Remove orb].
  destruct (onSpecFileModify_caches s file) as (Hspecs & Hconcepts & Hsteps).
  unfold GetAvailableSpecs, onSpecFileRemove. cbn [specsCache conceptsCache stepsCache].
  assert (Hothers : forall other, other <> file ->
            delete file (specsCache (specModify s file)) !! other = specsCache s !! other).
  { intros other Hother. rewrite lookup_delete_ne by congruence. rewrite Hspecs.
    destruct (getParsedSpecs [file]); [reflexivity|].
    apply lookup_insert_ne. congruence. }
  split; [apply lookup_delete_eq|]. split; [exact Hothers|]. split; [exact Hconcepts|].
  split; [|split; [reflexivity | rewrite Hsteps; apply fold_addStep_added]].
  intros spec Hin. apply in_flat_map in Hin as ([file' specs] & Hentry & Hin).
  apply in_flat_map. exists (file', specs). split; [|exact Hin].
  apply list_elem_of_In, elem_of_map_to_list in Hentry.
  apply list_elem_of_In, elem_of_map_to_list.
  destruct (decide (file' = file)) as [-> | Hne].
  - rewrite lookup_delete_eq in Hentry. discriminate.
  - rewrite <- (Hothers file' Hne). exact Hentry.
Qed.

(** X18: each Create or Write event of a spec file appends the
    specification the parser reads to the entry of the file: after [n]
    events the entry holds what it held before, followed by [n] copies. The
    entries of the other files do not change. *)
Theorem handleEvent_writes_accumulate (s : Gatherer) (name file : string) (ops : list Op) :
  Abs name = Some file -> IsSpec file = true ->
  Forall (fun op => op = Create \/ op = Write) ops ->
  let s' := fold_left (fun s op => handle s {| Name := name; EventOp := op |}) ops s in
  default [] (specsCache s' !! file)
  = default [] (specsCache s !! file)
    ++ concat (repeat (take 1 (getParsedSpecs [file])) (length ops)) /\
  forall other, other <> file -> specsCache s' !! other = specsCache s !! other.
Proof.
  intros Habs Hspec Hops. cbn zeta. revert s.
  induction Hops as [|op ops Hop _ IH]; intros s.
  - cbn. rewrite app_nil_r. auto.
  - cbn [fold_left length repeat concat].
    destruct (IH (handle s {| Name := name; EventOp := op |})) as [IH1 IH2].
    rewrite (handle_spec _ name file _ Habs Hspec) in IH1, IH2.
    rewrite (handle_spec _ name file _ Habs Hspec).
    assert (Hmod : (op =? Create)%N || (op =? Write)%N = true)
      by (destruct Hop as [-> | ->]; reflexivity).
    rewrite Hmod in *.
    destruct (onSpecFileModify_caches s file) as (Hspecs & _ & _).
    split.
    + rewrite IH1, Hspecs, app_assoc. f_equal.
      destruct (getParsedSpecs [file]) as [|parsedSpec rest].
      * cbn. rewrite app_nil_r. reflexivity.
      * rewrite lookup_insert_eq. reflexivity.
    + intros other Hother. rewrite (IH2 other Hother), Hspecs.
      destruct (getParsedSpecs [file]); [reflexivity|].
      apply lookup_insert_ne. congruence.
Qed.

(** X19: an event changes the gatherer only if the absolute path is
    found, the file is a spec or a concept file, and the operation is
    exactly one of Create, Write, Rename and Remove: an operation with two
    bits set, such as Write with Chmod, is ignored. Rename does what Remove
    does. *)
Theorem handleEvent_ignored (s : Gatherer) (event : Event) :
  (Abs (Name event) = None \/
   (exists file, Abs (Name event) = Some file /\ IsSpec file = false /\ IsConcept file = false) \/
   ~ In (EventOp event) [Create; Write; Rename; Remove]) ->
  handle s event = s /\
  handle s {| Name := Name event; EventOp := Rename |}
  = handle s {| Name := Name event; EventOp := Remove |}.
Proof.
  intros H. split.
  - unfold handleEvent. destruct H as [-> | [(file & -> & -> & ->) | Hop]]; [reflexivity..|].
    destruct (Abs (Name event)); [|reflexivity].
    destruct (IsSpec s0 || IsConcept s0); [|reflexivity].
    destruct (N.eqb_spec (EventOp event) Create) as [E|_]; [exfalso; apply Hop; rewrite E; cbn; auto 6|].
    destruct (N.eqb_spec (EventOp event) Write) as [E|_]; [exfalso; apply Hop; rewrite E; cbn; auto 6|].
    destruct (N.eqb_spec (EventOp event) Rename) as [E|_]; [exfalso; apply Hop; rewrite E; cbn; auto 6|].
    destruct (N.eqb_spec (EventOp event) Remove) as [E|_]; [exfalso; apply Hop; rewrite E; cbn; auto 6|].
    reflexivity.
  - unfold handleEvent, onFileRename. cbn [Name EventOp].
    destruct (Abs (Name event)); [|reflexivity].
    destruct (IsSpec s0 || IsConcept s0); reflexivity.
Qed.

Lemma flat_map_map {A B C : Type} (f : A -> B) (g : B -> list C) (l : list A) :
  flat_map g (map f l) = flat_map (fun x => g (f x)) l.
Proof.
  induction l as [|x l IH]; [reflexivity | cbn; rewrite IH; reflexivity].
Qed.

Lemma fold_concepts (file : string) (concepts : list ConceptStep) (s : Gatherer) :
  let s' := fold_left (fun s concept =>
                         let c := {| ConceptStep_ := concept; FileName := file |} in
                         let s := addToConceptsCache _ _ s file c in
                         addToStepsCache s (getStepsFromConcept c))
                      concepts s in
  specsCache s' = specsCache s /\
  default [] (conceptsCache s' !! file)
  = default [] (conceptsCache s !! file)
    ++ map (fun concept => {| ConceptStep_ := concept; FileName := file |}) concepts /\
  (forall other, other <> file -> conceptsCache s' !! other = conceptsCache s !! other) /\
  stepsCache s'
  = fold_left addStep
      (flat_map (fun concept =>
                   getStepsFromConcept {| ConceptStep_ := concept; FileName := file |}) concepts)
      (stepsCache s).
Proof.
  cbn zeta. revert s. induction concepts as [|concept concepts IH]; intros s.
  - cbn. rewrite app_nil_r. auto.
  - cbn [fold_left map flat_map].
    destruct (IH (addToStepsCache (addToConceptsCache _ _ s file
                    {| ConceptStep_ := concept; FileName := file |})
                    (getStepsFromConcept {| ConceptStep_ := concept; FileName := file |})))
      as (H1 & H2 & H3 & H4).
    rewrite H1, H2, H4. cbn [addToStepsCache addToConceptsCache specsCache conceptsCache stepsCache].
    repeat split.
    + rewrite lookup_insert_eq. cbn [default id]. rewrite <- app_assoc. reflexivity.
    + intros other Hother. rewrite (H3 other Hother).
      cbn [addToStepsCache addToConceptsCache conceptsCache].
      apply lookup_insert_ne. congruence.
    + rewrite fold_left_app. reflexivity.
Qed.

(** X20: a concept file is modified: when the file does not parse the
    gatherer is unchanged; otherwise the concepts of the file are appended,
    in their order and with the name of the file, to the entry of the file,
    the other entries and the specs cache are unchanged, and every step of
    these concepts has an entry in the steps cache. *)
Theorem onConceptFileModify_spec (s : Gatherer) (file : string) :
  let s' := onConceptFileModify _ _ getStepsFromConcept ParseFile s file in
  match ParseFile file with
  | None => s' = s
  | Some concepts =>
      let added := map (fun concept => {| ConceptStep_ := concept; FileName := file |}) concepts in
      specsCache s' = specsCache s /\
      default [] (conceptsCache s' !! file) = default [] (conceptsCache s !! file) ++ added /\
      (forall other, other <> file -> conceptsCache s' !! other = conceptsCache s !! other) /\
      stepsCache s ⊆ stepsCache s' /\
      Forall (fun step => is_Some (stepsCache s' !! stepValue step))
             (flat_map getStepsFromConcept added)
  end.
Proof.
  cbn zeta. unfold onConceptFileModify.
  destruct (ParseFile file) as [concepts|]; [|reflexivity].
  cbn zeta. destruct (fold_concepts file concepts s) as (H1 & H2 & H3 & H4).
  cbn zeta in H1, H2, H3, H4.
  repeat split; [exact H1 | exact H2 | exact H3 | |].
  - rewrite H4. apply map_subseteq_spec. intros key step H.
    rewrite fold_addStep_lookup, H. reflexivity.
  - rewrite H4.
    rewrite flat_map_map.
    apply fold_addStep_added.
Qed.

End EventFacts.

Section SpecsCache.

Import InfoGatherer GathererEvents.

Context {Specification ConceptStep : Type}.
Variable specFileName : Specification -> string.
Variable FindSpecFilesIn : list string.
Variable getParsedSpecs : list string -> list Specification.

Local Abbreviation Gatherer := (SpecInfoGatherer Specification (Concept ConceptStep)).

Lemma flat_map_snd_append {A : Type} (m : gmap string (list A)) (key : string) (value : A) :
  Permutation (flat_map snd (map_to_list (<[key := default [] (m !! key) ++ [value]]> m)))
              (value :: flat_map snd (map_to_list m)).
Proof.
  destruct (m !! key) as [held|] eqn:E; cbn [default].
  - rewrite <- insert_delete_eq.
    rewrite (Permutation_flat_map snd
               (map_to_list_insert (delete key m) key (held ++ [value])
                  (lookup_delete_eq m key))).
    rewrite <- (Permutation_flat_map snd (map_to_list_delete m key held E)).
    cbn [flat_map snd]. rewrite <- app_assoc. cbn [app].
    symmetry. apply Permutation_middle.
  - rewrite (Permutation_flat_map snd (map_to_list_insert m key ([] ++ [value]) E)).
    reflexivity.
Qed.

Lemma fold_addToSpecsCache (specs : list Specification) (s : Gatherer) :
  let s' := fold_left (fun s spec => addToSpecsCache _ _ s (specFileName spec) spec) specs s in
  Permutation (GetAvailableSpecs _ _ s') (GetAvailableSpecs _ _ s ++ specs) /\
  (forall file, default [] (specsCache s' !! file)
                = default [] (specsCache s !! file)
                  ++ List.filter (fun spec => String.eqb (specFileName spec) file) specs) /\
  conceptsCache s' = conceptsCache s /\ stepsCache s' = stepsCache s.
Proof.
  cbn zeta. revert s. induction specs as [|spec specs IH]; intros s.
  - cbn [fold_left List.filter]. rewrite app_nil_r.
    split; [reflexivity|]. split; [|split; reflexivity].
    intros file. now rewrite app_nil_r.
  - cbn [fold_left].
    destruct (IH (addToSpecsCache _ _ s (specFileName spec) spec)) as (Hp & Hl & Hc & Hs).
    rewrite Hc, Hs. split; [|split; [|split; reflexivity]].
    + rewrite Hp. unfold GetAvailableSpecs, addToSpecsCache. cbn [specsCache].
      rewrite flat_map_snd_append. cbn [app]. apply Permutation_middle.
    + intros file. rewrite Hl. cbn [addToSpecsCache specsCache List.filter].
      destruct (String.eqb_spec (specFileName spec) file) as [<- | Hne].
      * rewrite lookup_insert_eq. cbn [default id]. rewrite <- app_assoc. reflexivity.
      * rewrite lookup_insert_ne by exact Hne. reflexivity.
Qed.

(** X26: [addToSpecsCache] adds one specification to those
    [GetAvailableSpecs] returns, and takes none away: a specification that
    is added twice is returned twice. The other two caches are not
    touched. *)
Theorem GetAvailableSpecs_addToSpecsCache (s : Gatherer) (key : string) (value : Specification) :
  Permutation (GetAvailableSpecs _ _ (addToSpecsCache _ _ s key value))
              (value :: GetAvailableSpecs _ _ s) /\
  conceptsCache (addToSpecsCache _ _ s key value) = conceptsCache s /\
  stepsCache (addToSpecsCache _ _ s key value) = stepsCache s.
Proof.
  split; [|split; reflexivity].
  unfold GetAvailableSpecs, addToSpecsCache. cbn [specsCache].
  apply flat_map_snd_append.
Qed.

(** X27: after [initSpecsCache] the entry of a file holds the parsed
    specifications that carry the name of the file, in the order of the
    parser, whatever the specs cache held before; [GetAvailableSpecs]
    returns the parsed specifications, each as often as the parser gave
    it. *)
Theorem initSpecsCache_spec (s : Gatherer) :
  let s' := initSpecsCache _ ConceptStep specFileName FindSpecFilesIn getParsedSpecs s in
  let parsedSpecs := getParsedSpecs FindSpecFilesIn in
  Permutation (GetAvailableSpecs _ _ s') parsedSpecs /\
  (forall file, default [] (specsCache s' !! file)
                = List.filter (fun spec => String.eqb (specFileName spec) file) parsedSpecs) /\
  conceptsCache s' = conceptsCache s /\ stepsCache s' = stepsCache s.
Proof.
  cbn zeta. unfold initSpecsCache.
  destruct (fold_addToSpecsCache (getParsedSpecs FindSpecFilesIn)
              {| specsCache := ∅; conceptsCache := conceptsCache s;
                 stepsCache := stepsCache s |}) as (Hp & Hl & Hc & Hs).
  cbn zeta in Hp, Hl, Hc, Hs. split; [|split; [|split]].
  - rewrite Hp. unfold GetAvailableSpecs. cbn [specsCache]. rewrite map_to_list_empty.
    reflexivity.
  - intros file. rewrite Hl. cbn [specsCache]. rewrite lookup_empty. reflexivity.
  - exact Hc.
  - exact Hs.
Qed.

End SpecsCache.

(** ** The answers of the API message handler *)

Section ApiResponses.

Import Api.

Context {ProtoStepValue ProtoSpec ConceptInfo TextInfo : Type}.
Variable env : Collaborators ProtoStepValue ProtoSpec ConceptInfo TextInfo.
Variable uniqueID : Z.

Local Abbreviation APIMessage := (APIMessage ProtoStepValue ProtoSpec ConceptInfo TextInfo).

(** The requests on which [getStepValueRequestResponse] takes its error
    return. *)
Local Abbreviation stepValueFails apiMessage :=
  (match MessageType apiMessage with
   | GetStepValueRequest =>
       match ExtractStepValueAndParams env (GetStepText apiMessage)
                                       (GetHasInlineTable apiMessage) with
       | Err _ => true
       | Ok _ => false
       end
   | _ => false
   end).

Lemma dispatch_MessageType (apiMessage : APIMessage) :
  MessageType (dispatch env uniqueID apiMessage)
  = if libPathFails env apiMessage || stepValueFails apiMessage then ErrorResponse
    else match MessageType apiMessage with
         | GetProjectRootRequest => GetProjectRootResponse
         | GetInstallationRootRequest => GetInstallationRootResponse
         | GetAllStepsRequest => GetAllStepResponse
         | GetAllSpecsRequest => GetAllSpecsResponse
         | GetStepValueRequest => GetStepValueResponse
         | GetLanguagePluginLibPathRequest => GetLanguagePluginLibPathResponse
         | GetAllConceptsRequest => GetAllConceptsResponse
         | PerformRefactoringRequest => PerformRefactoringResponse
         | ExtractConceptRequest => ExtractConceptResponse
         | FormatSpecsRequest => FormatSpecsResponse
         | _ => UnsupportedApiMessageResponse
         end.
Proof.
  unfold dispatch, libPathFails.
  destruct (MessageType apiMessage); try reflexivity.
  - unfold getStepValueRequestResponse.
    destruct (ExtractStepValueAndParams env _ _); reflexivity.
  - unfold getLanguagePluginLibPath.
    destruct (GetInstallDir env _); [|reflexivity].
    destruct (GetRunnerInfo env _); reflexivity.
  - unfold performRefactoring.
    destruct (PerformRephraseRefactoring _ _ _ _ env _ _) as [[success errors] files].
    reflexivity.
  - unfold extractConcept.
    destruct (ExtractConcept _ _ _ _ env _) as [[success err] files]. reflexivity.
Qed.

Lemma dispatch_Error (apiMessage : APIMessage) :
  (exists err, payload (dispatch env uniqueID apiMessage) = Error err)
  <-> MessageType (dispatch env uniqueID apiMessage) = ErrorResponse.
Proof.
  unfold dispatch.
  destruct (MessageType apiMessage); cbn;
    try (split; [intros [err H]; discriminate H | discriminate]).
  - unfold getStepValueRequestResponse.
    destruct (ExtractStepValueAndParams env _ _); cbn.
    + split; [intros [err H]; discriminate H | discriminate].
    + split; eauto.
  - unfold getLanguagePluginLibPath.
    destruct (GetInstallDir env _); [|cbn; split; eauto].
    destruct (GetRunnerInfo env _); cbn; [|split; eauto].
    split; [intros [err H]; discriminate H | discriminate].
  - unfold performRefactoring.
    destruct (PerformRephraseRefactoring _ _ _ _ env _ _) as [[success errors] files].
    split; [intros [err H]; discriminate H | discriminate].
  - unfold extractConcept.
    destruct (ExtractConcept _ _ _ _ env _) as [[success err] files].
    split; [intros [err' H]; discriminate H | discriminate].
Qed.

(** X21: the identifier of the message that is sent back is the one of
    the request, except when the bytes do not decode or the handler of the
    library path request takes an error return: then it is the fresh
    identifier. *)
Theorem MessageBytesReceived_MessageId (bytesRead : list ascii) :
  MessageId (MessageBytesReceived env uniqueID bytesRead)
  = match Unmarshal env bytesRead with
    | Err _ => Some uniqueID
    | Ok apiMessage =>
        if libPathFails env apiMessage then Some uniqueID else MessageId apiMessage
    end.
Proof.
  unfold MessageBytesReceived. destruct (Unmarshal env bytesRead) as [apiMessage|err].
  - apply dispatch_MessageId.
  - reflexivity.
Qed.

(** X22: the message that is sent back has the type of a response, never
    that of a request. It is an error response exactly when the bytes do
    not decode, when the parser rejects the step text of a step value
    request, or when the library path request fails; and it carries an
    error text exactly when it is an error response. *)
Theorem MessageBytesReceived_MessageType (bytesRead : list ascii) :
  let response := MessageBytesReceived env uniqueID bytesRead in
  In (MessageType response)
     [GetProjectRootResponse; GetInstallationRootResponse; GetAllStepResponse;
      GetAllSpecsResponse; GetStepValueResponse; GetLanguagePluginLibPathResponse;
      ErrorResponse; GetAllConceptsResponse; PerformRefactoringResponse;
      ExtractConceptResponse; FormatSpecsResponse; UnsupportedApiMessageResponse] /\
  (MessageType response = ErrorResponse <->
   match Unmarshal env bytesRead with
   | Err _ => True
   | Ok apiMessage => libPathFails env apiMessage || stepValueFails apiMessage = true
   end) /\
  ((exists err, payload response = Error err) <-> MessageType response = ErrorResponse).
Proof.
  cbn zeta. unfold MessageBytesReceived.
  destruct (Unmarshal env bytesRead) as [apiMessage|err].
  - split; [|split; [|apply dispatch_Error]].
    + rewrite dispatch_MessageType.
      destruct (libPathFails env apiMessage || stepValueFails apiMessage); [cbn; tauto|].
      destruct (MessageType apiMessage); cbn; tauto.
    + rewrite dispatch_MessageType.
      destruct (libPathFails env apiMessage || stepValueFails apiMessage) eqn:E.
      * tauto.
      * split; [|discriminate]. unfold libPathFails in E.
        destruct (MessageType apiMessage); discriminate.
  - cbn. split; [tauto|]. split; [tauto|]. split; eauto.
Qed.

(** X23: a message that decodes and whose type is none of the ten
    request types, a response type for one, is answered with the
    unsupported message response, under the identifier of the message. *)
Theorem MessageBytesReceived_unsupported (bytesRead : list ascii) (apiMessage : APIMessage) :
  Unmarshal env bytesRead = Ok apiMessage ->
  ~ In (MessageType apiMessage)
       [GetProjectRootRequest; GetInstallationRootRequest; GetAllStepsRequest;
        GetAllSpecsRequest; GetStepValueRequest; GetLanguagePluginLibPathRequest;
        GetAllConceptsRequest; PerformRefactoringRequest; ExtractConceptRequest;
        FormatSpecsRequest] ->
  MessageBytesReceived env uniqueID bytesRead
  = {| MessageId := MessageId apiMessage; MessageType := UnsupportedApiMessageResponse;
       payload := UnsupportedResponse _ _ _ _ |}.
Proof.
  intros Hdecode Htype. unfold MessageBytesReceived. rewrite Hdecode.
  unfold dispatch.
  destruct (MessageType apiMessage); try reflexivity; exfalso; apply Htype; cbn; tauto.
Qed.

End ApiResponses.

(** ** What the console prints *)

Section ReporterTrace.

Import GoInt Reporter.
Local Open Scope string_scope.

Variables scenarioIndentation stepIndentation errorIndentation : Z.
Variable Verbose : bool.
Variable newline : string.
Variables formatSpec formatScenario : string -> string.
Variable indent : string -> Z -> string.
Variables getFailureSymbol getSuccessSymbol : string.

Local Abbreviation perform :=
  (perform scenarioIndentation stepIndentation errorIndentation Verbose newline
           formatSpec formatScenario indent getFailureSymbol getSuccessSymbol).
Local Abbreviation performAll :=
  (performAll scenarioIndentation stepIndentation errorIndentation Verbose newline
              formatSpec formatScenario indent getFailureSymbol getSuccessSymbol).

(** What a call adds to the indentation. *)
Local Abbreviation indentationChange k :=
  (match k with
   | CallScenarioStart _ => scenarioIndentation
   | CallScenarioEnd _ => - scenarioIndentation
   | CallStepStart _ | CallConceptStart _ => stepIndentation
   | CallStepEnd _ | CallConceptEnd _ => - stepIndentation
   | _ => 0
   end)%Z.

Lemma wrap_wrap_add (x y : Z) : wrap (wrap x + y) = wrap (x + y).
Proof.
  unfold wrap. f_equal.
  replace ((x + 2 ^ 63) mod 2 ^ 64 - 2 ^ 63 + y + 2 ^ 63)%Z
    with ((x + 2 ^ 63) mod 2 ^ 64 + y)%Z by lia.
  rewrite Zplus_mod_idemp_l. f_equal. lia.
Qed.

Lemma performAll_writer_app (calls : list call) (c : coloredConsole) :
  exists printed, writer (performAll c calls) = (writer c ++ printed)%list.
Proof.
  revert c. induction calls as [|k calls IH]; intros c.
  - exists []. cbn. now rewrite app_nil_r.
  - change (performAll c (k :: calls)) with (performAll (perform c k) calls).
    destruct (IH (perform c k)) as [printed ->].
    assert (exists first, writer (perform c k) = (writer c ++ first)%list) as [first ->].
    { destruct k; cbn [Reporter.perform];
        unfold SpecStart, SpecEnd, ScenarioStart, ScenarioEnd, StepStart, StepEnd,
               ConceptStart, ConceptEnd, DataTable, Error, Write, displayMessage, emit,
               resetBuffers, setIndentation;
        try destruct Verbose; try destruct failed; cbn [writer negb];
        rewrite <- ?app_assoc; eauto.
      all: exists []; now rewrite app_nil_r. }
    rewrite <- app_assoc. eauto.
Qed.

(** X24: from an indentation that is a Go [int], the indentation after
    any sequence of calls, balanced or not, is the indentation before plus
    what each call adds (a start its indentation, an end the opposite, the
    other calls nothing), wrapped to a Go [int]; so it does not depend on
    the order of the calls. What the calls print is appended to the
    writer. *)
Theorem performAll_indentation (c : coloredConsole) (calls : list call) :
  isInt (indentation c) ->
  indentation (performAll c calls)
  = wrap (indentation c + fold_right Z.add 0%Z (map (fun k => indentationChange k) calls)) /\
  (forall calls', Permutation calls calls' ->
                  indentation (performAll c calls') = indentation (performAll c calls)) /\
  exists printed, writer (performAll c calls) = (writer c ++ printed)%list.
Proof.
  intros Hc.
  assert (Hsum : forall calls c, isInt (indentation c) ->
            indentation (performAll c calls)
            = wrap (indentation c
                    + fold_right Z.add 0%Z (map (fun k => indentationChange k) calls))).
  { clear c calls Hc. induction calls as [|k calls IH]; intros c Hc.
    - cbn. rewrite Z.add_0_r. symmetry. apply wrap_small, Hc.
    - change (performAll c (k :: calls)) with (performAll (perform c k) calls).
      rewrite IH by (apply perform_isInt, Hc). rewrite perform_indentation.
      cbn [map fold_right].
      destruct k; rewrite ?wrap_wrap_add; f_equal; lia. }
  split; [apply Hsum, Hc|]. split; [|apply performAll_writer_app].
  intros calls' Hperm. rewrite !Hsum by exact Hc. f_equal. f_equal.
  induction Hperm as [|k a b _ IH|k1 k2 a|a b d _ IH1 _ IH2]; cbn [map fold_right];
    [reflexivity | rewrite IH; reflexivity | lia | congruence].
Qed.

Lemma performAll_writes (texts : list string) (c : coloredConsole) :
  performAll c (map CallWrite texts)
  = {| writer := (writer c ++ map (fun text => Print text None_) texts)%list;
       headingBuffer := headingBuffer c;
       pluginMessagesBuffer := pluginMessagesBuffer c ++ fold_right String.append "" texts;
       indentation := indentation c |}.
Proof.
  revert c. induction texts as [|text texts IH]; intros c.
  - cbn. rewrite app_nil_r, append_nil_r. destruct c; reflexivity.
  - change (performAll c (map CallWrite (text :: texts)))
      with (performAll (perform c (CallWrite text)) (map CallWrite texts)).
    rewrite IH. cbn [Reporter.perform Write displayMessage emit writer headingBuffer
                     pluginMessagesBuffer indentation fold_right].
    rewrite <- app_assoc, append_assoc. reflexivity.
Qed.

(** X25: one step, from its start over the texts the plugin writes to
    its end. The buffers the console held before the start are dropped and
    both buffers are empty after the end. In verbose mode the heading is
    printed at the start, each text as it is written, and at the end the
    terminal is cleared and the heading is printed again with the status,
    followed by all the texts at once; otherwise the end prints the symbol
    of failure or of success only. *)
Theorem step_trace (c : coloredConsole) (stepText : string) (texts : list string)
        (failed : bool) :
  let heading := indent (trim stepText) (wrap (indentation c + stepIndentation)) in
  let c' := performAll c (CallStepStart stepText :: map CallWrite texts
                            ++ [CallStepEnd failed]) in
  headingBuffer c' = "" /\ pluginMessagesBuffer c' = "" /\
  writer c'
  = (writer c ++ [Reset]
       ++ (if Verbose then [Print (heading ++ newline) None_] else [])
       ++ map (fun text => Print text None_) texts
       ++ (if Verbose
           then [Clear;
                 if failed
                 then Print (heading ++ String (ascii_of_nat 9) " ...[FAIL]"
                               ++ String (ascii_of_nat 10) "") Red
                 else Print (heading ++ String (ascii_of_nat 9) " ...[PASS]"
                               ++ String (ascii_of_nat 10) "") Green;
                 Print (fold_right String.append "" texts) None_]
           else [if failed then Print (getFailureSymbol ++ newline) Red
                 else Print getSuccessSymbol Green])
       ++ [Reset])%list.
Proof.
  cbn zeta. rewrite performAll_bracket, performAll_writes.
  destruct c as [w h p i]. cbn [Reporter.perform].
  unfold StepStart. cbn [resetBuffers emit setIndentation displayMessage writer headingBuffer
                         pluginMessagesBuffer indentation].
  destruct Verbose;
    cbn [writer headingBuffer pluginMessagesBuffer indentation String.append];
    unfold StepEnd;
    cbn [resetBuffers emit setIndentation displayMessage writer headingBuffer
         pluginMessagesBuffer indentation];
    destruct failed;
    cbn [resetBuffers emit setIndentation displayMessage writer headingBuffer
         pluginMessagesBuffer indentation];
    repeat split; rewrite <- ?app_assoc; reflexivity.
Qed.

End ReporterTrace.

(** ** The theorems of the gatherer on one spec file *)

Section GathererInstances.

Import InfoGatherer GathererEvents.
Local Open Scope string_scope.

(** A project in which every file is a spec file with the one step
    [login]. *)
Local Abbreviation login := {| Args := []; stepValue := "login"; ParameterizedStepValue := "login" |}.

Local Abbreviation handleLogin :=
  (handleEvent (list StepValue) unit (fun spec => spec) (fun _ => [])
               (map (fun _ => [login])) (fun _ => None) (fun _ => true) (fun _ => false) Some).

Local Abbreviation nothingCached :=
  ({| specsCache := ∅; conceptsCache := ∅; stepsCache := ∅ |}
   : SpecInfoGatherer (list StepValue) (Concept unit)).

Lemma handleEvent_write_remove_witness :
  let written := handleLogin nothingCached {| Name := "login.spec"; EventOp := Write |} in
  let removed := handleLogin written {| Name := "login.spec"; EventOp := Remove |} in
  specsCache removed !! "login.spec" = None /\
  (forall other, other <> "login.spec" ->
                 specsCache removed !! other = specsCache nothingCached !! other) /\
  conceptsCache removed = conceptsCache nothingCached /\
  (forall spec, In spec (GetAvailableSpecs _ _ removed) ->
                In spec (GetAvailableSpecs _ _ nothingCached)) /\
  stepsCache removed = stepsCache written /\
  Forall (fun step => is_Some (stepsCache removed !! stepValue step))
         (flat_map (fun spec : list StepValue => spec)
                   (take 1 (map (fun _ : string => [login]) ["login.spec"]))).
Proof.
  apply (handleEvent_write_remove (fun spec : list StepValue => spec) (fun _ => [])
           (map (fun _ => [login])) (fun _ => None) (fun _ => true) (fun _ => false) Some
           nothingCached "login.spec" "login.spec"); reflexivity.
Defined.

Lemma handleEvent_writes_accumulate_witness :
  let s' := fold_left (fun s op => handleLogin s {| Name := "login.spec"; EventOp := op |})
                      [Create; Write; Write] nothingCached in
  default [] (specsCache s' !! "login.spec")
  = (default [] (specsCache nothingCached !! "login.spec")
     ++ concat (repeat (take 1 (map (fun _ : string => [login]) ["login.spec"]))
                       (length [Create; Write; Write])))%list /\
  forall other, other <> "login.spec" ->
                specsCache s' !! other = specsCache nothingCached !! other.
Proof.
  apply (handleEvent_writes_accumulate (fun spec : list StepValue => spec) (fun _ => [])
           (map (fun _ => [login])) (fun _ => None) (fun _ => true) (fun _ => false) Some
           nothingCached "login.spec" "login.spec" [Create; Write; Write]);
    [reflexivity | reflexivity |].
  repeat (constructor; [auto|]). constructor.
Defined.

(** An event that reports a write together with a change of the mode. *)
Lemma handleEvent_ignored_witness :
  handleLogin nothingCached {| Name := "login.spec"; EventOp := 18%N |} = nothingCached /\
  handleLogin nothingCached {| Name := "login.spec"; EventOp := Rename |}
  = handleLogin nothingCached {| Name := "login.spec"; EventOp := Remove |}.
Proof.
  apply (handleEvent_ignored (fun spec : list StepValue => spec) (fun _ => [])
           (map (fun _ => [login])) (fun _ => None) (fun _ => true) (fun _ => false) Some
           nothingCached {| Name := "login.spec"; EventOp := 18%N |}).
  right. right. cbn [In EventOp].
  intros [H | [H | [H | [H | H]]]]; [discriminate H .. | exact H].
Defined.

End GathererInstances.

(** ** The handler on a message that is no request *)

Section ApiInstances.

Import Api.
Local Open Scope string_scope.

(** A response, sent to the handler as if it were a request. *)
Local Abbreviation strayResponse :=
  {| MessageType := GetProjectRootResponse; MessageId := Some 7;
     payload := ProjectRootResponse unit unit unit unit "/project" |}.

Local Abbreviation decodesToStray :=
  {| Unmarshal := fun _ => Ok strayResponse;
     ProjectRoot := "/project";
     GetInstallationPrefix := Ok "/usr/local";
     GetAvailableSteps := [];
     GetAvailableSpecs := [];
     GetConceptInfos := [];
     ExtractStepValueAndParams := fun _ _ => Ok tt;
     GetInstallDir := fun _ => Ok "/plugins";
     GetRunnerInfo := fun _ => Ok "libs";
     pathJoin := fun dir file => dir ++ "/" ++ file;
     PerformRephraseRefactoring := fun _ _ => (true, [], []);
     ExtractConcept := fun _ => (true, "", []);
     FormatSpecFiles := fun _ => [] |}.

Lemma MessageBytesReceived_unsupported_witness :
  MessageBytesReceived decodesToStray 1001 []
  = {| MessageId := Some 7; MessageType := UnsupportedApiMessageResponse;
       payload := UnsupportedResponse unit unit unit unit |}.
Proof.
  apply (MessageBytesReceived_unsupported decodesToStray 1001 [] strayResponse).
  - reflexivity.
  - cbn [In MessageType]. intros H.
    repeat (destruct H as [H | H]; [discriminate H|]). exact H.
Defined.

End ApiInstances.

(** ** The console after a scenario and a step that have not ended *)

Section ReporterInstances.

Import GoInt Reporter.
Local Open Scope string_scope.

Lemma performAll_indentation_witness :
  indentation
    (performAll 2 4 2 true "" (fun s => s) (fun s => s) (fun s _ => s) "F" "P"
       {| writer := []; headingBuffer := ""; pluginMessagesBuffer := ""; indentation := 0 |}
       [CallScenarioStart "login"; CallStepStart "open the page"; CallError "no page"])
  = 6.
Proof.
  refine (eq_trans
            (proj1 (performAll_indentation 2 4 2 true "" (fun s => s) (fun s => s)
                      (fun s _ => s) "F" "P"
                      {| writer := []; headingBuffer := ""; pluginMessagesBuffer := "";
                         indentation := 0 |}
                      [CallScenarioStart "login"; CallStepStart "open the page";
                       CallError "no page"] _)) _).
  - unfold isInt. cbn. lia.
  - reflexivity.
Defined.

End ReporterInstances.
